(** * libldm: LDM metadata decoder, topology resolver and device-mapper
      table generator (src/ldm.c)

    A shallow embedding of [ldm.c].  Buffers are lists of bytes addressed by
    integer offsets, fixed-width C integers are [Z] with their wrap-around
    written out, GLib arrays are lists, and the GObject graph is a record
    tree in which a partition refers to its disk by position in the group's
    disk array (disks are the only objects mutated after resolution).

    The file has four parts: the embedding of the code, from the primitives
    up to [ldm_add_fd] and [ldm_volume_generate_dm_tables]; the vocabulary in
    which the properties are stated; disk images built byte by byte, on
    which the embedding is run; and the proofs. *)

From Stdlib Require Import Strings.Byte.
From Stdlib Require Import ZArith List String Ascii Bool Lia.
From Stdlib Require Import Permutation Sorted DecimalString.
Import ListNotations.
Open Scope Z_scope.

Infix "+++" := String.append (at level 60, right associativity).

(** ** Outcomes *)

(** [LDMError] of ldm.h, as registered in [ldm_error_get_type]. *)
Inductive LDMError : Type :=
| LDM_ERROR_INTERNAL
| LDM_ERROR_IO
| LDM_ERROR_NOT_LDM
| LDM_ERROR_INVALID
| LDM_ERROR_INCONSISTENT
| LDM_ERROR_NOTSUPPORTED
| LDM_ERROR_MISSING_DISK.

(** What a C function of the library can do: return normally, fail with a
    [GError], run into undefined behaviour (an access outside the object it
    addresses, a [printf] format without its arguments: [Fault]), or abort
    the process through [g_error] ([Abort]). *)
Inductive result (A : Type) : Type :=
| Ok (a : A)
| Err (e : LDMError)
| Fault
| Abort.
Arguments Ok {A} a.
Arguments Err {A} e.
Arguments Fault {A}.
Arguments Abort {A}.

Definition bind {A B : Type} (c : result A) (k : A -> result B) : result B :=
  match c with
  | Ok a => k a
  | Err e => Err e
  | Fault => Fault
  | Abort => Abort
  end.

Notation "x <- c1 ;; c2" := (bind c1 (fun x => c2))
  (at level 61, c1 at next level, right associativity).
Notation "' pat <- c1 ;; c2" := (bind c1 (fun x => match x with pat => c2 end))
  (at level 61, pat pattern, c1 at next level, right associativity).

(** ** Fixed-width integers and memory *)

Definition wrap (w : Z) (x : Z) : Z := x mod 2 ^ w.
Definition INT_MAX : Z := 2 ^ 31 - 1.

Definition u8 (b : byte) : Z := Z.of_N (Byte.to_N b).

Definition byte_of_Z (x : Z) : byte :=
  match Byte.of_N (Z.to_N (wrap 8 x)) with
  | Some b => b
  | None => x00
  end.

(** Value of a big-endian byte sequence ([be16toh], [be32toh], [be64toh]
    applied to a field read from disk). *)
Fixpoint be_value (acc : Z) (bs : list byte) : Z :=
  match bs with
  | [] => acc
  | b :: bs' => be_value (Z.lor (Z.shiftl acc 8) (u8 b)) bs'
  end.

(** Value the host sees when it reads the same bytes without conversion. *)
Inductive byte_order : Type := LittleEndian | BigEndian.

Definition host_value (host : byte_order) (bs : list byte) : Z :=
  match host with
  | BigEndian => be_value 0 bs
  | LittleEndian => be_value 0 (rev bs)
  end.

Definition mem : Type := list byte.

Definition mem_len (m : mem) : Z := Z.of_nat (List.length m).

(** [n] bytes at offset [p] of the object [m]; outside the object the access
    is undefined. *)
Definition load (m : mem) (p n : Z) : result (list byte) :=
  if (0 <=? p) && (0 <=? n) && (p + n <=? mem_len m)
  then Ok (firstn (Z.to_nat n) (skipn (Z.to_nat p) m))
  else Fault.

Definition load_be (m : mem) (p n : Z) : result Z :=
  bs <- load m p n ;; Ok (be_value 0 bs).

(** [memcpy(&dst[off], src, length src)] on a byte array. *)
Fixpoint blit (dst : list byte) (off : nat) (src : list byte) : list byte :=
  match dst with
  | [] => []
  | d :: dst' =>
      match off with
      | S o => d :: blit dst' o src
      | O =>
          match src with
          | [] => dst
          | s :: src' => s :: blit dst' O src'
          end
      end
  end.

Definition memcpy (dst : list byte) (off : Z) (src : list byte)
  : result (list byte) :=
  if (0 <=? off) && (off + mem_len src <=? mem_len dst)
  then Ok (blit dst (Z.to_nat off) src)
  else Fault.

(** Bytes of a [char] array up to the first NUL, as the C string functions
    see it. *)
Fixpoint c_bytes (bs : list byte) : list byte :=
  match bs with
  | [] => []
  | b :: bs' => if Byte.eqb b x00 then [] else b :: c_bytes bs'
  end.

Definition c_str (s : string) : string :=
  string_of_list_byte (c_bytes (list_byte_of_string s)).

Definition bytes_eqb (a b : list byte) : bool :=
  if list_eq_dec Byte.byte_eq_dec a b then true else false.

(** ** Library functions the code calls *)

(** libuuid's [uuid_t] and [uuid_parse]: exactly 36 characters, hyphens at
    8, 13, 18 and 23, hexadecimal digits elsewhere; the sixteen bytes are the
    digit pairs in textual order. *)
Definition uuid_t : Type := list byte.

Definition hex_digit (b : byte) : option Z :=
  let c := u8 b in
  if (48 <=? c) && (c <=? 57) then Some (c - 48)
  else if (97 <=? c) && (c <=? 102) then Some (c - 87)
  else if (65 <=? c) && (c <=? 70) then Some (c - 55)
  else None.

Fixpoint hex_digits (bs : list byte) : option (list Z) :=
  match bs with
  | [] => Some []
  | b :: bs' =>
      match hex_digit b, hex_digits bs' with
      | Some d, Some ds => Some (d :: ds)
      | _, _ => None
      end
  end.

Fixpoint hex_pairs (ds : list Z) : list byte :=
  match ds with
  | h :: l :: ds' => byte_of_Z (h * 16 + l) :: hex_pairs ds'
  | _ => []
  end.

Definition uuid_parse (s : list byte) : option uuid_t :=
  let hyphen k :=
    match nth_error s k with
    | Some b => Byte.eqb b "-"%byte
    | None => false
    end in
  if negb (Nat.eqb (List.length s) 36) then None
  else if hyphen 8%nat && hyphen 13%nat && hyphen 18%nat && hyphen 23%nat then
    match hex_digits (firstn 8 s ++ firstn 4 (skipn 9 s)
                      ++ firstn 4 (skipn 14 s) ++ firstn 4 (skipn 19 s)
                      ++ skipn 24 s) with
    | Some ds => Some (hex_pairs ds)
    | None => None
    end
  else None.

(** [uuid_compare(a, b) == 0]. *)
Definition uuid_equal (a b : uuid_t) : bool := bytes_eqb a b.

(** [printf]'s [%lu] and [%u]. *)
Definition dec (x : Z) : string :=
  NilEmpty.string_of_uint (N.to_uint (Z.to_N x)).

(** [printf]'s [%s]; glibc prints a NULL pointer as "(null)". *)
Definition fmt_s (s : option string) : string :=
  match s with
  | Some s => c_str s
  | None => "(null)"
  end.

(** A [printf] format that can be printed without arguments: every "%" of
    it starts the specification "%%".  Any other specification makes
    [printf] fetch an argument, or is incomplete. *)
Fixpoint format_takes_no_argument (format : string) : bool :=
  match format with
  | EmptyString => true
  | String c rest =>
      if Ascii.eqb c "%" then
        match rest with
        | String c' rest' =>
            Ascii.eqb c' "%" && format_takes_no_argument rest'
        | EmptyString => false
        end
      else format_takes_no_argument rest
  end.

(** GLib's [g_warning (format)] with the format as its only argument: the
    text is formatted as by [printf] and logged, which the embedding does
    not record.  The call is undefined when the format asks for an argument
    that was not passed. *)
Definition g_warning (format : string) : result unit :=
  if format_takes_no_argument format then Ok tt else Fault.

(** GLib's [g_uri_escape_string (s, G_URI_RESERVED_CHARS_ALLOWED_IN_PATH_ELEMENT,
    FALSE)]: unreserved characters (letters, digits, "-", ".", "_", "~") and
    the allowed reserved characters "!$&'()*+,;=:@" are kept, every other
    byte becomes "%XX" in upper-case hexadecimal.  A NULL argument yields
    NULL. *)
Definition uri_char_ok (b : byte) : bool :=
  let c := u8 b in
  ((48 <=? c) && (c <=? 57)) || ((65 <=? c) && (c <=? 90))
  || ((97 <=? c) && (c <=? 122))
  || existsb (Byte.eqb b) (list_byte_of_string "-._~!$&'()*+,;=:@").

Definition hex_upper (d : Z) : byte :=
  if d <? 10 then byte_of_Z (48 + d) else byte_of_Z (55 + d).

Fixpoint uri_escape_bytes (bs : list byte) : list byte :=
  match bs with
  | [] => []
  | b :: bs' =>
      if uri_char_ok b then b :: uri_escape_bytes bs'
      else "%"%byte :: hex_upper (Z.shiftr (u8 b) 4)
             :: hex_upper (Z.land (u8 b) 15) :: uri_escape_bytes bs'
  end.

Definition g_uri_escape_string (s : option string) : option string :=
  match s with
  | Some s =>
      Some (string_of_list_byte
              (uri_escape_bytes (c_bytes (list_byte_of_string s))))
  | None => None
  end.

(** GLib's [g_array_sort] with a comparison function returning a [gint];
    modelled as a stable insertion sort. *)
Section ArraySort.
Context {A : Type} (cmp : A -> A -> Z).

Fixpoint sort_insert (x : A) (l : list A) : list A :=
  match l with
  | [] => [x]
  | y :: l' => if cmp x y <=? 0 then x :: l else y :: sort_insert x l'
  end.

Definition g_array_sort (l : list A) : list A :=
  fold_right sort_insert [] l.
End ArraySort.

(** ** On-disk structures

    The fixed structures are packed; a layout lists the members in
    declaration order with their sizes in bytes. *)
Definition layout : Type := list (string * Z).

Fixpoint offsetof (l : layout) (f : string) : Z :=
  match l with
  | [] => 0
  | (g, n) :: l' => if String.eqb f g then 0 else n + offsetof l' f
  end.

Fixpoint fieldsize (l : layout) (f : string) : Z :=
  match l with
  | [] => 0
  | (g, n) :: l' => if String.eqb f g then n else fieldsize l' f
  end.

Definition sizeof (l : layout) : Z :=
  fold_right (fun fn acc => snd fn + acc) 0 l.

Definition _privhead : layout :=
  [ ("magic", 8); ("unknown_sequence", 4); ("version_major", 2);
    ("version_minor", 2); ("unknown_timestamp", 8); ("unknown_number", 8);
    ("unknown_size1", 8); ("unknown_size2", 8); ("disk_guid", 64);
    ("host_guid", 64); ("disk_group_guid", 64); ("disk_group_name", 32);
    ("unknown1", 2); ("padding1", 9); ("logical_disk_start", 8);
    ("logical_disk_size", 8); ("ldm_config_start", 8); ("ldm_config_size", 8);
    ("n_tocs", 8); ("toc_size", 8); ("n_configs", 4); ("n_logs", 4);
    ("config_size", 8); ("log_size", 8); ("disk_signature", 4);
    ("disk_set_guid", 16); ("disk_set_guid_dup", 16) ]%string.

Definition _tocblock_bitmap : layout :=
  [ ("name", 8); ("flags1", 2); ("start", 8); ("size", 8);
    ("flags2", 8) ]%string.

Definition _tocblock : layout :=
  [ ("magic", 8); ("seq1", 4); ("padding1", 4); ("seq2", 4);
    ("padding2", 16); ("bitmap", 2 * sizeof _tocblock_bitmap) ]%string.

Definition _vmdb : layout :=
  [ ("magic", 4); ("vblk_last", 4); ("vblk_size", 4);
    ("vblk_first_offset", 4); ("update_status", 2); ("version_major", 2);
    ("version_minor", 2); ("disk_group_name", 31); ("disk_group_guid", 64);
    ("committed_seq", 8); ("pending_seq", 8);
    ("n_committed_vblks_vol", 4); ("n_committed_vblks_comp", 4);
    ("n_committed_vblks_part", 4); ("n_committed_vblks_disk", 4);
    ("padding1", 12);
    ("n_pending_vblks_vol", 4); ("n_pending_vblks_comp", 4);
    ("n_pending_vblks_part", 4); ("n_pending_vblks_disk", 4);
    ("padding2", 12); ("last_accessed", 8) ]%string.

Definition _vblk_head : layout :=
  [ ("magic", 4); ("seq", 4); ("record_id", 4); ("entry", 2);
    ("entries_total", 2) ]%string.

Definition _vblk_rec_head : layout :=
  [ ("status", 2); ("flags", 1); ("type", 1); ("size", 4) ]%string.

(** Raw bytes of member [f] of the structure with layout [l] at [p]. *)
Definition member (l : layout) (m : mem) (p : Z) (f : string)
  : result (list byte) :=
  load m (p + offsetof l f) (fieldsize l f).

(** The same member through [be16toh], [be32toh] or [be64toh]. *)
Definition member_be (l : layout) (m : mem) (p : Z) (f : string) : result Z :=
  bs <- member l m p f ;; Ok (be_value 0 bs).

(** [memcmp(p->magic, magic, n) == 0]. *)
Definition magic_is (l : layout) (m : mem) (p : Z) (magic : string)
  : result bool :=
  bs <- member l m p "magic" ;; Ok (bytes_eqb bs (list_byte_of_string magic)).

(** ** Object model (the private structures of the GObject classes) *)

(** Modelled from the spec: the enumerators of ldm.h, GEN = 0x03 and
    RAID5 = 0x04 for volumes, STRIPED = 1, SPANNED = 2 and RAID = 3 for
    components. *)
Inductive LDMVolumeType : Type :=
| LDM_VOLUME_TYPE_GEN
| LDM_VOLUME_TYPE_RAID5.

Inductive LDMComponentType : Type :=
| LDM_COMPONENT_TYPE_STRIPED
| LDM_COMPONENT_TYPE_SPANNED
| LDM_COMPONENT_TYPE_RAID.

Definition volume_type_of (x : Z) : option LDMVolumeType :=
  if x =? 3 then Some LDM_VOLUME_TYPE_GEN
  else if x =? 4 then Some LDM_VOLUME_TYPE_RAID5
  else None.

Definition component_type_of (x : Z) : option LDMComponentType :=
  if x =? 1 then Some LDM_COMPONENT_TYPE_STRIPED
  else if x =? 2 then Some LDM_COMPONENT_TYPE_SPANNED
  else if x =? 3 then Some LDM_COMPONENT_TYPE_RAID
  else None.

Record LDMDisk : Type := mkDisk {
  disk_id : Z;
  disk_name : string;
  disk_dgname : option string;
  disk_data_start : Z;
  disk_data_size : Z;
  disk_metadata_start : Z;
  disk_metadata_size : Z;
  disk_guid : uuid_t;
  disk_device : option string   (* NULL until the device is found *)
}.

(** [part_disk] is the [LDMDisk *]: the position of the disk in the group's
    [disks] array, [None] for NULL. *)
Record LDMPartition : Type := mkPartition {
  part_id : Z;
  part_parent_id : Z;
  part_name : string;
  part_start : Z;
  part_vol_offset : Z;
  part_size : Z;
  part_index : Z;
  part_disk_id : Z;
  part_disk : option nat
}.

Record LDMComponent : Type := mkComponent {
  comp_id : Z;
  comp_parent_id : Z;
  comp_name : string;
  comp_type : LDMComponentType;
  comp_n_parts : Z;
  comp_parts : list LDMPartition;
  comp_stripe_size : Z;
  comp_n_columns : Z
}.

Record LDMVolume : Type := mkVolume {
  vol_id : Z;
  vol_name : string;
  vol_dgname : option string;
  vol_type : LDMVolumeType;
  vol_size : Z;
  vol_part_type : Z;
  vol_flags : Z;
  vol_n_comps : Z;
  vol_comps : list LDMComponent;
  vol_id1 : option string;
  vol_id2 : option string;
  vol_size2 : Z;
  vol_hint : option string
}.

Record LDMDiskGroup : Type := mkDiskGroup {
  dg_guid : uuid_t;
  dg_id : Z;
  dg_name : option string;
  dg_sequence : Z;
  dg_n_disks : Z;
  dg_n_comps : Z;
  dg_n_parts : Z;
  dg_n_vols : Z;
  dg_disks : list LDMDisk;
  dg_comps : list LDMComponent;
  dg_parts : list LDMPartition;
  dg_vols : list LDMVolume
}.

(** The registry: [priv->disk_groups], NULL once the object is disposed. *)
Definition LDM : Type := option (list LDMDiskGroup).

Record LDMDMTable : Type := mkTable {
  table_name : string;
  table_table : string
}.

Definition set_dg_lists (dg : LDMDiskGroup) (disks : list LDMDisk)
    (comps : list LDMComponent) (parts : list LDMPartition)
    (vols : list LDMVolume) : LDMDiskGroup :=
  mkDiskGroup (dg_guid dg) (dg_id dg) (dg_name dg) (dg_sequence dg)
    (dg_n_disks dg) (dg_n_comps dg) (dg_n_parts dg) (dg_n_vols dg)
    disks comps parts vols.

Definition set_dg_disks (dg : LDMDiskGroup) (disks : list LDMDisk) :=
  set_dg_lists dg disks (dg_comps dg) (dg_parts dg) (dg_vols dg).
Definition set_dg_comps (dg : LDMDiskGroup) (comps : list LDMComponent) :=
  set_dg_lists dg (dg_disks dg) comps (dg_parts dg) (dg_vols dg).
Definition set_dg_parts (dg : LDMDiskGroup) (parts : list LDMPartition) :=
  set_dg_lists dg (dg_disks dg) (dg_comps dg) parts (dg_vols dg).
Definition set_dg_vols (dg : LDMDiskGroup) (vols : list LDMVolume) :=
  set_dg_lists dg (dg_disks dg) (dg_comps dg) (dg_parts dg) vols.

Definition set_dg_id_name (dg : LDMDiskGroup) (id : Z) (name : string) :=
  mkDiskGroup (dg_guid dg) id (Some name) (dg_sequence dg)
    (dg_n_disks dg) (dg_n_comps dg) (dg_n_parts dg) (dg_n_vols dg)
    (dg_disks dg) (dg_comps dg) (dg_parts dg) (dg_vols dg).

Definition set_part_disk (p : LDMPartition) (d : option nat) : LDMPartition :=
  mkPartition (part_id p) (part_parent_id p) (part_name p) (part_start p)
    (part_vol_offset p) (part_size p) (part_index p) (part_disk_id p) d.

Definition set_comp_parts (c : LDMComponent) (ps : list LDMPartition) :=
  mkComponent (comp_id c) (comp_parent_id c) (comp_name c) (comp_type c)
    (comp_n_parts c) ps (comp_stripe_size c) (comp_n_columns c).

Definition set_vol_comps (v : LDMVolume) (cs : list LDMComponent) :=
  mkVolume (vol_id v) (vol_name v) (vol_dgname v) (vol_type v) (vol_size v)
    (vol_part_type v) (vol_flags v) (vol_n_comps v) cs (vol_id1 v)
    (vol_id2 v) (vol_size2 v) (vol_hint v).

Definition set_vol_dgname (v : LDMVolume) (n : option string) :=
  mkVolume (vol_id v) (vol_name v) n (vol_type v) (vol_size v)
    (vol_part_type v) (vol_flags v) (vol_n_comps v) (vol_comps v) (vol_id1 v)
    (vol_id2 v) (vol_size2 v) (vol_hint v).

Definition set_disk_dgname (d : LDMDisk) (n : option string) :=
  mkDisk (disk_id d) (disk_name d) n (disk_data_start d) (disk_data_size d)
    (disk_metadata_start d) (disk_metadata_size d) (disk_guid d)
    (disk_device d).

(** ** Variable-length fields *)

(** The loop of [PARSE_VAR_INT]: shift the accumulator by a byte and add the
    next one, in the width of the output type. *)
Fixpoint var_int_loop (w : Z) (m : mem) (i : nat) (out var : Z)
  : result (Z * Z) :=
  match i with
  | O => Ok (out, var)
  | S i' =>
      b <- load_be m var 1 ;;
      var_int_loop w m i' (wrap w (wrap w (Z.shiftl out 8) + b)) (var + 1)
  end.

(** [PARSE_VAR_INT]: returns the value and the advanced cursor. *)
Definition _parse_var_int (w : Z) (m : mem) (var : Z) : result (Z * Z) :=
  i <- load_be m var 1 ;;
  let var := var + 1 in
  if i >? w / 8 then Err LDM_ERROR_INTERNAL
  else var_int_loop w m (Z.to_nat i) 0 var.

Definition _parse_var_int32 := _parse_var_int 32.
Definition _parse_var_int64 := _parse_var_int 64.

Definition _parse_var_string (m : mem) (var : Z) : result (string * Z) :=
  len <- load_be m var 1 ;;
  let var := var + 1 in
  bs <- load m var len ;;
  Ok (string_of_list_byte bs, var + len).

Definition _parse_var_skip (m : mem) (var : Z) : result Z :=
  len <- load_be m var 1 ;;
  Ok (var + 1 + len).

(** [flags & mask] as a condition. *)
Definition flag (flags mask : Z) : bool := negb (Z.land flags mask =? 0).

Definition opt_var_string (c : bool) (m : mem) (var : Z)
  : result (option string * Z) :=
  if c then '(s, var) <- _parse_var_string m var ;; Ok (Some s, var)
  else Ok (None, var).

(** ** Record decoders *)

Definition _parse_vblk_vol (revision flags : Z) (m : mem) (vblk : Z)
  : result LDMVolume :=
  if negb (revision =? 5) then Err LDM_ERROR_NOTSUPPORTED else
  '(id, vblk) <- _parse_var_int32 m vblk ;;
  '(name, vblk) <- _parse_var_string m vblk ;;
  (* volume type string, then the unknown field *)
  vblk <- _parse_var_skip m vblk ;;
  vblk <- _parse_var_skip m vblk ;;
  (* volume state *)
  let vblk := vblk + 14 in
  ty <- load_be m vblk 1 ;;
  let vblk := vblk + 1 in
  match volume_type_of ty with
  | None => Err LDM_ERROR_NOTSUPPORTED
  | Some type =>
      (* unknown, volume number, zeroes *)
      let vblk := vblk + 1 + 1 + 3 in
      vflags <- load_be m vblk 1 ;;
      let vblk := vblk + 1 in
      '(n_comps, vblk) <- _parse_var_int32 m vblk ;;
      (* commit id, id *)
      let vblk := vblk + 8 + 8 in
      '(size, vblk) <- _parse_var_int64 m vblk ;;
      (* zeroes *)
      let vblk := vblk + 4 in
      part_type <- load_be m vblk 1 ;;
      let vblk := vblk + 1 in
      (* volume id *)
      let vblk := vblk + 16 in
      '(id1, vblk) <- opt_var_string (flag flags 8) m vblk ;;
      '(id2, vblk) <- opt_var_string (flag flags 32) m vblk ;;
      '(size2, vblk) <- (if flag flags 128 then _parse_var_int64 m vblk
                         else Ok (0, vblk)) ;;
      '(hint, vblk) <- opt_var_string (flag flags 2) m vblk ;;
      Ok (mkVolume id name None type size part_type vflags n_comps []
            id1 id2 size2 hint)
  end.

Definition _parse_vblk_comp (revision flags : Z) (m : mem) (vblk : Z)
  : result LDMComponent :=
  if negb (revision =? 3) then Err LDM_ERROR_NOTSUPPORTED else
  '(id, vblk) <- _parse_var_int32 m vblk ;;
  '(name, vblk) <- _parse_var_string m vblk ;;
  (* volume state *)
  vblk <- _parse_var_skip m vblk ;;
  ty <- load_be m vblk 1 ;;
  let vblk := vblk + 1 in
  match component_type_of ty with
  | None => Err LDM_ERROR_NOTSUPPORTED
  | Some type =>
      (* zeroes *)
      let vblk := vblk + 4 in
      '(n_parts, vblk) <- _parse_var_int32 m vblk ;;
      (* log commit id, zeroes *)
      let vblk := vblk + 8 + 8 in
      '(parent_id, vblk) <- _parse_var_int32 m vblk ;;
      (* zeroes *)
      let vblk := vblk + 1 in
      if flag flags 16 then
        '(stripe_size, vblk) <- _parse_var_int64 m vblk ;;
        '(n_columns, vblk) <- _parse_var_int32 m vblk ;;
        Ok (mkComponent id parent_id name type n_parts [] stripe_size
              n_columns)
      else Ok (mkComponent id parent_id name type n_parts [] 0 0)
  end.

Definition _parse_vblk_part (revision flags : Z) (m : mem) (vblk : Z)
  : result LDMPartition :=
  if negb (revision =? 3) then Err LDM_ERROR_NOTSUPPORTED else
  '(id, vblk) <- _parse_var_int32 m vblk ;;
  '(name, vblk) <- _parse_var_string m vblk ;;
  (* zeroes, log commit id *)
  let vblk := vblk + 4 + 8 in
  start <- load_be m vblk 8 ;;
  let vblk := vblk + 8 in
  vol_offset <- load_be m vblk 8 ;;
  let vblk := vblk + 8 in
  '(size, vblk) <- _parse_var_int64 m vblk ;;
  '(parent_id, vblk) <- _parse_var_int32 m vblk ;;
  '(disk_id, vblk) <- _parse_var_int32 m vblk ;;
  if flag flags 8 then
    '(index, vblk) <- _parse_var_int32 m vblk ;;
    Ok (mkPartition id parent_id name start vol_offset size index disk_id
          None)
  else Ok (mkPartition id parent_id name start vol_offset size 0 disk_id None).

Definition _parse_vblk_disk (revision flags : Z) (m : mem) (vblk : Z)
  : result LDMDisk :=
  '(id, vblk) <- _parse_var_int32 m vblk ;;
  '(name, vblk) <- _parse_var_string m vblk ;;
  if revision =? 3 then
    '(guid, vblk) <- _parse_var_string m vblk ;;
    match uuid_parse (c_bytes (list_byte_of_string guid)) with
    | None => Err LDM_ERROR_INVALID
    | Some uu => Ok (mkDisk id name None 0 0 0 0 uu None)
    end
  else if revision =? 4 then
    uu <- load m vblk 16 ;;
    Ok (mkDisk id name None 0 0 0 0 uu None)
  else Err LDM_ERROR_NOTSUPPORTED.

Definition _parse_vblk_disk_group (revision flags : Z) (m : mem) (vblk : Z)
    (dg : LDMDiskGroup) : result LDMDiskGroup :=
  if negb (revision =? 3) && negb (revision =? 4)
  then Err LDM_ERROR_NOTSUPPORTED else
  '(id, vblk) <- _parse_var_int32 m vblk ;;
  '(name, vblk) <- _parse_var_string m vblk ;;
  Ok (set_dg_id_name dg id name).

(** [_parse_vblk]: decode the record at [data] of the object [m] (the config
    blob or a reassembled record) into the draft group.  The draft of a
    failed call is dropped by every caller, so the new object is appended
    once it is decoded. *)
Definition _parse_vblk (m : mem) (data : Z) (dg : LDMDiskGroup)
  : result LDMDiskGroup :=
  ty <- member_be _vblk_rec_head m data "type" ;;
  let type := Z.land ty 15 in
  let revision := Z.shiftr (Z.land ty 240) 4 in
  let rec_flags := member_be _vblk_rec_head m data "flags" in
  let data := data + sizeof _vblk_rec_head in
  if type =? 0 then Ok dg
  else if type =? 1 then
    flags <- rec_flags ;;
    vol <- _parse_vblk_vol revision flags m data ;;
    Ok (set_dg_vols dg (dg_vols dg ++ [vol]))
  else if type =? 2 then
    flags <- rec_flags ;;
    comp <- _parse_vblk_comp revision flags m data ;;
    Ok (set_dg_comps dg (dg_comps dg ++ [comp]))
  else if type =? 3 then
    flags <- rec_flags ;;
    part <- _parse_vblk_part revision flags m data ;;
    Ok (set_dg_parts dg (dg_parts dg ++ [part]))
  else if type =? 4 then
    flags <- rec_flags ;;
    disk <- _parse_vblk_disk revision flags m data ;;
    Ok (set_dg_disks dg (dg_disks dg ++ [disk]))
  else if type =? 5 then
    flags <- rec_flags ;;
    _parse_vblk_disk_group revision flags m data dg
  else Err LDM_ERROR_NOTSUPPORTED.

Definition _cmp_component_parts (a b : LDMPartition) : Z :=
  if part_index a <? part_index b then -1
  else if part_index a >? part_index b then 1
  else 0.

(** ** Spanned records *)

(** [struct _spanned_rec]; [record_id] keeps the raw bytes of the header
    field, which the code compares without conversion. *)
Record _spanned_rec : Type := mkSpanned {
  record_id : list byte;
  entries_total : Z;
  entries_found : Z;
  rec_offset : Z;
  rec_data : list byte
}.

(** The fields of a [struct _vblk_head] the loop uses, as raw bytes. *)
Record vblk_head : Type := mkHead {
  head_record_id : list byte;
  head_entry : list byte;
  head_entries_total : list byte
}.

Definition be16toh (bs : list byte) : Z := be_value 0 bs.

(** The search of lines 1919-1930: the first record with the header's
    [record_id] counts the entry and receives its payload; [None] when there
    is no such record. *)
Fixpoint spanned_update (spanned : list _spanned_rec) (head : vblk_head)
    (vblk_data_size : Z) (payload : list byte)
  : result (option (list _spanned_rec)) :=
  match spanned with
  | [] => Ok None
  | r :: rest =>
      if bytes_eqb (record_id r) (head_record_id head) then
        data <- memcpy (rec_data r)
                  (be16toh (head_entry head) * vblk_data_size) payload ;;
        Ok (Some (mkSpanned (record_id r) (entries_total r)
                    (wrap 16 (entries_found r + 1)) (rec_offset r) data
                  :: rest))
      else
        o <- spanned_update rest head vblk_data_size payload ;;
        Ok (option_map (cons r) o)
  end.

(** Lines 1931-1943: a new record.  The allocation is sized from the
    unconverted [entries_total] field, multiplied in [int]. *)
Definition spanned_new (host : byte_order) (head : vblk_head)
    (vblk_data_size offset : Z) (payload : list byte) : result _spanned_rec :=
  let n := host_value host (head_entries_total head) * vblk_data_size in
  if n >? INT_MAX then Fault else
  data <- memcpy (repeat x00 (Z.to_nat n))
            (be16toh (head_entry head) * vblk_data_size) payload ;;
  Ok (mkSpanned (head_record_id head) (be16toh (head_entries_total head)) 1
        offset data).

(** The spanned branch of the loop body for one entry. *)
Definition spanned_add (host : byte_order) (spanned : list _spanned_rec)
    (head : vblk_head) (vblk_data_size offset : Z) (payload : list byte)
  : result (list _spanned_rec) :=
  o <- spanned_update spanned head vblk_data_size payload ;;
  match o with
  | Some spanned' => Ok spanned'
  | None =>
      r <- spanned_new host head vblk_data_size offset payload ;;
      Ok (spanned ++ [r])
  end.

(** Lines 1953-1966: every reassembly must be complete; the records are
    decoded in the order in which they were first seen. *)
Fixpoint spanned_finish (spanned : list _spanned_rec) (dg : LDMDiskGroup)
  : result LDMDiskGroup :=
  match spanned with
  | [] => Ok dg
  | rec :: rest =>
      if negb (entries_found rec =? entries_total rec)
      then Err LDM_ERROR_INVALID
      else dg <- _parse_vblk (rec_data rec) 0 dg ;; spanned_finish rest dg
  end.

Definition read_vblk_head (config : mem) (vblk : Z) : result vblk_head :=
  rid <- member _vblk_head config vblk "record_id" ;;
  entry <- member _vblk_head config vblk "entry" ;;
  total <- member _vblk_head config vblk "entries_total" ;;
  Ok (mkHead rid entry total).

(** The [for (;;)] loop of [_parse_vblks].  Every iteration advances [vblk]
    by at least the size of a header, so [fuel] above the length of the
    blob is never exhausted. *)
Fixpoint vblk_loop (host : byte_order) (fuel : nat) (config : mem)
    (vblk_data_size vblk : Z) (dg : LDMDiskGroup)
    (spanned : list _spanned_rec)
  : result (LDMDiskGroup * list _spanned_rec) :=
  match fuel with
  | O => Fault
  | S fuel' =>
      let offset := vblk in
      is_vblk <- magic_is _vblk_head config vblk "VBLK" ;;
      if negb is_vblk then Ok (dg, spanned) else
      head <- read_vblk_head config vblk ;;
      (* sanity check the header *)
      if (be16toh (head_entries_total head) >? 0)
         && (be16toh (head_entry head) >=? be16toh (head_entries_total head))
      then Err LDM_ERROR_INVALID else
      let vblk := vblk + sizeof _vblk_head in
      if be16toh (head_entries_total head) >? 1 then
        payload <- load config vblk vblk_data_size ;;
        spanned <- spanned_add host spanned head vblk_data_size offset
                     payload ;;
        vblk_loop host fuel' config vblk_data_size (vblk + vblk_data_size)
          dg spanned
      else
        dg <- _parse_vblk config vblk dg ;;
        vblk_loop host fuel' config vblk_data_size (vblk + vblk_data_size)
          dg spanned
  end.

(** ** Topology resolver (second half of [_parse_vblks]) *)

(** Position of the first disk whose id is [id], counting from [j]. *)
Fixpoint find_disk (disks : list LDMDisk) (id : Z) (j : nat) : option nat :=
  match disks with
  | [] => None
  | disk :: disks' =>
      if disk_id disk =? id then Some j else find_disk disks' id (S j)
  end.

(** Append [part] to the first component whose id is the partition's
    [parent_id]; [None] when no component has it. *)
Fixpoint add_to_component (comps : list LDMComponent) (part : LDMPartition)
  : option (list LDMComponent) :=
  match comps with
  | [] => None
  | comp :: comps' =>
      if comp_id comp =? part_parent_id part
      then Some (set_comp_parts comp (comp_parts comp ++ [part]) :: comps')
      else option_map (cons comp) (add_to_component comps' part)
  end.

Fixpoint add_to_volume (vols : list LDMVolume) (comp : LDMComponent)
  : option (list LDMVolume) :=
  match vols with
  | [] => None
  | vol :: vols' =>
      if vol_id vol =? comp_parent_id comp
      then Some (set_vol_comps vol (vol_comps vol ++ [comp]) :: vols')
      else option_map (cons vol) (add_to_volume vols' comp)
  end.

(** The loop over partitions (lines 1995-2036): returns the partitions with
    their disk set and the components with their children. *)
Fixpoint link_parts (disks : list LDMDisk) (parts : list LDMPartition)
    (comps : list LDMComponent)
  : result (list LDMPartition * list LDMComponent) :=
  match parts with
  | [] => Ok ([], comps)
  | part :: parts' =>
      match find_disk disks (part_disk_id part) O with
      | None => Err LDM_ERROR_INVALID
      | Some j =>
          let part := set_part_disk part (Some j) in
          match add_to_component comps part with
          | None => Err LDM_ERROR_INVALID
          | Some comps =>
              '(parts', comps) <- link_parts disks parts' comps ;;
              Ok (part :: parts', comps)
          end
      end
  end.

(** The loop over components (lines 2038-2074). *)
Fixpoint link_comps (comps : list LDMComponent) (vols : list LDMVolume)
  : result (list LDMComponent * list LDMVolume) :=
  match comps with
  | [] => Ok ([], vols)
  | comp :: comps' =>
      if negb (Z.of_nat (List.length (comp_parts comp)) =? comp_n_parts comp)
      then Err LDM_ERROR_INVALID else
      (* sort partitions into index order *)
      let comp :=
        set_comp_parts comp
          (g_array_sort _cmp_component_parts (comp_parts comp)) in
      match add_to_volume vols comp with
      | None => Err LDM_ERROR_INVALID
      | Some vols =>
          '(comps', vols) <- link_comps comps' vols ;;
          Ok (comp :: comps', vols)
      end
  end.

(** The loop over volumes (lines 2076-2089). *)
Fixpoint check_vols (name : option string) (vols : list LDMVolume)
  : result (list LDMVolume) :=
  match vols with
  | [] => Ok []
  | vol :: vols' =>
      if negb (Z.of_nat (List.length (vol_comps vol)) =? vol_n_comps vol)
      then Err LDM_ERROR_INVALID else
      vols' <- check_vols name vols' ;;
      Ok (set_vol_dgname vol name :: vols')
  end.

Definition resolve (dg : LDMDiskGroup) : result LDMDiskGroup :=
  if negb (Z.of_nat (List.length (dg_disks dg)) =? dg_n_disks dg)
  then Err LDM_ERROR_INVALID
  else if negb (Z.of_nat (List.length (dg_comps dg)) =? dg_n_comps dg)
  then Err LDM_ERROR_INVALID
  else if negb (Z.of_nat (List.length (dg_parts dg)) =? dg_n_parts dg)
  then Err LDM_ERROR_INVALID
  else if negb (Z.of_nat (List.length (dg_vols dg)) =? dg_n_vols dg)
  then Err LDM_ERROR_INVALID
  else
    '(parts, comps) <- link_parts (dg_disks dg) (dg_parts dg) (dg_comps dg) ;;
    '(comps, vols) <- link_comps comps (dg_vols dg) ;;
    vols <- check_vols (dg_name dg) vols ;;
    let disks :=
      map (fun disk => set_disk_dgname disk (dg_name dg)) (dg_disks dg) in
    Ok (set_dg_lists dg disks comps parts vols).

Definition new_disk_group (guid : uuid_t) : LDMDiskGroup :=
  mkDiskGroup guid 0 None 0 0 0 0 0 [] [] [] [].

(** [_parse_vblks (config, path, vmdb, dg_o, err)]: [vmdb] is the offset of
    the VMDB in the config blob and [dg] the new group, which only has its
    GUID. *)
Definition _parse_vblks (host : byte_order) (config : mem) (vmdb : Z)
    (dg : LDMDiskGroup) : result LDMDiskGroup :=
  sequence <- member_be _vmdb config vmdb "committed_seq" ;;
  n_disks <- member_be _vmdb config vmdb "n_committed_vblks_disk" ;;
  n_comps <- member_be _vmdb config vmdb "n_committed_vblks_comp" ;;
  n_parts <- member_be _vmdb config vmdb "n_committed_vblks_part" ;;
  n_vols <- member_be _vmdb config vmdb "n_committed_vblks_vol" ;;
  let dg :=
    mkDiskGroup (dg_guid dg) (dg_id dg) (dg_name dg) sequence
      n_disks n_comps n_parts n_vols [] [] [] [] in
  size32 <- member_be _vmdb config vmdb "vblk_size" ;;
  let vblk_size := wrap 16 size32 in
  let vblk_data_size := wrap 16 (vblk_size - sizeof _vblk_head) in
  first <- member_be _vmdb config vmdb "vblk_first_offset" ;;
  let vblk := vmdb + first in
  '(dg, spanned) <- vblk_loop host (S (List.length config)) config
                      vblk_data_size vblk dg [] ;;
  dg <- spanned_finish spanned dg ;;
  resolve dg.

(** ** Devices

    Modelled from the spec: the MBR and GPT readers (mbr.c, gpt.c) and the
    host's file operations are external collaborators; a device is given by
    what they return for it. *)
Inductive mbr_part_type : Type :=
| MBR_PART_WINDOWS_LDM
| MBR_PART_EFI_PROTECTIVE
| MBR_PART_OTHER.

Inductive mbr_error : Type :=
| MBR_ERROR_INVALID
| MBR_ERROR_READ
| MBR_ERROR_UNHANDLED.

Inductive gpt_error : Type :=
| GPT_ERROR_INVALID
| GPT_ERROR_READ
| GPT_ERROR_INVALID_PART
| GPT_ERROR_UNHANDLED.

Record gpt_pte_t : Type := mkPte {
  pte_type : uuid_t;
  pte_last_lba : Z
}.

Record gpt_handle_t : Type := mkGpt {
  pte_array_len : Z;
  gpt_get_pte : Z -> gpt_error + gpt_pte_t
}.

Record Device : Type := mkDevice {
  (* ioctl BLKSSZGET *)
  dev_secsize : option Z;
  (* mbr_read: an error or the type of the first partition *)
  dev_mbr_read : mbr_error + mbr_part_type;
  (* gpt_open_secsize *)
  dev_gpt_open : Z -> gpt_error + gpt_handle_t;
  (* fstat, and BLKGETSIZE64 on a block device; None when either fails *)
  dev_size : option Z;
  (* pread at an offset for a count: None is -1, the empty list is 0 *)
  dev_pread : Z -> Z -> option (list byte)
}.

(** The read loops of [_read_privhead_off] and [_read_config]: [pread] until
    [count] bytes are there.  Every round adds a byte or stops, so [fuel]
    equal to [count] is never exhausted. *)
Fixpoint pread_loop (fd : Device) (fuel : nat) (start count : Z)
    (buf : list byte) : result (list byte) :=
  let read := mem_len buf in
  if negb (read <? count) then Ok buf else
  match fuel with
  | O => Fault
  | S fuel' =>
      match dev_pread fd (start + read) (count - read) with
      | None => Err LDM_ERROR_IO
      | Some [] => Err LDM_ERROR_INVALID
      | Some bs =>
          pread_loop fd fuel' start count
            (buf ++ firstn (Z.to_nat (count - read)) bs)
      end
  end.

(** A [struct _privhead] is the bytes read into it. *)
Definition _read_privhead_off (fd : Device) (ph_start : Z) : result mem :=
  privhead <- pread_loop fd (Z.to_nat (sizeof _privhead)) ph_start
                (sizeof _privhead) [] ;;
  is_privhead <- magic_is _privhead privhead 0 "PRIVHEAD" ;;
  if negb is_privhead then Err LDM_ERROR_INVALID else Ok privhead.

Definition _read_privhead_mbr (fd : Device) (secsize : Z) : result mem :=
  _read_privhead_off fd (wrap 32 (secsize * 6)).

Definition _map_gpt_error {A : Type} (e : gpt_error) : result A :=
  match e with
  | GPT_ERROR_INVALID => Err LDM_ERROR_INVALID
  | GPT_ERROR_READ => Err LDM_ERROR_IO
  | GPT_ERROR_INVALID_PART => Abort
  | GPT_ERROR_UNHANDLED => Abort
  end.

Definition LDM_METADATA : uuid_t :=
  [ xaa; xc8; x08; x58; x8f; x7e; xe0; x42;
    x85; xd2; xe1; xe9; x04; x34; xcf; xb3 ].

(** The search loop of [_read_privhead_gpt]; every round fetches entry 0. *)
Fixpoint gpt_loop (fd : Device) (secsize : Z) (h : gpt_handle_t) (n : nat)
  : result mem :=
  match n with
  | O => Err LDM_ERROR_NOT_LDM
  | S n' =>
      match gpt_get_pte h 0 with
      | inl e => _map_gpt_error e
      | inr pte =>
          if uuid_equal (pte_type pte) LDM_METADATA
          then _read_privhead_off fd (wrap 64 (pte_last_lba pte * secsize))
          else gpt_loop fd secsize h n'
      end
  end.

Definition _read_privhead_gpt (fd : Device) (secsize : Z) : result mem :=
  match dev_gpt_open fd secsize with
  | inl e => _map_gpt_error e
  | inr h => gpt_loop fd secsize h (Z.to_nat (pte_array_len h))
  end.

Definition _read_privhead (fd : Device) (secsize : Z) : result mem :=
  match dev_mbr_read fd with
  | inl MBR_ERROR_INVALID => Err LDM_ERROR_INVALID
  | inl MBR_ERROR_READ => Err LDM_ERROR_IO
  | inl MBR_ERROR_UNHANDLED => Abort
  | inr MBR_PART_WINDOWS_LDM => _read_privhead_mbr fd secsize
  | inr MBR_PART_EFI_PROTECTIVE => _read_privhead_gpt fd secsize
  | inr MBR_PART_OTHER => Err LDM_ERROR_NOT_LDM
  end.

Definition _read_config (fd : Device) (secsize : Z) (privhead : mem)
  : result mem :=
  match dev_size fd with
  | None => Err LDM_ERROR_IO
  | Some size =>
      start <- member_be _privhead privhead 0 "ldm_config_start" ;;
      len <- member_be _privhead privhead 0 "ldm_config_size" ;;
      let config_start := wrap 64 (start * secsize) in
      let config_size := wrap 64 (len * secsize) in
      if config_start >? size then Err LDM_ERROR_INVALID
      else if wrap 64 (config_start + config_size) >? size
      then Err LDM_ERROR_INVALID
      else pread_loop fd (Z.to_nat config_size) config_start config_size []
  end.

(** [strcmp(p, lit) == 0] for a literal [lit] given with its terminating
    NUL: bytes are compared up to the first difference. *)
Fixpoint strcmp_eq (m : mem) (p : Z) (lit : list byte) : result bool :=
  match lit with
  | [] => Ok true
  | c :: lit' =>
      bs <- load m p 1 ;;
      if bytes_eqb bs [c] then strcmp_eq m (p + 1) lit' else Ok false
  end.

Definition bitmap_is_config (config : mem) (bitmap : Z) : result bool :=
  strcmp_eq config (bitmap + offsetof _tocblock_bitmap "name")
    (list_byte_of_string "config" ++ [x00]).

(** [_find_vmdb]: the offset of the VMDB in the config blob. *)
Definition _find_vmdb (config : mem) (secsize : Z) : result Z :=
  (* TOCBLOCK starts 2 sectors into config *)
  let tocblock := wrap 32 (secsize * 2) in
  is_tocblock <- magic_is _tocblock config tocblock "TOCBLOCK" ;;
  if negb is_tocblock then Err LDM_ERROR_INVALID else
  let bitmap i :=
    tocblock + offsetof _tocblock "bitmap" + i * sizeof _tocblock_bitmap in
  let db i :=
    start <- member_be _tocblock_bitmap config (bitmap i) "start" ;;
    Ok (wrap 64 (start * secsize)) in
  c0 <- bitmap_is_config config (bitmap 0) ;;
  vmdb <- (if c0 then db 0 else
           c1 <- bitmap_is_config config (bitmap 1) ;;
           if c1 then db 1 else Err LDM_ERROR_INVALID) ;;
  is_vmdb <- magic_is _vmdb config vmdb "VMDB" ;;
  if negb is_vmdb then Err LDM_ERROR_INVALID else Ok vmdb.

(** ** The registry *)

(** The lookup loop of [ldm_add_fd] (it does not stop at a match): the
    position of the last group with this GUID. *)
Fixpoint find_group (disk_groups : list LDMDiskGroup) (guid : uuid_t)
    (i : nat) (dg : option nat) : option nat :=
  match disk_groups with
  | [] => dg
  | c :: rest =>
      find_group rest guid (S i)
        (if uuid_equal guid (dg_guid c) then Some i else dg)
  end.

(** The loop of lines 2204-2217 over the first [n] disks of the group: the
    first one with the GUID of PRIVHEAD gets the device and its extents. *)
Fixpoint set_disk_device (n : nat) (disks : list LDMDisk) (guid : uuid_t)
    (path : string) (privhead : mem) : result (list LDMDisk) :=
  match n with
  | O => Ok disks
  | S n' =>
      match disks with
      | [] => Fault
      | disk :: disks' =>
          if uuid_equal guid (disk_guid disk) then
            data_start <- member_be _privhead privhead 0
                            "logical_disk_start" ;;
            data_size <- member_be _privhead privhead 0
                           "logical_disk_size" ;;
            metadata_start <- member_be _privhead privhead 0
                                "ldm_config_start" ;;
            metadata_size <- member_be _privhead privhead 0
                               "ldm_config_size" ;;
            Ok (mkDisk (disk_id disk) (disk_name disk) (disk_dgname disk)
                  data_start data_size metadata_start metadata_size
                  (disk_guid disk) (Some path)
                :: disks')
          else
            disks' <- set_disk_device n' disks' guid path privhead ;;
            Ok (disk :: disks')
      end
  end.

Fixpoint list_set {A : Type} (l : list A) (i : nat) (x : A) : list A :=
  match l, i with
  | [], _ => []
  | _ :: l', O => x :: l'
  | y :: l', S i' => y :: list_set l' i' x
  end.

(** [goto error]: the call fails and the registry stays as it is. *)
Definition try {A : Type} (r : result A) (o : LDM)
    (k : A -> result unit * LDM) : result unit * LDM :=
  match r with
  | Ok a => k a
  | Err e => (Err e, o)
  | Fault => (Fault, o)
  | Abort => (Abort, o)
  end.

Definition privhead_guid (privhead : mem) (f : string) : result uuid_t :=
  match uuid_parse (c_bytes (skipn (Z.to_nat (offsetof _privhead f))
                               privhead)) with
  | Some uu => Ok uu
  | None => Err LDM_ERROR_INVALID
  end.

Definition ldm_add_fd (host : byte_order) (o : LDM) (fd : Device)
    (secsize : Z) (path : string) : result unit * LDM :=
  match o with
  | None => (Ok tt, o)
  | Some disk_groups =>
      try (_read_privhead fd secsize) o (fun privhead =>
      try (_read_config fd secsize privhead) o (fun config =>
      try (_find_vmdb config secsize) o (fun vmdb =>
      try (privhead_guid privhead "disk_guid") o (fun guid =>
      try (privhead_guid privhead "disk_group_guid") o
        (fun disk_group_guid =>
      let attach (disk_groups : list LDMDiskGroup) (i : nat)
          (dg : LDMDiskGroup) :=
        try (set_disk_device (Z.to_nat (dg_n_disks dg)) (dg_disks dg)
               guid path privhead) (Some disk_groups) (fun disks =>
        (Ok tt, Some (list_set disk_groups i (set_dg_disks dg disks)))) in
      match find_group disk_groups disk_group_guid O None with
      | None =>
          try (_parse_vblks host config vmdb
                 (new_disk_group disk_group_guid)) o (fun dg =>
          attach (disk_groups ++ [dg]) (List.length disk_groups) dg)
      | Some i =>
          match nth_error disk_groups i with
          | None => (Fault, o)
          | Some dg =>
              (* check this disk is consistent with other disks *)
              try (member_be _vmdb config vmdb "committed_seq") o
                (fun committed =>
              if negb (committed =? dg_sequence dg)
              then (Err LDM_ERROR_INCONSISTENT, o)
              else attach disk_groups i dg)
          end
      end)))))
  end.

Definition ldm_new : LDM := Some [].

(** [ldm_add]: [open] gives the device behind a path, if any; the sector
    size falls back to 512. *)
Definition ldm_add (host : byte_order) (open : string -> option Device)
    (o : LDM) (path : string) : result unit * LDM :=
  match open path with
  | None => (Err LDM_ERROR_IO, o)
  | Some fd =>
      let secsize :=
        match dev_secsize fd with Some s => s | None => 512 end in
      ldm_add_fd host o fd secsize path
  end.

(** ** Device-mapper tables *)

Definition nl : string := String (ascii_of_nat 10) EmptyString.

(** The text appended to a [GString] by a sequence of [printf]s. *)
Definition cat (ls : list string) : string :=
  fold_right String.append EmptyString ls.

(** [part->disk->priv]: the disk a partition points to. *)
Definition part_disk_priv (disks : list LDMDisk) (part : LDMPartition)
  : result LDMDisk :=
  match part_disk part with
  | None => Fault
  | Some j =>
      match nth_error disks j with
      | Some disk => Ok disk
      | None => Fault
      end
  end.

Definition _generate_dm_table_part (disks : list LDMDisk)
    (part : LDMPartition) : result LDMDMTable :=
  disk <- part_disk_priv disks part ;;
  match disk_device disk with
  | None => Err LDM_ERROR_MISSING_DISK
  | Some device =>
      (* ensure we sanitise table names *)
      let dgname_esc := g_uri_escape_string (disk_dgname disk) in
      let partname_esc := g_uri_escape_string (Some (part_name part)) in
      Ok (mkTable
            ("ldm_" +++ fmt_s dgname_esc +++ "_" +++ fmt_s partname_esc)
            ("0 " +++ dec (part_size part) +++ " linear " +++ c_str device
             +++ " "
             +++ dec (wrap 64 (disk_data_start disk + part_start part))
             +++ nl))
  end.

(** The message of the [GError] that [_generate_dm_table_part] sets for a
    disk without device (line 2370). *)
Definition missing_disk_message (disk : LDMDisk) (part : LDMPartition)
  : string :=
  "Disk " +++ fmt_s (Some (disk_name disk)) +++ " required by partition "
  +++ fmt_s (Some (part_name part)) +++ " is missing".

(** Name of the top-level table of a volume, as every generator prints it. *)
Definition volume_table_name (vol : LDMVolume) : string :=
  "ldm_" +++ fmt_s (vol_dgname vol) +++ "_" +++ fmt_s (Some (vol_name vol)).

(** The loop shared by the mirrored and RAID5 generators over the leaves:
    [chunks] are the tables prepended to [ret] so far, [table] the text of
    the top-level table, which stays the last element of [ret].  [err] tells
    whether the caller passed a [GError **]; a missing disk is only
    recovered from when it did, after the message of the error has been
    handed to [g_warning] as its format (lines 2443 and 2603). *)
Definition leaf_step (err : bool) (disks : list LDMDisk) (part : LDMPartition)
    (st : list LDMDMTable * string * Z)
  : result (list LDMDMTable * string * Z) :=
  let '(chunks, table, found) := st in
  match _generate_dm_table_part disks part with
  | Ok chunk =>
      Ok (chunk :: chunks,
          table +++ " - /dev/mapper/" +++ table_name chunk, found + 1)
  | Err LDM_ERROR_MISSING_DISK =>
      if err then
        disk <- part_disk_priv disks part ;;
        bind (g_warning (missing_disk_message disk part)) (fun _ =>
        Ok (chunks, table +++ " - -", found))
      else Err LDM_ERROR_MISSING_DISK
  | Err e => Err e
  | Fault => Fault
  | Abort => Abort
  end.

Definition is_spanned (t : LDMComponentType) : bool :=
  match t with LDM_COMPONENT_TYPE_SPANNED => true | _ => false end.

Definition is_raid (t : LDMComponentType) : bool :=
  match t with LDM_COMPONENT_TYPE_RAID => true | _ => false end.

Fixpoint mirrored_loop (err : bool) (disks : list LDMDisk)
    (comps : list LDMComponent) (st : list LDMDMTable * string * Z)
  : result (list LDMDMTable * string * Z) :=
  match comps with
  | [] => Ok st
  | comp :: comps' =>
      (* check component is spanned *)
      if negb (is_spanned (comp_type comp))
         || negb (Nat.eqb (List.length (comp_parts comp)) 1)
      then Err LDM_ERROR_NOTSUPPORTED else
      match nth_error (comp_parts comp) 0 with
      | None => Fault
      | Some part =>
          st <- leaf_step err disks part st ;;
          mirrored_loop err disks comps' st
      end
  end.

Definition _generate_dm_tables_mirrored (err : bool) (disks : list LDMDisk)
    (vol : LDMVolume) : result (list LDMDMTable) :=
  let name := volume_table_name vol in
  let table :=
    "0 " +++ dec (vol_size vol) +++ " raid raid1 1 128 "
    +++ dec (Z.of_nat (List.length (vol_comps vol))) in
  '(chunks, table, found) <-
     mirrored_loop err disks (vol_comps vol) ([], table, 0) ;;
  if found =? 0 then Err LDM_ERROR_MISSING_DISK
  else Ok (chunks ++ [mkTable name (table +++ nl)]).

(** One line of a spanned table: the arguments of the [printf] at line
    2508. *)
Record segment : Type := mkSegment {
  seg_pos : Z;
  seg_end : Z;
  seg_device : string;
  seg_offset : Z
}.

Definition print_segment (s : segment) : string :=
  dec (seg_pos s) +++ " " +++ dec (seg_end s) +++ " linear "
  +++ c_str (seg_device s) +++ " " +++ dec (seg_offset s) +++ nl.

Fixpoint spanned_loop (disks : list LDMDisk) (parts : list LDMPartition)
    (pos : Z) : result (list segment) :=
  match parts with
  | [] => Ok []
  | part :: parts' =>
      disk <- part_disk_priv disks part ;;
      match disk_device disk with
      | None => Err LDM_ERROR_MISSING_DISK
      | Some device =>
          (* current position from adding up sizes of partitions should
             equal the volume offset of the partition *)
          if negb (pos =? part_vol_offset part) then Err LDM_ERROR_INVALID
          else
            let seg :=
              mkSegment pos (wrap 64 (pos + part_size part)) device
                (wrap 64 (disk_data_start disk + part_start part)) in
            segs <- spanned_loop disks parts'
                      (wrap 64 (pos + part_size part)) ;;
            Ok (seg :: segs)
      end
  end.

Definition _generate_dm_tables_spanned (disks : list LDMDisk)
    (vol : LDMVolume) (comp : LDMComponent) : result (list LDMDMTable) :=
  segs <- spanned_loop disks (comp_parts comp) 0 ;;
  Ok [mkTable (volume_table_name vol)
        (cat (map print_segment segs))].

Fixpoint striped_loop (disks : list LDMDisk) (parts : list LDMPartition)
    (table : string) : result string :=
  match parts with
  | [] => Ok table
  | part :: parts' =>
      disk <- part_disk_priv disks part ;;
      match disk_device disk with
      | None => Err LDM_ERROR_MISSING_DISK
      | Some device =>
          striped_loop disks parts'
            (table +++ " " +++ c_str device +++ " "
             +++ dec (wrap 64 (disk_data_start disk + part_start part)))
      end
  end.

Definition _generate_dm_tables_striped (disks : list LDMDisk)
    (vol : LDMVolume) (comp : LDMComponent) : result (list LDMDMTable) :=
  table <- striped_loop disks (comp_parts comp)
             ("0 " +++ dec (vol_size vol) +++ " striped "
              +++ dec (comp_n_columns comp) +++ " "
              +++ dec (comp_stripe_size comp)) ;;
  Ok [mkTable (volume_table_name vol) (table +++ nl)].

Fixpoint raid5_loop (err : bool) (disks : list LDMDisk)
    (parts : list LDMPartition) (st : list LDMDMTable * string * Z)
  : result (list LDMDMTable * string * Z) :=
  match parts with
  | [] => Ok st
  | part :: parts' =>
      st <- leaf_step err disks part st ;;
      raid5_loop err disks parts' st
  end.

Definition _generate_dm_tables_raid5 (err : bool) (disks : list LDMDisk)
    (vol : LDMVolume) : result (list LDMDMTable) :=
  if negb (Nat.eqb (List.length (vol_comps vol)) 1)
  then Err LDM_ERROR_NOTSUPPORTED else
  match nth_error (vol_comps vol) 0 with
  | None => Fault
  | Some comp =>
      if negb (is_raid (comp_type comp)) then Err LDM_ERROR_NOTSUPPORTED else
      let table :=
        "0 " +++ dec (vol_size vol) +++ " raid raid5_ls 1 "
        +++ dec (comp_stripe_size comp) +++ " "
        +++ dec (comp_n_columns comp) in
      '(chunks, table, found) <-
         raid5_loop err disks (comp_parts comp) ([], table, 0) ;;
      if wrap 32 found <? wrap 32 (comp_n_columns comp - 1)
      then Err LDM_ERROR_MISSING_DISK
      else Ok (chunks ++ [mkTable (volume_table_name vol) (table +++ nl)])
  end.

(** [ldm_volume_generate_dm_tables]: [disks] is the disk array of the
    volume's group, which the partitions point into. *)
Definition ldm_volume_generate_dm_tables (err : bool) (disks : list LDMDisk)
    (vol : LDMVolume) : result (list LDMDMTable) :=
  match vol_type vol with
  | LDM_VOLUME_TYPE_GEN =>
      if (1 <? List.length (vol_comps vol))%nat
      then _generate_dm_tables_mirrored err disks vol
      else
        (* g_array_index (vol->comps, LDMComponent *, 0) *)
        match nth_error (vol_comps vol) 0 with
        | None => Fault
        | Some comp =>
            match comp_type comp with
            | LDM_COMPONENT_TYPE_SPANNED =>
                _generate_dm_tables_spanned disks vol comp
            | LDM_COMPONENT_TYPE_STRIPED =>
                _generate_dm_tables_striped disks vol comp
            | LDM_COMPONENT_TYPE_RAID => Err LDM_ERROR_NOTSUPPORTED
            end
        end
  | LDM_VOLUME_TYPE_RAID5 => _generate_dm_tables_raid5 err disks vol
  end.

(** ** Accessors *)

(** [ldm_get_disk_groups], [ldm_disk_group_get_volumes],
    [ldm_volume_get_components] and [ldm_component_get_partitions] return
    the array the object holds (with a reference added, which the embedding
    does not count). *)
Definition ldm_get_disk_groups (o : LDM) : option (list LDMDiskGroup) := o.

Definition ldm_disk_group_get_volumes (dg : LDMDiskGroup) : list LDMVolume :=
  dg_vols dg.

Definition ldm_volume_get_components (vol : LDMVolume) : list LDMComponent :=
  vol_comps vol.

Definition ldm_component_get_partitions (comp : LDMComponent)
  : list LDMPartition :=
  comp_parts comp.

(** [ldm_partition_get_disk]: the disk object behind [part->priv->disk],
    [None] for NULL; [disks] is the disk array of the partition's group. *)
Definition ldm_partition_get_disk (disks : list LDMDisk) (part : LDMPartition)
  : option LDMDisk :=
  match part_disk part with
  | Some j => nth_error disks j
  | None => None
  end.

(** * Vocabulary of the statements *)

(** The leaf table a mirror leg contributes: that of its partition when the
    disk is there, none when it is missing. *)
Definition leg_table (disks : list LDMDisk) (comp : LDMComponent)
  : list LDMDMTable :=
  match comp_parts comp with
  | part :: _ =>
      match _generate_dm_table_part disks part with
      | Ok chunk => [chunk]
      | _ => []
      end
  | [] => []
  end.

(** The slot of a leg in the top-level table. *)
Definition leg_slot (disks : list LDMDisk) (comp : LDMComponent) : string :=
  match leg_table disks comp with
  | chunk :: _ => " - /dev/mapper/" +++ table_name chunk
  | [] => " - -"
  end.

(** The text of the top-level table of a mirrored volume. *)
Definition mirror_text (disks : list LDMDisk) (vol : LDMVolume) : string :=
  "0 " +++ dec (vol_size vol) +++ " raid raid1 1 128 "
  +++ dec (Z.of_nat (List.length (vol_comps vol)))
  +++ cat (map (leg_slot disks) (vol_comps vol)) +++ nl.


(** What an escaped table name is: the template with both components
    through [g_uri_escape_string]. *)
Definition escaped_table_name (dgname : option string) (name : string)
  : string :=
  "ldm_" +++ fmt_s (g_uri_escape_string dgname) +++ "_"
  +++ fmt_s (g_uri_escape_string (Some name)).

(** Segments that follow one another from [pos]: each starts where the
    previous one ends. *)
Fixpoint contiguous_from (pos : Z) (segs : list segment) : Prop :=
  match segs with
  | [] => True
  | seg :: segs' => seg_pos seg = pos /\ contiguous_from (seg_end seg) segs'
  end.

(** Where a sequence of segments that starts at [pos] ends. *)
Fixpoint segments_end (pos : Z) (segs : list segment) : Z :=
  match segs with
  | [] => pos
  | seg :: segs' => segments_end (seg_end seg) segs'
  end.

Definition total_size (parts : list LDMPartition) : Z :=
  fold_right (fun part acc => part_size part + acc) 0 parts.

(** The running position of the spanned generator when it reaches the
    partition at position [k]. *)
Definition running_pos (parts : list LDMPartition) (k : nat) : Z :=
  wrap 64 (total_size (firstn k parts)).

(** The disk of a partition is there and has a device. *)
Definition disk_present (disks : list LDMDisk) (part : LDMPartition) : bool :=
  match part_disk_priv disks part with
  | Ok disk =>
      match disk_device disk with Some _ => true | None => false end
  | _ => false
  end.

(** The device reads as a PRIVHEAD, a config blob with its VMDB at [vmdb],
    the GUID of the disk and the GUID of its group. *)
Definition reads_as (fd : Device) (secsize : Z) (privhead config : mem)
    (vmdb : Z) (guid group_guid : uuid_t) : Prop :=
  _read_privhead fd secsize = Ok privhead
  /\ _read_config fd secsize privhead = Ok config
  /\ _find_vmdb config secsize = Ok vmdb
  /\ privhead_guid privhead "disk_guid" = Ok guid
  /\ privhead_guid privhead "disk_group_guid" = Ok group_guid.

(** The fields of a group that only [_parse_vblks] itself writes. *)
Definition same_header (dg dg' : LDMDiskGroup) : Prop :=
  dg_guid dg' = dg_guid dg
  /\ dg_sequence dg' = dg_sequence dg
  /\ dg_n_disks dg' = dg_n_disks dg
  /\ dg_n_comps dg' = dg_n_comps dg
  /\ dg_n_parts dg' = dg_n_parts dg
  /\ dg_n_vols dg' = dg_n_vols dg.

(** Every group of the registry has as many disk objects as it declares. *)
Definition registry_wf (o : LDM) : Prop :=
  match o with
  | Some disk_groups =>
      Forall (fun dg => dg_n_disks dg = Z.of_nat (List.length (dg_disks dg)))
        disk_groups
  | None => True
  end.

(** Order of two partitions by their [index] field. *)
Definition index_le (a b : LDMPartition) : Prop :=
  part_index a <= part_index b.

Definition index_lt (a b : LDMPartition) : Prop :=
  part_index a < part_index b.

(** The children of a component are in ascending index order. *)
Definition parts_ascending (comp : LDMComponent) : Prop :=
  StronglySorted index_le (comp_parts comp).

Definition parts_strictly_ascending (comp : LDMComponent) : Prop :=
  StronglySorted index_lt (comp_parts comp).

(** The volumes of a draft group have no component yet. *)
Definition no_comps (dg : LDMDiskGroup) : Prop :=
  Forall (fun vol => vol_comps vol = []) (dg_vols dg).


(** A disk as it is handed to [ldm_add_fd]: the device, its sector size and
    its path. *)
Definition disk_arg : Type := (Device * Z * string)%type.






(** The disk array of a group once [d] has been added to a registry that
    holds the group. *)
Definition attach (d : disk_arg) (disks : list LDMDisk) : list LDMDisk :=
  let '(fd, secsize, path) := d in
  match _read_privhead fd secsize with
  | Ok privhead =>
      match privhead_guid privhead "disk_guid" with
      | Ok guid =>
          match set_disk_device (List.length disks) disks guid path
                  privhead with
          | Ok disks' => disks'
          | _ => disks
          end
      | _ => disks
      end
  | _ => disks
  end.
(** One entry of the VBLK stream as the loop of [_parse_vblks] sees it: its
    offset in the config blob, its header and its payload. *)
Record vblk_entry : Type := mkEntry {
  e_offset : Z;
  e_head : vblk_head;
  e_payload : list byte
}.

Definition is_spanned_entry (e : vblk_entry) : bool :=
  be16toh (head_entries_total (e_head e)) >? 1.

(** What the loop does to the array of spanned records over a stream of
    entries; an entry with [entries_total] at most 1 is decoded at once and
    leaves the array as it is. *)
Fixpoint reassemble (host : byte_order) (vblk_data_size : Z)
    (es : list vblk_entry) (spanned : list _spanned_rec)
  : result (list _spanned_rec) :=
  match es with
  | [] => Ok spanned
  | e :: es' =>
      if is_spanned_entry e then
        spanned <- spanned_add host spanned (e_head e) vblk_data_size
                     (e_offset e) (e_payload e) ;;
        reassemble host vblk_data_size es' spanned
      else reassemble host vblk_data_size es' spanned
  end.

(** The entry is one of the spanned record [rid]. *)
Definition of_record (rid : list byte) (e : vblk_entry) : bool :=
  bytes_eqb (head_record_id (e_head e)) rid && is_spanned_entry e.

Definition entry_number (c : vblk_head * list byte) : Z :=
  be16toh (head_entry (fst c)).

Definition content (e : vblk_entry) : vblk_head * list byte :=
  (e_head e, e_payload e).

(** [e'] stands where [e] stood: an entry of record [rid] may be replaced by
    another entry of that record, any other entry stays. *)
Definition in_place (rid : list byte) (e e' : vblk_entry) : Prop :=
  e_offset e' = e_offset e
  /\ if of_record rid e then of_record rid e' = true else e' = e.

(** The two halves of [spanned_add]: make sure the record of an entry
    exists, then count the entry and copy its payload. *)
Definition has_record (rid : list byte) (spanned : list _spanned_rec) : bool :=
  existsb (fun r => bytes_eqb (record_id r) rid) spanned.

Definition ensure_record (host : byte_order) (vblk_data_size : Z)
    (spanned : list _spanned_rec) (key : Z * list byte * list byte)
  : result (list _spanned_rec) :=
  let '(offset, rid, total) := key in
  if has_record rid spanned then Ok spanned
  else
    let n := host_value host total * vblk_data_size in
    if n >? INT_MAX then Fault
    else Ok (spanned
             ++ [mkSpanned rid (be16toh total) 0 offset
                   (repeat x00 (Z.to_nat n))]).

Definition write_entry (vblk_data_size : Z) (spanned : list _spanned_rec)
    (c : vblk_head * list byte) : result (list _spanned_rec) :=
  o <- spanned_update spanned (fst c) vblk_data_size (snd c) ;;
  match o with
  | Some spanned' => Ok spanned'
  | None => Fault
  end.

Definition entry_key (e : vblk_entry) : Z * list byte * list byte :=
  (e_offset e, head_record_id (e_head e), head_entries_total (e_head e)).

Fixpoint run_all {X : Type}
    (step : list _spanned_rec -> X -> result (list _spanned_rec))
    (l : list X) (spanned : list _spanned_rec)
  : result (list _spanned_rec) :=
  match l with
  | [] => Ok spanned
  | x :: l' => spanned <- step spanned x ;; run_all step l' spanned
  end.

(** Computations that return or run into undefined behaviour, and nothing
    else, can be exchanged. *)
Definition plain {A : Type} (c : result A) : Prop :=
  (exists a, c = Ok a) \/ c = Fault.


(** The entry content belongs to record [rid]. *)
Definition is_rid (rid : list byte) (c : vblk_head * list byte) : bool :=
  bytes_eqb (head_record_id (fst c)) rid.


(** An entry of record [rid] carries the record's [entries_total] field and
    a payload of [vblk_data_size] bytes. *)
Definition record_entry (rid total : list byte) (vblk_data_size : Z)
    (e : vblk_entry) : Prop :=
  of_record rid e = true ->
  head_entries_total (e_head e) = total
  /\ mem_len (e_payload e) = vblk_data_size.

(** The entries the loop of [_parse_vblks] meets from offset [vblk] on, up
    to the first one without the VBLK magic. *)
Fixpoint stream (fuel : nat) (config : mem) (vblk_data_size vblk : Z)
  : list vblk_entry :=
  match fuel with
  | O => []
  | S fuel' =>
      match magic_is _vblk_head config vblk "VBLK",
            read_vblk_head config vblk with
      | Ok true, Ok head =>
          let payload :=
            match load config (vblk + sizeof _vblk_head) vblk_data_size with
            | Ok payload => payload
            | _ => []
            end in
          mkEntry vblk head payload
          :: stream fuel' config vblk_data_size
               (vblk + sizeof _vblk_head + vblk_data_size)
      | _, _ => []
      end
  end.
(** ** Vocabulary of the further properties *)

(** The components of a draft group have no partition yet. *)
Definition no_parts (dg : LDMDiskGroup) : Prop :=
  Forall (fun comp => comp_parts comp = []) (dg_comps dg).

(** The partition points to a disk of [disks] that carries the id the
    partition record names. *)
Definition part_linked (disks : list LDMDisk) (part : LDMPartition) : Prop :=
  exists disk,
    ldm_partition_get_disk disks part = Some disk
    /\ disk_id disk = part_disk_id part.

(** The partitions the components hold, and the components the volumes
    hold. *)
Definition all_parts (comps : list LDMComponent) : list LDMPartition :=
  List.concat (map comp_parts comps).

Definition all_comps (vols : list LDMVolume) : list LDMComponent :=
  List.concat (map vol_comps vols).

(** A component without its children, a volume without its children and
    its group name. *)
Definition comp_record (comp : LDMComponent) : LDMComponent :=
  set_comp_parts comp [].

Definition vol_record (vol : LDMVolume) : LDMVolume :=
  set_vol_dgname (set_vol_comps vol []) None.

(** The partition as [link_parts] leaves it: its disk pointer set to the
    first disk with its [disk_id]. *)
Definition linked_to (disks : list LDMDisk) (part part' : LDMPartition)
  : Prop :=
  exists j,
    find_disk disks (part_disk_id part) O = Some j
    /\ part' = set_part_disk part (Some j).

(** The component as [link_comps] leaves it: its partitions counted and
    sorted. *)
Definition sorted_of (comp comp' : LDMComponent) : Prop :=
  Z.of_nat (List.length (comp_parts comp)) = comp_n_parts comp
  /\ comp' = set_comp_parts comp
               (g_array_sort _cmp_component_parts (comp_parts comp)).

(** What [resolve] makes of a draft, loop by loop. *)
Record resolved (dg dg' : LDMDiskGroup) : Prop := mkResolved {
  res_header : same_header dg dg' /\ dg_id dg' = dg_id dg
               /\ dg_name dg' = dg_name dg;
  res_n_disks : Z.of_nat (List.length (dg_disks dg)) = dg_n_disks dg;
  res_n_comps : Z.of_nat (List.length (dg_comps dg)) = dg_n_comps dg;
  res_n_parts : Z.of_nat (List.length (dg_parts dg)) = dg_n_parts dg;
  res_n_vols : Z.of_nat (List.length (dg_vols dg)) = dg_n_vols dg;
  res_disks : dg_disks dg'
              = map (fun disk => set_disk_dgname disk (dg_name dg))
                  (dg_disks dg);
  res_parts : Forall2 (linked_to (dg_disks dg)) (dg_parts dg) (dg_parts dg');
  res_comps : exists comps,
      link_parts (dg_disks dg) (dg_parts dg) (dg_comps dg)
      = Ok (dg_parts dg', comps)
      /\ Forall2 sorted_of comps (dg_comps dg');
  res_vols : exists comps vols,
      link_parts (dg_disks dg) (dg_parts dg) (dg_comps dg)
      = Ok (dg_parts dg', comps)
      /\ link_comps comps (dg_vols dg) = Ok (dg_comps dg', vols)
      /\ check_vols (dg_name dg) vols = Ok (dg_vols dg')
}.

(** A computation that returns or fails with Invalid. *)
Definition ok_or_invalid {A : Type} (c : result A) : Prop :=
  (exists a, c = Ok a) \/ c = Err LDM_ERROR_INVALID.

(** What a disk record says of the disk, without the device found for it
    and the extents read from its PRIVHEAD. *)
Definition disk_record (disk : LDMDisk) : LDMDisk :=
  mkDisk (disk_id disk) (disk_name disk) (disk_dgname disk) 0 0 0 0
    (disk_guid disk) None.

Definition has_device (disk : LDMDisk) : bool :=
  match disk_device disk with Some _ => true | None => false end.




(** The first disk record with GUID [guid]. *)
Definition disk_with_guid (guid : uuid_t) (disks : list LDMDisk)
  : option LDMDisk :=
  find (fun disk => uuid_equal guid (disk_guid disk)) disks.

(** The group of the registry that [ldm_add_fd] takes for the GUID. *)
Definition group_with_guid (o : LDM) (guid : uuid_t) : option LDMDiskGroup :=
  match ldm_get_disk_groups o with
  | Some disk_groups =>
      match find_group disk_groups guid O None with
      | Some i => nth_error disk_groups i
      | None => None
      end
  | None => None
  end.



(** The partitions whose disk has no device. *)
Definition missing (disks : list LDMDisk) (parts : list LDMPartition)
  : list LDMPartition :=
  filter (fun part => negb (disk_present disks part)) parts.


(** The device and offset a partition contributes to a striped table. *)
Definition stripe_arg (disks : list LDMDisk) (part : LDMPartition) : string :=
  match ldm_partition_get_disk disks part with
  | Some disk =>
      " " +++ fmt_s (disk_device disk) +++ " "
      +++ dec (wrap 64 (disk_data_start disk + part_start part))
  | None => ""
  end.

Definition striped_text (disks : list LDMDisk) (vol : LDMVolume)
    (comp : LDMComponent) : string :=
  "0 " +++ dec (vol_size vol) +++ " striped " +++ dec (comp_n_columns comp)
  +++ " " +++ dec (comp_stripe_size comp)
  +++ cat (map (stripe_arg disks) (comp_parts comp)) +++ nl.







(** The device reads like a file with the bytes [img]: a [pread] inside
    the file returns at least one byte and at most the bytes asked for, a
    [pread] at or after its end returns none. *)
Definition reads_file (fd : Device) (img : list byte) : Prop :=
  forall off n,
    0 <= off -> 0 < n ->
    exists k,
      (k <= Z.to_nat n)%nat
      /\ ((Z.to_nat off < List.length img)%nat -> (0 < k)%nat)
      /\ dev_pread fd off n = Some (firstn k (skipn (Z.to_nat off) img)).

(** [n] bytes of [img] from offset [p]. *)
Definition slice (img : list byte) (p n : Z) : list byte :=
  firstn (Z.to_nat n) (skipn (Z.to_nat p) img).

(** The header fields of a VMDB that [_parse_vblks] reads. *)
Record vmdb_header : Type := mkVmdbHeader {
  h_committed_seq : Z;
  h_n_vols : Z;
  h_n_comps : Z;
  h_n_parts : Z;
  h_n_disks : Z;
  h_vblk_size : Z;
  h_vblk_first_offset : Z
}.

Definition read_vmdb_header (config : mem) (vmdb : Z) : result vmdb_header :=
  seq <- member_be _vmdb config vmdb "committed_seq" ;;
  n_vols <- member_be _vmdb config vmdb "n_committed_vblks_vol" ;;
  n_comps <- member_be _vmdb config vmdb "n_committed_vblks_comp" ;;
  n_parts <- member_be _vmdb config vmdb "n_committed_vblks_part" ;;
  n_disks <- member_be _vmdb config vmdb "n_committed_vblks_disk" ;;
  size <- member_be _vmdb config vmdb "vblk_size" ;;
  first <- member_be _vmdb config vmdb "vblk_first_offset" ;;
  Ok (mkVmdbHeader seq n_vols n_comps n_parts n_disks size first).

(** The VMDB declares no object. *)
Definition declares_nothing (h : vmdb_header) : bool :=
  (h_n_vols h =? 0) && (h_n_comps h =? 0) && (h_n_parts h =? 0)
  && (h_n_disks h =? 0).

(** The type bytes of component and volume records. *)
Definition component_type_code (t : LDMComponentType) : Z :=
  match t with
  | LDM_COMPONENT_TYPE_STRIPED => 1
  | LDM_COMPONENT_TYPE_SPANNED => 2
  | LDM_COMPONENT_TYPE_RAID => 3
  end.



(** [entries_found] of the first record with id [rid], 0 when there is
    none. *)
Definition found_of (rid : list byte) (spanned : list _spanned_rec) : Z :=
  match find (fun r => bytes_eqb (record_id r) rid) spanned with
  | Some r => entries_found r
  | None => 0
  end.

(** The entries of the stream that belong to the spanned record [rid]. *)
Definition entries_of (rid : list byte) (es : list vblk_entry)
  : list vblk_entry :=
  filter (of_record rid) es.

(** The record types and revisions [_parse_vblk] decodes: blank records of
    any revision, volumes of revision 5, components and partitions of
    revision 3, disks and disk groups of revisions 3 and 4. *)
Definition supported_record (type revision : Z) : bool :=
  (type =? 0)
  || ((type =? 1) && (revision =? 5))
  || ((type =? 2) && (revision =? 3))
  || ((type =? 3) && (revision =? 3))
  || ((type =? 4) && ((revision =? 3) || (revision =? 4)))
  || ((type =? 5) && ((revision =? 3) || (revision =? 4))).

(** ** Sample images

    Encoders for the on-disk structures, used to build the concrete disks of
    the examples below. *)
Module Sample.

Fixpoint be_bytes (n : nat) (x : Z) : list byte :=
  match n with
  | O => []
  | S n' => byte_of_Z (Z.shiftr x (8 * Z.of_nat n')) :: be_bytes n' x
  end.

Definition zeros (n : Z) : list byte := repeat x00 (Z.to_nat n).

(** [bs] in a field of [n] bytes, zero padded. *)
Definition field (n : Z) (bs : list byte) : list byte :=
  firstn (Z.to_nat n) (bs ++ zeros n).

Definition str (s : string) : list byte := list_byte_of_string s.

(** A structure from its layout and the members that are not zero. *)
Fixpoint struct (l : layout) (vals : list (string * list byte))
  : list byte :=
  match l with
  | [] => []
  | (f, n) :: l' =>
      let v :=
        match find (fun fv => String.eqb (fst fv) f) vals with
        | Some fv => snd fv
        | None => []
        end in
      field n v ++ struct l' vals
  end.

Definition var_int (n : nat) (x : Z) : list byte :=
  byte_of_Z (Z.of_nat n) :: be_bytes n x.

Definition var_string (s : string) : list byte :=
  byte_of_Z (Z.of_nat (String.length s)) :: str s.

Definition rec_head (flags type : Z) : list byte :=
  struct _vblk_rec_head
    [("flags", [byte_of_Z flags]); ("type", [byte_of_Z type])]%string.

Definition rec_disk_group (id : Z) (name : string) : list byte :=
  rec_head 0 (3 * 16 + 5) ++ var_int 4 id ++ var_string name.

Definition rec_disk (id : Z) (name guid : string) : list byte :=
  rec_head 0 (3 * 16 + 4) ++ var_int 4 id ++ var_string name
  ++ var_string guid.

Definition rec_volume (id : Z) (name : string) (type n_comps size : Z)
  : list byte :=
  rec_head 0 (5 * 16 + 1) ++ var_int 4 id ++ var_string name
  ++ var_string "gen" ++ var_string "" ++ zeros 14 ++ [byte_of_Z type]
  ++ zeros 5 ++ [x00] ++ var_int 4 n_comps ++ zeros 16 ++ var_int 8 size
  ++ zeros 4 ++ [x07] ++ zeros 16.

Definition rec_component (id : Z) (name : string)
    (type n_parts parent_id : Z) (stripe : option (Z * Z)) : list byte :=
  rec_head (match stripe with Some _ => 16 | None => 0 end) (3 * 16 + 2)
  ++ var_int 4 id ++ var_string name ++ var_string "ACTIVE"
  ++ [byte_of_Z type] ++ zeros 4 ++ var_int 4 n_parts ++ zeros 16
  ++ var_int 4 parent_id ++ [x00]
  ++ match stripe with
     | Some (stripe_size, n_columns) =>
         var_int 8 stripe_size ++ var_int 4 n_columns
     | None => []
     end.

Definition rec_partition (id : Z) (name : string)
    (start vol_offset size parent_id disk_id : Z) (index : option Z)
  : list byte :=
  rec_head (match index with Some _ => 8 | None => 0 end) (3 * 16 + 3)
  ++ var_int 4 id ++ var_string name ++ zeros 12 ++ be_bytes 8 start
  ++ be_bytes 8 vol_offset ++ var_int 8 size ++ var_int 4 parent_id
  ++ var_int 4 disk_id
  ++ match index with Some i => var_int 4 i | None => [] end.

Definition vblk_size : Z := 128.

(** One VBLK entry: the header and [vblk_size - 16] bytes of payload. *)
Definition vblk (record_id entry entries_total : Z) (payload : list byte)
  : list byte :=
  struct _vblk_head
    [("magic", str "VBLK"); ("record_id", be_bytes 4 record_id);
     ("entry", be_bytes 2 entry);
     ("entries_total", be_bytes 2 entries_total)]%string
  ++ field (vblk_size - sizeof _vblk_head) payload.

(** A record in a VBLK of its own, numbered [i]. *)
Definition single (i : Z) (rec : list byte) : list byte := vblk i 0 1 rec.

Definition secsize : Z := 512.

(** A config blob of eight sectors: TOCBLOCK in sector 2, whose first
    bitmap is "config" and starts at sector 3; the VMDB there, with the
    VBLK entries a sector further on. *)
Definition config (seq n_vols n_comps n_parts n_disks : Z)
    (vblks : list (list byte)) : list byte :=
  field (8 * secsize)
    (zeros (2 * secsize)
     ++ field secsize
          (struct _tocblock
             [("magic", str "TOCBLOCK");
              ("bitmap",
               struct _tocblock_bitmap
                 [("name", str "config"); ("start", be_bytes 8 3)])
             ]%string)
     ++ field secsize
          (struct _vmdb
             [("magic", str "VMDB"); ("vblk_size", be_bytes 4 vblk_size);
              ("vblk_first_offset", be_bytes 4 secsize);
              ("committed_seq", be_bytes 8 seq);
              ("n_committed_vblks_vol", be_bytes 4 n_vols);
              ("n_committed_vblks_comp", be_bytes 4 n_comps);
              ("n_committed_vblks_part", be_bytes 4 n_parts);
              ("n_committed_vblks_disk", be_bytes 4 n_disks)]%string)
     ++ List.concat vblks).

Definition vmdb_offset : Z := 3 * secsize.

Definition privhead (disk_guid group_guid : string) (data_start : Z)
  : list byte :=
  struct _privhead
    [("magic", str "PRIVHEAD"); ("disk_guid", str disk_guid);
     ("disk_group_guid", str group_guid);
     ("logical_disk_start", be_bytes 8 data_start);
     ("logical_disk_size", be_bytes 8 4096);
     ("ldm_config_start", be_bytes 8 8);
     ("ldm_config_size", be_bytes 8 8)]%string.

(** An MBR disk of sixteen sectors: PRIVHEAD in sector 6, the config blob
    in sectors 8 to 15. *)
Definition image (ph cfg : list byte) : list byte :=
  zeros (6 * secsize) ++ field (2 * secsize) ph ++ cfg.

Definition file (data : list byte) : Device :=
  mkDevice None (inr MBR_PART_WINDOWS_LDM) (fun _ => inl GPT_ERROR_INVALID)
    (Some (mem_len data))
    (fun off count =>
       Some (firstn (Z.to_nat count) (skipn (Z.to_nat off) data))).

Definition guid_dg : string := "00000000-0000-0000-0000-0000000000d9".
Definition guid_d1 : string := "00000000-0000-0000-0000-0000000000d1".
Definition guid_d2 : string := "00000000-0000-0000-0000-0000000000d2".
Definition guid_d3 : string := "00000000-0000-0000-0000-0000000000d3".

(** Scenario S3: volume v1 mirrored over the legs pa (disk d1) and pb
    (disk d2), each a spanned component of one partition. *)
Definition mirror_config (seq : Z) : list byte :=
  config seq 1 2 2 2
    [ single 1 (rec_disk_group 1 "dg1");
      single 2 (rec_disk 1 "d1" guid_d1);
      single 3 (rec_disk 2 "d2" guid_d2);
      single 4 (rec_volume 10 "v1" 3 2 1024);
      single 5 (rec_component 20 "c1" 2 1 10 None);
      single 6 (rec_component 21 "c2" 2 1 10 None);
      single 7 (rec_partition 30 "pa" 256 0 1024 20 1 None);
      single 8 (rec_partition 31 "pb" 256 0 1024 21 2 None) ].

Definition sdb : Device :=
  file (image (privhead guid_d1 guid_dg 128) (mirror_config 7)).
Definition sdc : Device :=
  file (image (privhead guid_d2 guid_dg 128) (mirror_config 7)).
(** A member of the same group whose database is one commit ahead. *)
Definition sdc_stale : Device :=
  file (image (privhead guid_d2 guid_dg 128) (mirror_config 8)).
(** A disk that claims the group but is not among its disk records. *)
Definition sdd : Device :=
  file (image (privhead guid_d3 guid_dg 128) (mirror_config 7)).

Definition add (o : LDM) (fd : Device) (path : string) : LDM :=
  snd (ldm_add_fd LittleEndian o fd secsize path).

(** A spanned volume "my vol" of declared size 4096 over two partitions
    of 1024 sectors on disk d1; neither partition record carries an
    index. *)
Definition spanned_config : list byte :=
  config 7 1 1 2 1
    [ single 1 (rec_disk_group 1 "dg1");
      single 2 (rec_disk 1 "d1" guid_d1);
      single 3 (rec_volume 10 "my vol" 3 1 4096);
      single 4 (rec_component 20 "c1" 2 2 10 None);
      single 5 (rec_partition 30 "p1" 256 0 1024 20 1 None);
      single 6 (rec_partition 31 "p2" 2048 1024 1024 20 1 None) ].

Definition sde : Device :=
  file (image (privhead guid_d1 guid_dg 128) spanned_config).

(** A spanned volume over d1 and d2 whose second partition, on d2, has a
    volume offset that does not continue the first. *)
Definition gap_config : list byte :=
  config 7 1 1 2 2
    [ single 1 (rec_disk_group 1 "dg1");
      single 2 (rec_disk 1 "d1" guid_d1);
      single 3 (rec_disk 2 "d2" guid_d2);
      single 4 (rec_volume 10 "v2" 3 1 2048);
      single 5 (rec_component 20 "c1" 2 2 10 None);
      single 6 (rec_partition 30 "p1" 256 0 1024 20 1 (Some 0));
      single 7 (rec_partition 31 "p2" 256 9999 1024 20 2 (Some 1)) ].

Definition sdf : Device :=
  file (image (privhead guid_d1 guid_dg 128) gap_config).
Definition sdg : Device :=
  file (image (privhead guid_d2 guid_dg 128) gap_config).

(** A group whose only record besides the group itself is a GEN volume
    declaring no component. *)
Definition empty_volume_config : list byte :=
  config 7 1 0 0 0
    [ single 1 (rec_disk_group 1 "dg1");
      single 2 (rec_volume 10 "v0" 3 0 1024) ].

Definition sdh : Device :=
  file (image (privhead guid_d1 guid_dg 128) empty_volume_config).

(** The volumes of the only group of a registry, each with the outcome of
    [ldm_volume_generate_dm_tables]. *)
Definition tables (err : bool) (o : LDM)
  : list (result (list LDMDMTable)) :=
  match o with
  | Some [dg] =>
      map (ldm_volume_generate_dm_tables err (dg_disks dg)) (dg_vols dg)
  | _ => []
  end.

Definition the_group (o : LDM) : LDMDiskGroup :=
  match o with
  | Some (dg :: _) => dg
  | _ => new_disk_group []
  end.

Definition the_volume (o : LDM) : LDMVolume :=
  match dg_vols (the_group o) with
  | vol :: _ => vol
  | [] => mkVolume 0 "" None LDM_VOLUME_TYPE_RAID5 0 0 0 0 [] None None 0
            None
  end.

(** Scenario S3 with both disks added. *)
Definition s3_registry : LDM :=
  add (add ldm_new sdb "/dev/sdb") sdc "/dev/sdc".
Definition s3_disks : list LDMDisk :=
  Eval vm_compute in dg_disks (the_group s3_registry).
Definition s3_volume : LDMVolume :=
  Eval vm_compute in the_volume s3_registry.

Definition pa_table : LDMDMTable :=
  mkTable "ldm_dg1_pa" ("0 1024 linear /dev/sdb 384" +++ nl).
Definition pb_table : LDMDMTable :=
  mkTable "ldm_dg1_pb" ("0 1024 linear /dev/sdc 384" +++ nl).
Definition v1_table : LDMDMTable :=
  mkTable "ldm_dg1_v1"
    ("0 1024 raid raid1 1 128 2 - /dev/mapper/ldm_dg1_pa"
     +++ " - /dev/mapper/ldm_dg1_pb" +++ nl).

(** The registries of the other images, with their disks and volume. *)
Definition sde_registry : LDM := add ldm_new sde "/dev/sde".
Definition sde_disks : list LDMDisk :=
  Eval vm_compute in dg_disks (the_group sde_registry).
Definition sde_volume : LDMVolume :=
  Eval vm_compute in the_volume sde_registry.

Definition gap_registry : LDM :=
  add (add ldm_new sdf "/dev/sdf") sdg "/dev/sdg".
Definition gap_disks : list LDMDisk :=
  Eval vm_compute in dg_disks (the_group gap_registry).
Definition gap_volume : LDMVolume :=
  Eval vm_compute in the_volume gap_registry.

(** The same group with only its first disk added. *)
Definition half_registry : LDM := add ldm_new sdf "/dev/sdf".
Definition half_disks : list LDMDisk :=
  Eval vm_compute in dg_disks (the_group half_registry).

Definition sdh_registry : LDM := add ldm_new sdh "/dev/sdh".
Definition sdh_volume : LDMVolume :=
  Eval vm_compute in the_volume sdh_registry.

Definition first_comp (vol : LDMVolume) : LDMComponent :=
  hd (mkComponent 0 0 "" LDM_COMPONENT_TYPE_RAID 0 [] 0 0) (vol_comps vol).

(** The registry once [sdb] is added, and what the model reads from the
    other disks of the group. *)
Definition sdb_group : LDMDiskGroup :=
  Eval vm_compute in the_group (add ldm_new sdb "/dev/sdb").

Definition uuid_of (s : string) : uuid_t :=
  match uuid_parse (str s) with
  | Some uu => uu
  | None => []
  end.

Definition parsed (host : byte_order) (cfg : list byte) : LDMDiskGroup :=
  match _parse_vblks host cfg vmdb_offset (new_disk_group (uuid_of guid_dg))
  with
  | Ok dg => dg
  | _ => new_disk_group []
  end.

Definition mirror_group : LDMDiskGroup :=
  Eval vm_compute in parsed LittleEndian (mirror_config 7).

Definition spanned_group : LDMDiskGroup :=
  Eval vm_compute in parsed LittleEndian spanned_config.

(** A volume record of more than one payload, carried by the two entries of
    the spanned record 9; [swap] exchanges the two entries in the stream. *)
Definition long_name : string :=
  string_of_list_byte (repeat "a"%byte 100).

Definition long_volume : list byte := rec_volume 10 long_name 3 0 1024.

Definition payload_size : Z := vblk_size - sizeof _vblk_head.

Definition split_config (swap : bool) : list byte :=
  let first :=
    vblk 9 0 2 (firstn (Z.to_nat payload_size) long_volume) in
  let second :=
    vblk 9 1 2 (skipn (Z.to_nat payload_size) long_volume) in
  config 7 1 0 0 0
    (single 1 (rec_disk_group 1 "dg1")
     :: if swap then [second; first] else [first; second]).

(** A small stream: record 9 in two entries of two bytes around an entry of
    another spanned record. *)
Definition head9 (entry : Z) : vblk_head :=
  mkHead (be_bytes 4 9) (be_bytes 2 entry) (be_bytes 2 2).
Definition head7 : vblk_head :=
  mkHead (be_bytes 4 7) (be_bytes 2 0) (be_bytes 2 3).

Definition stream_a : list vblk_entry :=
  [ mkEntry 0 (head9 0) (str "ab"); mkEntry 18 head7 (str "cd");
    mkEntry 36 (head9 1) (str "ef") ].
Definition stream_b : list vblk_entry :=
  [ mkEntry 0 (head9 1) (str "ef"); mkEntry 18 head7 (str "cd");
    mkEntry 36 (head9 0) (str "ab") ].

(** Where the four committed counts of the sample VMDB start: right after
    [committed_seq] and [pending_seq]. *)
Definition committed_counts : Z :=
  vmdb_offset + offsetof _vmdb "pending_seq" + fieldsize _vmdb "pending_seq".

End Sample.
(** ** More sample images *)
Module Example.

(** A device with the bytes of [data] that hands out one byte per read. *)
Definition trickle (data : list byte) : Device :=
  mkDevice None (inr MBR_PART_WINDOWS_LDM) (fun _ => inl GPT_ERROR_INVALID)
    (Some (mem_len data))
    (fun off count => Some (firstn 1 (skipn (Z.to_nat off) data))).

(** The bytes behind [Sample.sdb]. *)
Definition sdb_image : list byte :=
  Sample.image (Sample.privhead Sample.guid_d1 Sample.guid_dg 128)
    (Sample.mirror_config 7).

Definition short_file : list byte := Sample.str "0123456789".








(** A spanned volume over d1 and d2 whose first partition, on d1, does not
    start at volume offset 0; only d1 is added. *)
Definition early_gap_config : list byte :=
  Sample.config 7 1 1 2 2
    [ Sample.single 1 (Sample.rec_disk_group 1 "dg1");
      Sample.single 2 (Sample.rec_disk 1 "d1" Sample.guid_d1);
      Sample.single 3 (Sample.rec_disk 2 "d2" Sample.guid_d2);
      Sample.single 4 (Sample.rec_volume 10 "v2" 3 1 2048);
      Sample.single 5 (Sample.rec_component 20 "c1" 2 2 10 None);
      Sample.single 6 (Sample.rec_partition 30 "p1" 256 5 1024 20 1 (Some 0));
      Sample.single 7
        (Sample.rec_partition 31 "p2" 256 1029 1024 20 2 (Some 1)) ].

Definition early_gap_registry : LDM :=
  Sample.add ldm_new
    (Sample.file
       (Sample.image (Sample.privhead Sample.guid_d1 Sample.guid_dg 128)
          early_gap_config)) "/dev/sdi".
Definition early_gap_disks : list LDMDisk :=
  Eval vm_compute in dg_disks (Sample.the_group early_gap_registry).
Definition early_gap_volume : LDMVolume :=
  Eval vm_compute in Sample.the_volume early_gap_registry.




(** A striped volume of two columns on d1 and d2. *)
Definition striped_config : list byte :=
  Sample.config 7 1 1 2 2
    [ Sample.single 1 (Sample.rec_disk_group 1 "dg1");
      Sample.single 2 (Sample.rec_disk 1 "d1" Sample.guid_d1);
      Sample.single 3 (Sample.rec_disk 2 "d2" Sample.guid_d2);
      Sample.single 4 (Sample.rec_volume 10 "v3" 3 1 2048);
      Sample.single 5 (Sample.rec_component 20 "c1" 1 2 10 (Some (128, 2)));
      Sample.single 6 (Sample.rec_partition 30 "p1" 256 0 1024 20 1 (Some 0));
      Sample.single 7 (Sample.rec_partition 31 "p2" 256 0 1024 20 2 (Some 1))
    ].

Definition striped_disk (guid : string) : Device :=
  Sample.file
    (Sample.image (Sample.privhead guid Sample.guid_dg 128) striped_config).

Definition striped_registry : LDM :=
  Sample.add (Sample.add ldm_new (striped_disk Sample.guid_d1) "/dev/s1")
    (striped_disk Sample.guid_d2) "/dev/s2".
Definition striped_disks : list LDMDisk :=
  Eval vm_compute in dg_disks (Sample.the_group striped_registry).
Definition striped_volume : LDMVolume :=
  Eval vm_compute in Sample.the_volume striped_registry.


(** A database whose VMDB declares nothing and is followed by no VBLK. *)
Definition blank_config : list byte := Sample.config 7 0 0 0 0 [].

(** A draft group whose only partition names disk 9 and component 20,
    which it does not have. *)
Definition dangling : LDMDiskGroup :=
  mkDiskGroup [] 1 (Some "dg1"%string) 7 0 0 1 0 [] []
    [mkPartition 30 20 "p1" 0 0 0 0 9 None] [].



Definition s3_leg (k : nat) : LDMComponent :=
  nth k (vol_comps Sample.s3_volume)
    (mkComponent 0 0 "" LDM_COMPONENT_TYPE_RAID 0 [] 0 0).





(** A disk whose database holds the volume record [Sample.long_volume] in
    the 256 entries of the spanned record 9: the payload of entry [k] is the
    [k]-th slice of the record, which is padded with zeros.  The config
    blob has 80 sectors; [backwards] puts the entries into the stream in
    descending order. *)
Definition wide_volume : list byte := Sample.long_volume.

Definition wide_entry (k : nat) : list byte :=
  Sample.vblk 9 (Z.of_nat k) 256
    (firstn (Z.to_nat Sample.payload_size)
       (skipn (k * Z.to_nat Sample.payload_size) wide_volume)).

Definition wide_config (backwards : bool) : list byte :=
  let entries := map wide_entry (seq 0 256) in
  Sample.field (80 * Sample.secsize)
    (Sample.zeros (2 * Sample.secsize)
     ++ Sample.field Sample.secsize
          (Sample.struct _tocblock
             [("magic", Sample.str "TOCBLOCK");
              ("bitmap",
               Sample.struct _tocblock_bitmap
                 [("name", Sample.str "config");
                  ("start", Sample.be_bytes 8 3)])
             ]%string)
     ++ Sample.field Sample.secsize
          (Sample.struct _vmdb
             [("magic", Sample.str "VMDB");
              ("vblk_size", Sample.be_bytes 4 Sample.vblk_size);
              ("vblk_first_offset", Sample.be_bytes 4 Sample.secsize);
              ("committed_seq", Sample.be_bytes 8 7);
              ("n_committed_vblks_vol", Sample.be_bytes 4 1)]%string)
     ++ List.concat
          (Sample.single 1 (Sample.rec_disk_group 1 "dg1")
           :: if backwards then rev entries else entries)).

Definition wide_privhead : list byte :=
  Sample.struct _privhead
    [("magic", Sample.str "PRIVHEAD");
     ("disk_guid", Sample.str Sample.guid_d1);
     ("disk_group_guid", Sample.str Sample.guid_dg);
     ("logical_disk_start", Sample.be_bytes 8 128);
     ("logical_disk_size", Sample.be_bytes 8 4096);
     ("ldm_config_start", Sample.be_bytes 8 8);
     ("ldm_config_size", Sample.be_bytes 8 80)]%string.

Definition wide_disk (backwards : bool) : Device :=
  Sample.file (Sample.image wide_privhead (wide_config backwards)).

(** The registry a big-endian host builds from it. *)
Definition wide_registry : LDM :=
  Eval vm_compute in
    snd (ldm_add_fd BigEndian ldm_new (wide_disk false) Sample.secsize
           "/dev/sdw").

End Example.

(** * Proofs *)

(** ** The outcome monad *)

Lemma bind_Ok {A B : Type} (c : result A) (k : A -> result B) (b : B) :
  bind c k = Ok b -> exists a, c = Ok a /\ k a = Ok b.
Proof. destruct c; simpl; intros H; try discriminate; eauto. Qed.

Lemma bind_assoc {A B C : Type} (c : result A) (f : A -> result B)
    (g : B -> result C) :
  bind (bind c f) g = bind c (fun a => bind (f a) g).
Proof. destruct c; reflexivity. Qed.

(** Split a hypothesis [bind c k = Ok b] into its two halves. *)
Ltac bind_inv H :=
  let a := fresh "a" in
  let Ha := fresh "H" a in
  apply bind_Ok in H; destruct H as (a & Ha & H).

Lemma append_assoc (s1 s2 s3 : string) :
  (s1 +++ s2) +++ s3 = s1 +++ s2 +++ s3.
Proof. induction s1; simpl; congruence. Qed.

Lemma append_nil_r (s : string) : s +++ "" = s.
Proof. induction s; simpl; congruence. Qed.

(** ** Mirrored volumes (C1) *)

Lemma mirrored_loop_spec (err : bool) (disks : list LDMDisk) :
  forall comps chunks table found chunks' table' found',
    mirrored_loop err disks comps (chunks, table, found)
    = Ok (chunks', table', found') ->
    chunks' = rev (flat_map (leg_table disks) comps) ++ chunks
    /\ table' = table +++ cat (map (leg_slot disks) comps)
    /\ found'
       = found + Z.of_nat (List.length (flat_map (leg_table disks) comps)).
Proof.
  induction comps as [|comp comps IH]; intros chunks table found
    chunks' table' found' H; cbn [mirrored_loop] in H.
  - inversion H; subst. simpl. rewrite append_nil_r. repeat split; try reflexivity; lia.
  - destruct (negb (is_spanned (comp_type comp))
              || negb (Nat.eqb (List.length (comp_parts comp)) 1));
      [discriminate|].
    assert (Hleg : leg_table disks comp =
                   match nth_error (comp_parts comp) 0 with
                   | Some part =>
                       match _generate_dm_table_part disks part with
                       | Ok chunk => [chunk]
                       | _ => []
                       end
                   | None => []
                   end).
    { unfold leg_table. destruct (comp_parts comp); reflexivity. }
    cbn [flat_map map cat fold_right]. unfold leg_slot. rewrite Hleg.
    destruct (nth_error (comp_parts comp) 0) as [part|]; [|discriminate H].
    bind_inv H. destruct a as [[c1 t1] f1].
    apply IH in H. destruct H as (-> & -> & ->).
    unfold leaf_step in Ha.
    destruct (_generate_dm_table_part disks part) as [chunk|e| |];
      try discriminate.
    + inversion Ha; subst. cbn [app rev List.length].
      rewrite <- app_assoc, !append_assoc.
      cbn [app List.length]. repeat split; try reflexivity; lia.
    + destruct e; try discriminate. destruct err; [|discriminate].
      bind_inv Ha. bind_inv Ha.
      inversion Ha; subst. cbn [app List.length].
      rewrite !append_assoc. repeat split; try reflexivity; lia.
Qed.

(** C1, as the code has it: for a GEN volume with several components the generator
    returns the leaf tables of the legs whose disk is present in the reverse
    of the order of the volume's components, followed by the top-level raid1
    table; in scenario S3 this is leg pb, then leg pa, then v1. *)
Theorem mirror_leaves_reversed (err : bool) (disks : list LDMDisk)
    (vol : LDMVolume) (tables : list LDMDMTable) :
  vol_type vol = LDM_VOLUME_TYPE_GEN ->
  (1 < List.length (vol_comps vol))%nat ->
  ldm_volume_generate_dm_tables err disks vol = Ok tables ->
  tables = rev (flat_map (leg_table disks) (vol_comps vol))
           ++ [mkTable (volume_table_name vol) (mirror_text disks vol)].
Proof.
  intros Hty Hlen H. unfold ldm_volume_generate_dm_tables in H.
  rewrite Hty in H. apply Nat.ltb_lt in Hlen. rewrite Hlen in H.
  unfold _generate_dm_tables_mirrored in H.
  bind_inv H. destruct a as [[chunks table] found].
  apply mirrored_loop_spec in Ha. destruct Ha as (-> & -> & ->).
  destruct (_ =? 0); [discriminate|].
  inversion H; subst. rewrite app_nil_r. unfold mirror_text.
  rewrite !append_assoc. reflexivity.
Qed.

(** C1 on scenario S3, from the two disk images: the generator returns
    the leaf of pb first, not that of pa. *)
Lemma s3_tables_order :
  Sample.tables true Sample.s3_registry
  = [Ok [Sample.pb_table; Sample.pa_table; Sample.v1_table]]
  /\ Sample.tables true Sample.s3_registry
     <> [Ok [Sample.pa_table; Sample.pb_table; Sample.v1_table]].
Proof. split; [vm_compute; reflexivity | vm_compute; discriminate]. Qed.

Lemma mirror_leaves_reversed_witness :
  vol_type Sample.s3_volume = LDM_VOLUME_TYPE_GEN
  /\ (1 < List.length (vol_comps Sample.s3_volume))%nat
  /\ ldm_volume_generate_dm_tables true Sample.s3_disks Sample.s3_volume
     = Ok [Sample.pb_table; Sample.pa_table; Sample.v1_table]
  /\ [Sample.pb_table; Sample.pa_table; Sample.v1_table]
     = rev (flat_map (leg_table Sample.s3_disks)
              (vol_comps Sample.s3_volume))
       ++ [mkTable (volume_table_name Sample.s3_volume)
             (mirror_text Sample.s3_disks Sample.s3_volume)].
Proof.
  assert (H1 : vol_type Sample.s3_volume = LDM_VOLUME_TYPE_GEN)
    by reflexivity.
  assert (H2 : (1 < List.length (vol_comps Sample.s3_volume))%nat)
    by (simpl; lia).
  assert (H3 : ldm_volume_generate_dm_tables true Sample.s3_disks
                 Sample.s3_volume
               = Ok [Sample.pb_table; Sample.pa_table; Sample.v1_table])
    by (vm_compute; reflexivity).
  exact (conj H1 (conj H2 (conj H3
           (mirror_leaves_reversed true _ _ _ H1 H2 H3)))).
Defined.

(** ** Table names (C2) *)

Lemma leaf_table_name_escaped (disks : list LDMDisk) (part : LDMPartition)
    (chunk : LDMDMTable) :
  _generate_dm_table_part disks part = Ok chunk ->
  exists disk,
    part_disk_priv disks part = Ok disk
    /\ table_name chunk
       = escaped_table_name (disk_dgname disk) (part_name part).
Proof.
  unfold _generate_dm_table_part. intros H. bind_inv H.
  exists a. split; [assumption|].
  destruct (disk_device a); [|discriminate].
  inversion H; subst. reflexivity.
Qed.

Lemma raid5_loop_chunks (err : bool) (disks : list LDMDisk) :
  forall parts chunks table found chunks' table' found',
    raid5_loop err disks parts (chunks, table, found)
    = Ok (chunks', table', found') ->
    exists leaves, chunks' = leaves ++ chunks.
Proof.
  induction parts as [|part parts IH]; intros chunks table found
    chunks' table' found' H; cbn [raid5_loop] in H.
  - inversion H; subst. exists []. reflexivity.
  - bind_inv H. destruct a as [[c1 t1] f1].
    apply IH in H. destruct H as (leaves & ->).
    unfold leaf_step in Ha.
    destruct (_generate_dm_table_part disks part) as [chunk|e| |];
      try discriminate.
    + inversion Ha; subst. exists (leaves ++ [chunk]).
      rewrite <- app_assoc. reflexivity.
    + destruct e; try discriminate. destruct err; [|discriminate].
      bind_inv Ha. bind_inv Ha.
      inversion Ha; subst. exists leaves. reflexivity.
Qed.

(** Whatever the shape of the volume, the last table of a successful call
    is the top-level one and its name is printed from the volume's group
    name and name as they are. *)
Lemma top_table_name (err : bool) (disks : list LDMDisk) (vol : LDMVolume)
    (tables : list LDMDMTable) :
  ldm_volume_generate_dm_tables err disks vol = Ok tables ->
  exists leaves top,
    tables = leaves ++ [top] /\ table_name top = volume_table_name vol.
Proof.
  unfold ldm_volume_generate_dm_tables. intros H.
  destruct (vol_type vol).
  - destruct (1 <? List.length (vol_comps vol))%nat.
    + unfold _generate_dm_tables_mirrored in H. bind_inv H.
      destruct a as [[chunks table] found].
      destruct (found =? 0); [discriminate|]. inversion H; subst.
      eexists _, _. split; reflexivity.
    + destruct (nth_error (vol_comps vol) 0) as [comp|]; [|discriminate].
      destruct (comp_type comp); try discriminate.
      * unfold _generate_dm_tables_striped in H. bind_inv H.
        inversion H; subst. exists [], (mkTable (volume_table_name vol) (a +++ nl)).
        split; reflexivity.
      * unfold _generate_dm_tables_spanned in H. bind_inv H.
        inversion H; subst. eexists [], _. split; reflexivity.
  - unfold _generate_dm_tables_raid5 in H.
    destruct (negb (Nat.eqb (List.length (vol_comps vol)) 1));
      [discriminate|].
    destruct (nth_error (vol_comps vol) 0) as [comp|]; [|discriminate].
    destruct (negb (is_raid (comp_type comp))); [discriminate|].
    bind_inv H. destruct a as [[chunks table] found].
    destruct (_ <? _); [discriminate|]. inversion H; subst.
    eexists _, _. split; reflexivity.
Qed.

(** C2, the code at the failing input: the disk image [sde] holds a GEN
    volume named "my vol" in group dg1; its table is named with the space
    left in, where the escaped template gives "ldm_dg1_my%20vol". *)
Theorem volume_table_name_unescaped :
  Sample.tables true (Sample.add ldm_new Sample.sde "/dev/sde")
  = [Ok [mkTable "ldm_dg1_my vol"
           ("0 1024 linear /dev/sde 384" +++ nl
            +++ "1024 2048 linear /dev/sde 2176" +++ nl)]]
  /\ escaped_table_name (Some "dg1"%string) "my vol" = "ldm_dg1_my%20vol"%string.
Proof. split; vm_compute; reflexivity. Qed.

(** ** Spanned volumes (C3) *)

Lemma wrap64_add_l (a b : Z) : wrap 64 (wrap 64 a + b) = wrap 64 (a + b).
Proof. unfold wrap. apply Z.add_mod_idemp_l. discriminate. Qed.

Lemma wrap64_idem (a : Z) : wrap 64 (wrap 64 a) = wrap 64 a.
Proof. unfold wrap. apply Z.mod_mod. discriminate. Qed.

Lemma spanned_loop_spec (disks : list LDMDisk) :
  forall parts pos segs,
    spanned_loop disks parts pos = Ok segs ->
    contiguous_from pos segs
    /\ segments_end pos segs
       = fold_left (fun p part => wrap 64 (p + part_size part)) parts pos
    /\ Forall (fun part => disk_present disks part = true) parts
    /\ map seg_pos segs = map part_vol_offset parts.
Proof.
  induction parts as [|part parts IH]; intros pos segs H;
    cbn [spanned_loop] in H.
  - inversion H; subst. simpl. auto.
  - bind_inv H. destruct (disk_device a) as [device|] eqn:Hdev;
      [|discriminate].
    destruct (pos =? part_vol_offset part) eqn:Hpos; [|discriminate].
    cbn [negb] in H. bind_inv H. inversion H; subst.
    apply IH in Ha0. destruct Ha0 as (Hc & He & Hp & Hm).
    apply Z.eqb_eq in Hpos.
    cbn [contiguous_from segments_end seg_pos seg_end fold_left map].
    repeat split; try assumption.
    + constructor; [|assumption]. unfold disk_present.
      rewrite Ha, Hdev. reflexivity.
    + congruence.
Qed.

Lemma fold_wrap_total (parts : list LDMPartition) :
  forall pos,
    fold_left (fun p part => wrap 64 (p + part_size part)) parts (wrap 64 pos)
    = wrap 64 (pos + total_size parts).
Proof.
  induction parts as [|part parts IH]; intros pos; simpl.
  - rewrite Z.add_0_r. reflexivity.
  - rewrite wrap64_add_l, IH. f_equal. lia.
Qed.

Lemma running_pos_fold (parts : list LDMPartition) :
  fold_left (fun p part => wrap 64 (p + part_size part)) parts 0
  = wrap 64 (total_size parts).
Proof. exact (fold_wrap_total parts 0). Qed.

Lemma spanned_loop_invalid (disks : list LDMDisk) :
  forall parts pos k part,
    nth_error parts k = Some part ->
    Forall (fun q => disk_present disks q = true) (firstn (S k) parts) ->
    part_vol_offset part
    <> fold_left (fun p q => wrap 64 (p + part_size q)) (firstn k parts) pos ->
    spanned_loop disks parts pos = Err LDM_ERROR_INVALID.
Proof.
  induction parts as [|q parts IH]; intros pos k part Hk Hall Hne.
  - destruct k; discriminate.
  - cbn [firstn] in Hall. inversion Hall as [|? ? Hp Hall']; subst.
    unfold disk_present in Hp. cbn [spanned_loop].
    destruct (part_disk_priv disks q) as [disk| | |]; try discriminate.
    cbn [bind]. destruct (disk_device disk); [|discriminate].
    destruct (pos =? part_vol_offset q) eqn:Hpos; [|reflexivity].
    cbn [negb]. apply Z.eqb_eq in Hpos.
    destruct k as [|k].
    + simpl in Hk, Hne. inversion Hk; subst. congruence.
    + simpl in Hk, Hne. rewrite (IH _ k part Hk Hall' Hne). reflexivity.
Qed.

(** C3, as the code has it: for a GEN volume with a single SPANNED component, a
    successful call emits one table whose segments follow one another from 0;
    they end at the sum of the partition sizes modulo 2^64, which the code
    never compares with the size of the volume; every partition's volume
    offset is the position at which its segment starts.  When some
    partition's volume offset differs from the running position, and the
    disks of this partition and of the partitions before it are present,
    the call fails with Invalid, whatever follows the partition. *)
Theorem spanned_table_contiguous (err : bool) (disks : list LDMDisk)
    (vol : LDMVolume) (comp : LDMComponent) :
  vol_type vol = LDM_VOLUME_TYPE_GEN ->
  vol_comps vol = [comp] ->
  comp_type comp = LDM_COMPONENT_TYPE_SPANNED ->
  (forall tables,
      ldm_volume_generate_dm_tables err disks vol = Ok tables ->
      exists segs,
        tables = [mkTable (volume_table_name vol)
                    (cat (map print_segment segs))]
        /\ contiguous_from 0 segs
        /\ segments_end 0 segs = wrap 64 (total_size (comp_parts comp))
        /\ map seg_pos segs = map part_vol_offset (comp_parts comp))
  /\ (forall k part,
        nth_error (comp_parts comp) k = Some part ->
        Forall (fun q => disk_present disks q = true)
          (firstn (S k) (comp_parts comp)) ->
        part_vol_offset part <> running_pos (comp_parts comp) k ->
        ldm_volume_generate_dm_tables err disks vol = Err LDM_ERROR_INVALID).
Proof.
  intros Hty Hcomps Hsp. unfold ldm_volume_generate_dm_tables.
  rewrite Hty, Hcomps. cbn [List.length Nat.ltb Nat.leb nth_error].
  rewrite Hsp. unfold _generate_dm_tables_spanned. split.
  - intros tables H. bind_inv H. inversion H; subst. exists a.
    apply spanned_loop_spec in Ha. destruct Ha as (Hc & He & _ & Hm).
    repeat split; try assumption.
    rewrite He. apply running_pos_fold.
  - intros k part Hk Hall Hne.
    rewrite (spanned_loop_invalid disks (comp_parts comp) 0 k part Hk Hall);
      [reflexivity|].
    unfold running_pos in Hne. rewrite <- running_pos_fold in Hne.
    exact Hne.
Qed.

(** C3 on the image [sde] (volume size 4096, two partitions of 1024: the
    segments end at 2048) and on the image [sdf] (second partition
    misplaced, on a disk that was not added: MissingDisk). *)
Lemma spanned_total_counterexample :
  (Sample.sde_disks = dg_disks (Sample.the_group Sample.sde_registry)
   /\ Sample.sde_volume = Sample.the_volume Sample.sde_registry
   /\ Sample.half_disks = dg_disks (Sample.the_group Sample.half_registry)
   /\ Sample.gap_volume = Sample.the_volume Sample.half_registry)
  /\ (exists segs,
        ldm_volume_generate_dm_tables true Sample.sde_disks Sample.sde_volume
        = Ok [mkTable (volume_table_name Sample.sde_volume)
                (cat (map print_segment segs))]
        /\ vol_type Sample.sde_volume = LDM_VOLUME_TYPE_GEN
        /\ map comp_type (vol_comps Sample.sde_volume)
           = [LDM_COMPONENT_TYPE_SPANNED]
        /\ contiguous_from 0 segs
        /\ segments_end 0 segs = 2048
        /\ vol_size Sample.sde_volume = 4096
        /\ segments_end 0 segs <> vol_size Sample.sde_volume)
  /\ (ldm_volume_generate_dm_tables true Sample.half_disks Sample.gap_volume
      = Err LDM_ERROR_MISSING_DISK
      /\ ldm_volume_generate_dm_tables true Sample.half_disks
           Sample.gap_volume <> Err LDM_ERROR_INVALID
      /\ map (fun comp => map part_vol_offset (comp_parts comp))
           (vol_comps Sample.gap_volume) = [[0; 9999]]
      /\ map (fun comp => running_pos (comp_parts comp) 1)
           (vol_comps Sample.gap_volume) = [1024]).
Proof.
  split; [|split].
  - repeat split; vm_compute; reflexivity.
  - exists [mkSegment 0 1024 "/dev/sde" 384;
            mkSegment 1024 2048 "/dev/sde" 2176].
    vm_compute. repeat split; try reflexivity. discriminate.
  - vm_compute. repeat split; try reflexivity. discriminate.
Qed.

Lemma spanned_table_contiguous_witness :
  (exists segs,
      ldm_volume_generate_dm_tables true Sample.sde_disks Sample.sde_volume
      = Ok [mkTable (volume_table_name Sample.sde_volume)
              (cat (map print_segment segs))]
      /\ contiguous_from 0 segs
      /\ segments_end 0 segs = 2048)
  /\ ldm_volume_generate_dm_tables true Sample.gap_disks Sample.gap_volume
     = Err LDM_ERROR_INVALID
  /\ (map (disk_present Example.early_gap_disks)
         (comp_parts (Sample.first_comp Example.early_gap_volume))
       = [true; false]
       /\ ldm_volume_generate_dm_tables true Example.early_gap_disks
            Example.early_gap_volume
          = Err LDM_ERROR_INVALID).
Proof.
  split; [|split].
  - destruct (spanned_table_contiguous true Sample.sde_disks
                Sample.sde_volume (Sample.first_comp Sample.sde_volume)
                eq_refl eq_refl eq_refl) as [HA _].
    assert (H : ldm_volume_generate_dm_tables true Sample.sde_disks
                  Sample.sde_volume
                = Ok [mkTable "ldm_dg1_my vol"
                        ("0 1024 linear /dev/sde 384" +++ nl
                         +++ "1024 2048 linear /dev/sde 2176" +++ nl)])
      by (vm_compute; reflexivity).
    destruct (HA _ H) as (segs & Ht & Hc & He & _).
    exists segs. split; [rewrite H; f_equal; exact Ht|].
    split; [exact Hc|]. rewrite He. vm_compute. reflexivity.
  - destruct (spanned_table_contiguous true Sample.gap_disks
                Sample.gap_volume (Sample.first_comp Sample.gap_volume)
                eq_refl eq_refl eq_refl) as [_ HB].
    apply (HB 1%nat (mkPartition 31 20 "p2" 256 9999 1024 1 2 (Some 1%nat))).
    + reflexivity.
    + apply Forall_cons; [reflexivity|].
      apply Forall_cons; [reflexivity|apply Forall_nil].
    + vm_compute. discriminate.
  - split; [reflexivity|].
    destruct (spanned_table_contiguous true Example.early_gap_disks
                Example.early_gap_volume
                (Sample.first_comp Example.early_gap_volume)
                eq_refl eq_refl eq_refl) as [_ HB].
    apply (HB 0%nat (mkPartition 30 20 "p1" 256 5 1024 0 1 (Some 0%nat))).
    + reflexivity.
    + apply Forall_cons; [reflexivity|apply Forall_nil].
    + vm_compute. discriminate.
Defined.

(** ** A GEN volume without components (C9) *)

Lemma gen_without_components (err : bool) (disks : list LDMDisk)
    (vol : LDMVolume) :
  vol_type vol = LDM_VOLUME_TYPE_GEN ->
  vol_comps vol = [] ->
  ldm_volume_generate_dm_tables err disks vol = Fault.
Proof.
  intros Hty Hc. unfold ldm_volume_generate_dm_tables.
  rewrite Hty, Hc. reflexivity.
Qed.

(** C9: the image [sdh] carries a GEN volume that declares no component.
    Adding the disk succeeds, the volume resolves with an empty component
    list, and the generator indexes element 0 of that list: the call is an
    out-of-bounds read, not an error. *)
Theorem gen_empty_components_reachable :
  forall host : byte_order,
    ldm_add_fd host ldm_new Sample.sdh Sample.secsize "/dev/sdh"
    = (Ok tt, Sample.sdh_registry)
    /\ (exists dg,
          Sample.sdh_registry = Some [dg]
          /\ dg_vols dg = [Sample.sdh_volume])
    /\ vol_type Sample.sdh_volume = LDM_VOLUME_TYPE_GEN
    /\ vol_n_comps Sample.sdh_volume = 0
    /\ vol_comps Sample.sdh_volume = []
    /\ forall (err : bool) (disks : list LDMDisk),
         ldm_volume_generate_dm_tables err disks Sample.sdh_volume = Fault.
Proof.
  intros host. split; [destruct host; vm_compute; reflexivity|].
  split; [eexists; split; vm_compute; reflexivity|].
  do 3 (split; [reflexivity|]).
  intros err disks. apply gen_without_components; reflexivity.
Qed.

(** ** The registry (C4, C10) *)

Lemma bytes_eqb_eq (a b : list byte) : bytes_eqb a b = true <-> a = b.
Proof.
  unfold bytes_eqb. destruct (list_eq_dec Byte.byte_eq_dec a b); split;
    intros; congruence.
Qed.

Lemma uuid_equal_eq (a b : uuid_t) : uuid_equal a b = true <-> a = b.
Proof. apply bytes_eqb_eq. Qed.

Lemma uuid_equal_refl (a : uuid_t) : uuid_equal a a = true.
Proof. apply uuid_equal_eq. reflexivity. Qed.

Lemma find_group_acc (guid : uuid_t) :
  forall disk_groups i acc k,
    find_group disk_groups guid i acc = Some k ->
    acc = Some k
    \/ exists dg,
        (i <= k)%nat /\ nth_error disk_groups (k - i) = Some dg
        /\ dg_guid dg = guid.
Proof.
  induction disk_groups as [|c rest IH]; intros i acc k H; simpl in H.
  - left. assumption.
  - apply IH in H. destruct H as [H | (dg & Hle & Hnth & Hg)].
    + destruct (uuid_equal guid (dg_guid c)) eqn:Heq; [|left; assumption].
      right. inversion H; subst. exists c. rewrite Nat.sub_diag.
      apply uuid_equal_eq in Heq. repeat split; auto.
    + right. exists dg. split; [lia|]. split; [|assumption].
      replace (k - i)%nat with (S (k - S i)) by lia. exact Hnth.
Qed.

(** The group the lookup returns has the GUID looked up. *)
Lemma find_group_Some (disk_groups : list LDMDiskGroup) (guid : uuid_t)
    (k : nat) :
  find_group disk_groups guid O None = Some k ->
  exists dg, nth_error disk_groups k = Some dg /\ dg_guid dg = guid.
Proof.
  intros H. apply find_group_acc in H.
  destruct H as [H | (dg & _ & Hnth & Hg)]; [discriminate|].
  rewrite Nat.sub_0_r in Hnth. eauto.
Qed.

Lemma find_group_found (guid : uuid_t) :
  forall disk_groups i acc,
    (acc <> None \/ exists dg, In dg disk_groups /\ dg_guid dg = guid) ->
    find_group disk_groups guid i acc <> None.
Proof.
  induction disk_groups as [|c rest IH]; intros i acc H; simpl.
  - destruct H as [H | (dg & [] & _)]. assumption.
  - apply IH. destruct H as [H | (dg & [-> | Hin] & Hg)].
    + left. destruct (uuid_equal guid (dg_guid c)); [discriminate|assumption].
    + left. subst guid. rewrite uuid_equal_refl. discriminate.
    + right. eauto.
Qed.

(** A group with the GUID looked up is found. *)
Lemma find_group_In (disk_groups : list LDMDiskGroup) (dg : LDMDiskGroup) :
  In dg disk_groups ->
  find_group disk_groups (dg_guid dg) O None <> None.
Proof. intros H. apply find_group_found. right. eauto. Qed.


Lemma set_disk_device_unknown (guid : uuid_t) (path : string)
    (privhead : mem) :
  forall disks n,
    (n <= List.length disks)%nat ->
    Forall (fun disk => uuid_equal guid (disk_guid disk) = false) disks ->
    set_disk_device n disks guid path privhead = Ok disks.
Proof.
  induction disks as [|disk disks IH]; intros n Hn Hall.
  - destruct n; [reflexivity|simpl in Hn; lia].
  - destruct n as [|n]; [reflexivity|]. inversion Hall; subst.
    cbn [set_disk_device]. rewrite H1, IH; [reflexivity| |assumption].
    simpl in Hn. lia.
Qed.

Lemma list_set_same {A : Type} (l : list A) :
  forall i x, nth_error l i = Some x -> list_set l i x = l.
Proof.
  induction l as [|y l IH]; intros i x H; destruct i; simpl in *;
    try discriminate.
  - congruence.
  - rewrite IH; auto.
Qed.

Lemma set_dg_disks_same (dg : LDMDiskGroup) : set_dg_disks dg (dg_disks dg) = dg.
Proof. destruct dg; reflexivity. Qed.

(** C10: when the disk reads as a member of a group of the registry with
    the group's committed sequence, and no disk record of the group has the
    disk GUID of its PRIVHEAD, [ldm_add_fd] returns success and the registry
    it was given: no disk record gets a device or extents. *)
Theorem add_unknown_disk (host : byte_order)
    (disk_groups : list LDMDiskGroup) (fd : Device) (secsize : Z)
    (path : string) (privhead config : mem) (vmdb : Z)
    (guid group_guid : uuid_t) (i : nat) (dg : LDMDiskGroup) :
  reads_as fd secsize privhead config vmdb guid group_guid ->
  find_group disk_groups group_guid O None = Some i ->
  nth_error disk_groups i = Some dg ->
  member_be _vmdb config vmdb "committed_seq" = Ok (dg_sequence dg) ->
  dg_n_disks dg = Z.of_nat (List.length (dg_disks dg)) ->
  Forall (fun disk => uuid_equal guid (disk_guid disk) = false)
    (dg_disks dg) ->
  ldm_add_fd host (Some disk_groups) fd secsize path
  = (Ok tt, Some disk_groups).
Proof.
  intros (Hph & Hcfg & Hvmdb & Hguid & Hgg) Hfind Hnth Hseq Hn Hall.
  unfold ldm_add_fd. rewrite Hph. cbn [try]. rewrite Hcfg. cbn [try].
  rewrite Hvmdb. cbn [try]. rewrite Hguid. cbn [try]. rewrite Hgg.
  cbn [try]. rewrite Hfind, Hnth, Hseq. cbn [try].
  rewrite Z.eqb_refl. cbn [negb].
  rewrite set_disk_device_unknown; [|rewrite Hn; lia|assumption].
  cbn [try]. rewrite set_dg_disks_same, list_set_same; auto.
Qed.


Lemma add_unknown_disk_witness :
  ldm_add_fd LittleEndian (Some [Sample.sdb_group]) Sample.sdd
    Sample.secsize "/dev/sdd"
  = (Ok tt, Some [Sample.sdb_group]).
Proof.
  apply (add_unknown_disk LittleEndian [Sample.sdb_group] Sample.sdd
           Sample.secsize "/dev/sdd"
           (Sample.privhead Sample.guid_d3 Sample.guid_dg 128)
           (Sample.mirror_config 7) Sample.vmdb_offset
           (Sample.uuid_of Sample.guid_d3) (Sample.uuid_of Sample.guid_dg)
           O Sample.sdb_group).
  - unfold reads_as.
    split; [vm_compute; reflexivity|]. split; [vm_compute; reflexivity|].
    split; [vm_compute; reflexivity|]. split; vm_compute; reflexivity.
  - vm_compute; reflexivity.
  - reflexivity.
  - vm_compute; reflexivity.
  - vm_compute; reflexivity.
  - apply Forall_cons; [vm_compute; reflexivity|].
    apply Forall_cons; [vm_compute; reflexivity|]. apply Forall_nil.
Defined.

(** ** What parsing leaves in the group header (C8) *)

Lemma same_header_refl (dg : LDMDiskGroup) : same_header dg dg.
Proof. unfold same_header. auto 7. Qed.

Lemma same_header_trans (a b c : LDMDiskGroup) :
  same_header a b -> same_header b c -> same_header a c.
Proof. unfold same_header. intuition congruence. Qed.

Ltac header_done :=
  match goal with
  | H : Ok _ = Ok _ |- _ => inversion H; subst; clear H
  end;
  unfold same_header; simpl; auto 7.

Lemma _parse_vblk_header (m : mem) (data : Z) (dg dg' : LDMDiskGroup) :
  _parse_vblk m data dg = Ok dg' -> same_header dg dg'.
Proof.
  unfold _parse_vblk. intros H. bind_inv H.
  repeat match type of H with
         | (if ?c then _ else _) = _ => destruct c
         end; try discriminate.
  - header_done.
  - bind_inv H. bind_inv H. header_done.
  - bind_inv H. bind_inv H. header_done.
  - bind_inv H. bind_inv H. header_done.
  - bind_inv H. bind_inv H. header_done.
  - bind_inv H. unfold _parse_vblk_disk_group in H.
    destruct (_ && _); [discriminate|].
    bind_inv H. destruct a1. bind_inv H. destruct a1. header_done.
Qed.

Lemma spanned_finish_header :
  forall spanned dg dg',
    spanned_finish spanned dg = Ok dg' -> same_header dg dg'.
Proof.
  induction spanned as [|rec rest IH]; intros dg dg' H; simpl in H.
  - inversion H. apply same_header_refl.
  - destruct (negb _); [discriminate|]. bind_inv H.
    eapply same_header_trans; [eapply _parse_vblk_header|]; eauto.
Qed.

Lemma vblk_loop_header (host : byte_order) (config : mem) (ds : Z) :
  forall fuel vblk dg spanned dg' spanned',
    vblk_loop host fuel config ds vblk dg spanned = Ok (dg', spanned') ->
    same_header dg dg'.
Proof.
  induction fuel as [|fuel IH]; intros vblk dg spanned dg' spanned' H;
    cbn [vblk_loop] in H; [discriminate|].
  bind_inv H. destruct (negb a).
  { inversion H. apply same_header_refl. }
  bind_inv H. destruct (_ && _); [discriminate|].
  destruct (_ >? 1).
  - bind_inv H. bind_inv H. eauto.
  - bind_inv H. eapply same_header_trans; [eapply _parse_vblk_header|];
      eauto.
Qed.

Lemma resolve_header (dg dg' : LDMDiskGroup) :
  resolve dg = Ok dg' ->
  same_header dg dg'
  /\ dg_n_disks dg' = Z.of_nat (List.length (dg_disks dg')).
Proof.
  unfold resolve. intros H.
  destruct (Z.of_nat (List.length (dg_disks dg)) =? dg_n_disks dg) eqn:Hd;
    [|discriminate].
  repeat match type of H with
         | (if ?c then _ else _) = _ => destruct c
         end; try discriminate.
  bind_inv H. destruct a. bind_inv H. destruct a. bind_inv H.
  inversion H; subst. split; [unfold same_header; simpl; auto 7|].
  simpl. rewrite length_map. apply Z.eqb_eq in Hd. lia.
Qed.

(** What [_parse_vblks] leaves in the header of the group it returns. *)
Lemma _parse_vblks_header (host : byte_order) (config : mem) (vmdb : Z)
    (dg0 dg : LDMDiskGroup) :
  _parse_vblks host config vmdb dg0 = Ok dg ->
  dg_guid dg = dg_guid dg0
  /\ member_be _vmdb config vmdb "committed_seq" = Ok (dg_sequence dg)
  /\ member_be _vmdb config vmdb "n_committed_vblks_disk"
     = Ok (dg_n_disks dg)
  /\ member_be _vmdb config vmdb "n_committed_vblks_comp"
     = Ok (dg_n_comps dg)
  /\ member_be _vmdb config vmdb "n_committed_vblks_part"
     = Ok (dg_n_parts dg)
  /\ member_be _vmdb config vmdb "n_committed_vblks_vol" = Ok (dg_n_vols dg)
  /\ dg_n_disks dg = Z.of_nat (List.length (dg_disks dg)).
Proof.
  unfold _parse_vblks. intros H.
  bind_inv H. bind_inv H. bind_inv H. bind_inv H. bind_inv H. bind_inv H.
  bind_inv H. bind_inv H. destruct a6 as [dg1 spanned]. bind_inv H.
  apply vblk_loop_header in Ha6. apply spanned_finish_header in Ha7.
  apply resolve_header in H. destruct H as [H Hlen].
  pose proof (same_header_trans _ _ _ (same_header_trans _ _ _ Ha6 Ha7) H)
    as (Hg & Hs & Hnd & Hnc & Hnp & Hnv).
  simpl in *. rewrite Ha, Ha0, Ha1, Ha2, Ha3.
  repeat split; congruence.
Qed.

(** C8, as the code has it: of the four committed-count fields that follow
    [committed_seq] and [pending_seq] in the VMDB, the parser takes the
    volume count from the first, the component count from the second, the
    partition count from the third and the disk count from the fourth. *)
Theorem vmdb_count_order (host : byte_order) (config : mem) (vmdb : Z)
    (dg0 dg : LDMDiskGroup) :
  _parse_vblks host config vmdb dg0 = Ok dg ->
  let counts :=
    vmdb + offsetof _vmdb "pending_seq" + fieldsize _vmdb "pending_seq" in
  load_be config counts 4 = Ok (dg_n_vols dg)
  /\ load_be config (counts + 4) 4 = Ok (dg_n_comps dg)
  /\ load_be config (counts + 8) 4 = Ok (dg_n_parts dg)
  /\ load_be config (counts + 12) 4 = Ok (dg_n_disks dg).
Proof.
  intros H counts. apply _parse_vblks_header in H.
  destruct H as (_ & _ & Hd & Hc & Hp & Hv & _).
  unfold member_be, member in Hd, Hc, Hp, Hv.
  change (fieldsize _vmdb _) with 4 in Hd, Hc, Hp, Hv.
  change (offsetof _vmdb "n_committed_vblks_vol") with 133 in Hv.
  change (offsetof _vmdb "n_committed_vblks_comp") with 137 in Hc.
  change (offsetof _vmdb "n_committed_vblks_part") with 141 in Hp.
  change (offsetof _vmdb "n_committed_vblks_disk") with 145 in Hd.
  subst counts. change (offsetof _vmdb "pending_seq") with 125.
  change (fieldsize _vmdb "pending_seq") with 8. unfold load_be.
  replace (vmdb + 125 + 8) with (vmdb + 133) by lia.
  replace (vmdb + 133 + 4) with (vmdb + 137) by lia.
  replace (vmdb + 133 + 8) with (vmdb + 141) by lia.
  replace (vmdb + 133 + 12) with (vmdb + 145) by lia.
  auto.
Qed.

(** C8 on the image of scenario S3: the first committed count is 1 (one
    volume), and the group the parser builds from it expects two disks. *)
Lemma vmdb_first_count_counterexample :
  load_be (Sample.mirror_config 7) Sample.committed_counts 4 = Ok 1
  /\ load_be (Sample.mirror_config 7) (Sample.committed_counts + 12) 4 = Ok 2
  /\ _parse_vblks LittleEndian (Sample.mirror_config 7) Sample.vmdb_offset
       (new_disk_group (Sample.uuid_of Sample.guid_dg))
     = Ok Sample.mirror_group
  /\ dg_n_disks Sample.mirror_group = 2
  /\ List.length (dg_disks Sample.mirror_group) = 2%nat
  /\ dg_n_vols Sample.mirror_group = 1
  /\ List.length (dg_vols Sample.mirror_group) = 1%nat
  /\ load_be (Sample.mirror_config 7) Sample.committed_counts 4
     <> Ok (dg_n_disks Sample.mirror_group).
Proof.
  do 7 (split; [vm_compute; reflexivity|]).
  vm_compute. discriminate.
Qed.

Lemma vmdb_count_order_witness :
  load_be (Sample.mirror_config 7) Sample.committed_counts 4
  = Ok (dg_n_vols Sample.mirror_group)
  /\ load_be (Sample.mirror_config 7) (Sample.committed_counts + 4) 4
     = Ok (dg_n_comps Sample.mirror_group)
  /\ load_be (Sample.mirror_config 7) (Sample.committed_counts + 8) 4
     = Ok (dg_n_parts Sample.mirror_group)
  /\ load_be (Sample.mirror_config 7) (Sample.committed_counts + 12) 4
     = Ok (dg_n_disks Sample.mirror_group).
Proof.
  apply (vmdb_count_order LittleEndian (Sample.mirror_config 7)
           Sample.vmdb_offset
           (new_disk_group (Sample.uuid_of Sample.guid_dg))
           Sample.mirror_group).
  vm_compute. reflexivity.
Defined.

(** ** Order of a component's partitions (C7) *)

Lemma _cmp_component_parts_le (a b : LDMPartition) :
  (_cmp_component_parts a b <=? 0) = true <-> index_le a b.
Proof.
  unfold _cmp_component_parts, index_le.
  destruct (part_index a <? part_index b) eqn:Hlt.
  - apply Z.ltb_lt in Hlt. split; [lia|reflexivity].
  - apply Z.ltb_ge in Hlt.
    destruct (part_index a >? part_index b) eqn:Hgt.
    + apply Z.gtb_lt in Hgt. split; [discriminate|lia].
    + split; [|reflexivity]. intros _.
      destruct (Z.gtb_spec (part_index a) (part_index b)); [discriminate|lia].
Qed.

Lemma sort_insert_HdRel (a x : LDMPartition) (l : list LDMPartition) :
  index_le a x -> HdRel index_le a l ->
  HdRel index_le a (sort_insert _cmp_component_parts x l).
Proof.
  intros Hax Hal. destruct l as [|y l]; simpl.
  - constructor. assumption.
  - destruct (_cmp_component_parts x y <=? 0); constructor.
    + assumption.
    + inversion Hal. assumption.
Qed.

Lemma sort_insert_Sorted (x : LDMPartition) :
  forall l, Sorted index_le l ->
            Sorted index_le (sort_insert _cmp_component_parts x l).
Proof.
  induction l as [|y l IH]; intros Hl; simpl.
  - repeat constructor.
  - destruct (_cmp_component_parts x y <=? 0) eqn:Hc.
    + apply _cmp_component_parts_le in Hc.
      constructor; [assumption|constructor; assumption].
    + inversion Hl; subst. constructor; [auto|].
      apply sort_insert_HdRel; [|assumption].
      assert (~ index_le x y) as Hn.
      { intros Hle. apply _cmp_component_parts_le in Hle. congruence. }
      unfold index_le in *. lia.
Qed.

Lemma g_array_sort_ascending (l : list LDMPartition) :
  StronglySorted index_le (g_array_sort _cmp_component_parts l).
Proof.
  apply Sorted_StronglySorted.
  - intros a b c. unfold index_le. lia.
  - induction l as [|x l IH]; simpl; [constructor|].
    apply sort_insert_Sorted. exact IH.
Qed.

Lemma add_to_volume_Forall (P : LDMComponent -> Prop) (comp : LDMComponent) :
  forall vols vols',
    P comp ->
    Forall (fun vol => Forall P (vol_comps vol)) vols ->
    add_to_volume vols comp = Some vols' ->
    Forall (fun vol => Forall P (vol_comps vol)) vols'.
Proof.
  induction vols as [|vol vols IH]; intros vols' Hc Hall H; simpl in H;
    [discriminate|].
  inversion Hall; subst.
  destruct (vol_id vol =? comp_parent_id comp).
  - inversion H; subst. constructor; [|assumption].
    simpl. apply Forall_app. split; [assumption|]. repeat constructor.
    assumption.
  - destruct (add_to_volume vols comp) as [vs|] eqn:Hr; [|discriminate].
    inversion H; subst. constructor; eauto.
Qed.

Lemma link_comps_ascending :
  forall comps vols comps' vols',
    Forall (fun vol => Forall parts_ascending (vol_comps vol)) vols ->
    link_comps comps vols = Ok (comps', vols') ->
    Forall parts_ascending comps'
    /\ Forall (fun vol => Forall parts_ascending (vol_comps vol)) vols'.
Proof.
  induction comps as [|comp comps IH]; intros vols comps' vols' Hall H;
    cbn [link_comps] in H.
  - inversion H; subst. auto.
  - destruct (negb _); [discriminate|].
    match type of H with
    | match add_to_volume _ ?c with _ => _ end = _ =>
        assert (Hs : parts_ascending c)
          by (apply g_array_sort_ascending);
        destruct (add_to_volume vols c) as [vs|] eqn:Hadd; [|discriminate]
    end.
    bind_inv H. destruct a as [cs vs']. inversion H; subst.
    eapply add_to_volume_Forall in Hadd; eauto.
    apply IH in Ha; [|assumption]. destruct Ha. split; [|assumption].
    constructor; assumption.
Qed.

Lemma check_vols_comps (name : option string) :
  forall vols vols',
    check_vols name vols = Ok vols' ->
    map vol_comps vols' = map vol_comps vols.
Proof.
  induction vols as [|vol vols IH]; intros vols' H; simpl in H.
  - inversion H. reflexivity.
  - destruct (negb _); [discriminate|]. bind_inv H. inversion H; subst.
    simpl. f_equal. auto.
Qed.

Lemma _parse_vblk_vol_comps (revision flags : Z) (m : mem) (vblk : Z)
    (vol : LDMVolume) :
  _parse_vblk_vol revision flags m vblk = Ok vol -> vol_comps vol = [].
Proof.
  unfold _parse_vblk_vol. intros H.
  destruct (negb _); [discriminate|].
  bind_inv H. destruct a. bind_inv H. destruct a. bind_inv H. bind_inv H.
  bind_inv H. destruct (volume_type_of a1); [|discriminate].
  bind_inv H. bind_inv H. destruct a3. bind_inv H. destruct a3.
  bind_inv H. bind_inv H. destruct a4. bind_inv H. destruct a4.
  bind_inv H. destruct a4. bind_inv H. destruct a4.
  inversion H. reflexivity.
Qed.

Lemma _parse_vblk_no_comps (m : mem) (data : Z) (dg dg' : LDMDiskGroup) :
  no_comps dg -> _parse_vblk m data dg = Ok dg' -> no_comps dg'.
Proof.
  unfold _parse_vblk, no_comps. intros Hn H. bind_inv H.
  repeat match type of H with
         | (if ?c then _ else _) = _ => destruct c
         end; try discriminate.
  - inversion H; subst. assumption.
  - bind_inv H. bind_inv H. inversion H; subst. simpl.
    apply Forall_app. split; [assumption|]. repeat constructor.
    eapply _parse_vblk_vol_comps; eauto.
  - bind_inv H. bind_inv H. inversion H; subst. assumption.
  - bind_inv H. bind_inv H. inversion H; subst. assumption.
  - bind_inv H. bind_inv H. inversion H; subst. assumption.
  - bind_inv H. unfold _parse_vblk_disk_group in H.
    destruct (_ && _); [discriminate|].
    bind_inv H. destruct a1. bind_inv H. destruct a1.
    inversion H; subst. assumption.
Qed.

Lemma spanned_finish_no_comps :
  forall spanned dg dg',
    no_comps dg -> spanned_finish spanned dg = Ok dg' -> no_comps dg'.
Proof.
  induction spanned as [|rec rest IH]; intros dg dg' Hn H; simpl in H.
  - inversion H; subst. assumption.
  - destruct (negb _); [discriminate|]. bind_inv H.
    eapply IH; [|eassumption]. eapply _parse_vblk_no_comps; eauto.
Qed.

Lemma vblk_loop_no_comps (host : byte_order) (config : mem) (ds : Z) :
  forall fuel vblk dg spanned dg' spanned',
    no_comps dg ->
    vblk_loop host fuel config ds vblk dg spanned = Ok (dg', spanned') ->
    no_comps dg'.
Proof.
  induction fuel as [|fuel IH]; intros vblk dg spanned dg' spanned' Hn H;
    cbn [vblk_loop] in H; [discriminate|].
  bind_inv H. destruct (negb a).
  { inversion H; subst. assumption. }
  bind_inv H. destruct (_ && _); [discriminate|].
  destruct (_ >? 1).
  - bind_inv H. bind_inv H. eauto.
  - bind_inv H. eapply IH; [|eassumption].
    eapply _parse_vblk_no_comps; eauto.
Qed.

Lemma resolve_ascending (dg dg' : LDMDiskGroup) :
  no_comps dg -> resolve dg = Ok dg' ->
  Forall parts_ascending (dg_comps dg')
  /\ Forall (fun vol => Forall parts_ascending (vol_comps vol)) (dg_vols dg').
Proof.
  unfold resolve, no_comps. intros Hn H.
  repeat match type of H with
         | (if ?c then _ else _) = _ => destruct c
         end; try discriminate.
  bind_inv H. destruct a as [parts comps]. bind_inv H.
  destruct a as [comps' vols]. bind_inv H. inversion H; subst. simpl.
  apply link_comps_ascending in Ha0.
  - destruct Ha0 as [Hc Hv]. split; [assumption|].
    apply check_vols_comps in Ha1.
    apply Forall_forall. intros vol Hin.
    apply (in_map vol_comps) in Hin. rewrite Ha1 in Hin.
    apply in_map_iff in Hin. destruct Hin as (vol' & Heq & Hin').
    rewrite <- Heq. rewrite Forall_forall in Hv. auto.
  - eapply Forall_impl; [|exact Hn]. simpl. intros vol ->. constructor.
Qed.

(** C7, as the code has it: in every group that [_parse_vblks] resolves, the
    partitions of every component, in the group's component array and in the
    component lists of its volumes, are in ascending order of their index:
    each index is less than or equal to those after it. *)
Theorem component_parts_ascending (host : byte_order) (config : mem)
    (vmdb : Z) (dg0 dg : LDMDiskGroup) :
  _parse_vblks host config vmdb dg0 = Ok dg ->
  Forall parts_ascending (dg_comps dg)
  /\ Forall (fun vol => Forall parts_ascending (vol_comps vol)) (dg_vols dg).
Proof.
  unfold _parse_vblks. intros H.
  bind_inv H. bind_inv H. bind_inv H. bind_inv H. bind_inv H. bind_inv H.
  bind_inv H. bind_inv H. destruct a6 as [dg1 spanned]. bind_inv H.
  apply resolve_ascending in H; [assumption|].
  eapply spanned_finish_no_comps; [|eassumption].
  eapply vblk_loop_no_comps; [|eassumption]. constructor.
Qed.

(** C7 on the image [sde]: both partitions of its component have index 0,
    and the group resolves. *)
Lemma equal_index_counterexample :
  _parse_vblks LittleEndian Sample.spanned_config Sample.vmdb_offset
    (new_disk_group (Sample.uuid_of Sample.guid_dg))
  = Ok Sample.spanned_group
  /\ map (fun comp => map part_index (comp_parts comp))
       (dg_comps Sample.spanned_group) = [[0; 0]]
  /\ ~ Forall parts_strictly_ascending (dg_comps Sample.spanned_group).
Proof.
  split; [vm_compute; reflexivity|]. split; [reflexivity|].
  intros H. inversion H as [|comp comps Hs _]; subst.
  unfold parts_strictly_ascending in Hs. simpl in Hs.
  inversion Hs as [|p ps _ Hall]; subst.
  inversion Hall as [|q qs Hlt _]; subst.
  unfold index_lt in Hlt. simpl in Hlt. lia.
Qed.

Lemma component_parts_ascending_witness :
  Forall parts_ascending (dg_comps Sample.spanned_group)
  /\ Forall (fun vol => Forall parts_ascending (vol_comps vol))
       (dg_vols Sample.spanned_group).
Proof.
  apply (component_parts_ascending LittleEndian Sample.spanned_config
           Sample.vmdb_offset
           (new_disk_group (Sample.uuid_of Sample.guid_dg))).
  vm_compute. reflexivity.
Defined.

(** ** Order of the disks (C6) *)

Lemma set_disk_device_length (guid : uuid_t) (path : string)
    (privhead : mem) :
  forall n disks disks',
    set_disk_device n disks guid path privhead = Ok disks' ->
    List.length disks' = List.length disks.
Proof.
  induction n as [|n IH]; intros disks disks' H; cbn [set_disk_device] in H.
  - inversion H. reflexivity.
  - destruct disks as [|disk disks]; [discriminate|].
    destruct (uuid_equal guid (disk_guid disk)).
    + bind_inv H. bind_inv H. bind_inv H. bind_inv H. inversion H.
      reflexivity.
    + bind_inv H. inversion H. simpl. f_equal. eauto.
Qed.













(** ** Registries that [ldm_add_fd] builds *)

Lemma ldm_new_wf : registry_wf ldm_new.
Proof. constructor. Qed.

Lemma Forall_list_set {A : Type} (P : A -> Prop) (x : A) :
  forall l i, Forall P l -> P x -> Forall P (list_set l i x).
Proof.
  induction l as [|y l IH]; intros i Hl Hx; [constructor|].
  inversion Hl; subst. destruct i; simpl; constructor; auto.
Qed.

(** Every group of a registry built from [ldm_new] by [ldm_add_fd] has as
    many disk objects as it declares. *)
Lemma ldm_add_fd_wf (host : byte_order) (o : LDM) (fd : Device)
    (secsize : Z) (path : string) :
  registry_wf o -> registry_wf (snd (ldm_add_fd host o fd secsize path)).
Proof.
  unfold ldm_add_fd. destruct o as [disk_groups|]; [|trivial]. intros Hwf.
  destruct (_read_privhead fd secsize) as [privhead| | |]; cbn [try snd];
    try assumption.
  destruct (_read_config fd secsize privhead) as [config| | |];
    cbn [try snd]; try assumption.
  destruct (_find_vmdb config secsize) as [vmdb| | |]; cbn [try snd];
    try assumption.
  destruct (privhead_guid privhead "disk_guid") as [guid| | |];
    cbn [try snd]; try assumption.
  destruct (privhead_guid privhead "disk_group_guid") as [group_guid| | |];
    cbn [try snd]; try assumption.
  destruct (find_group disk_groups group_guid 0 None) as [i|].
  - destruct (nth_error disk_groups i) as [dg|] eqn:Hnth; [|assumption].
    destruct (member_be _vmdb config vmdb "committed_seq") as [c| | |];
      cbn [try snd]; try assumption.
    destruct (negb (c =? dg_sequence dg)); [assumption|].
    destruct (set_disk_device _ _ _ _ _) as [disks| | |] eqn:Hs;
      cbn [try snd]; try assumption.
    apply Forall_list_set; [assumption|].
    apply set_disk_device_length in Hs.
    cbn [dg_n_disks dg_disks set_dg_disks set_dg_lists]. rewrite Hs.
    simpl in Hwf. rewrite Forall_forall in Hwf. apply Hwf.
    eapply nth_error_In; eassumption.
  - destruct (_parse_vblks host config vmdb (new_disk_group group_guid))
      as [dg| | |] eqn:Hp; cbn [try snd]; try assumption.
    apply _parse_vblks_header in Hp.
    destruct Hp as (_ & _ & _ & _ & _ & _ & Hn).
    assert (Hall : registry_wf (Some (disk_groups ++ [dg]))).
    { apply Forall_app. split; [assumption|]. repeat constructor.
      assumption. }
    destruct (set_disk_device _ _ _ _ _) as [disks| | |] eqn:Hs;
      cbn [try snd]; try assumption.
    apply Forall_list_set; [assumption|].
    apply set_disk_device_length in Hs.
    cbn [dg_n_disks dg_disks set_dg_disks set_dg_lists]. rewrite Hs.
    assumption.
Qed.

(** The same on a registry without the group: the group is parsed and
    appended as it is. *)
Lemma add_unknown_disk_new (host : byte_order)
    (disk_groups : list LDMDiskGroup) (fd : Device) (secsize : Z)
    (path : string) (privhead config : mem) (vmdb : Z)
    (guid group_guid : uuid_t) (dg : LDMDiskGroup) :
  reads_as fd secsize privhead config vmdb guid group_guid ->
  find_group disk_groups group_guid O None = None ->
  _parse_vblks host config vmdb (new_disk_group group_guid) = Ok dg ->
  Forall (fun disk => uuid_equal guid (disk_guid disk) = false)
    (dg_disks dg) ->
  ldm_add_fd host (Some disk_groups) fd secsize path
  = (Ok tt, Some (disk_groups ++ [dg])).
Proof.
  intros (Hph & Hcfg & Hvmdb & Hguid & Hgg) Hfind Hp Hall.
  unfold ldm_add_fd. rewrite Hph. cbn [try]. rewrite Hcfg. cbn [try].
  rewrite Hvmdb. cbn [try]. rewrite Hguid. cbn [try]. rewrite Hgg.
  cbn [try]. rewrite Hfind, Hp. cbn [try].
  apply _parse_vblks_header in Hp.
  destruct Hp as (_ & _ & _ & _ & _ & _ & Hn).
  rewrite set_disk_device_unknown; [|rewrite Hn; lia|assumption].
  cbn [try]. rewrite set_dg_disks_same, list_set_same; [reflexivity|].
  rewrite nth_error_app2, Nat.sub_diag; [reflexivity|lia].
Qed.

(** ** Reassembly of spanned records (C5) *)

Lemma bind_ext {A B : Type} (c : result A) (f g : A -> result B) :
  (forall a, c = Ok a -> f a = g a) -> bind c f = bind c g.
Proof. intros H. destruct c; simpl; auto. Qed.

Lemma bind_ret {A : Type} (c : result A) : bind c Ok = c.
Proof. destruct c; reflexivity. Qed.

(** *** Copies into a byte array *)

Lemma blit_length (src : list byte) :
  forall dst off, List.length (blit dst off src) = List.length dst.
Proof.
  revert src.
  assert (H0 : forall dst src, List.length (blit dst O src) = List.length dst).
  { induction dst as [|d dst IH]; intros src; [reflexivity|].
    destruct src; simpl; auto. }
  intros src. induction dst as [|d dst IH]; intros off; [reflexivity|].
  destruct off; simpl.
  - destruct src; simpl; auto.
  - auto.
Qed.

Lemma blit_nth (dst : list byte) :
  forall (off : nat) (src : list byte) (k : nat),
    nth_error (blit dst off src) k
    = if ((off <=? k) && (k <? off + List.length src)
          && (k <? List.length dst))%nat
      then nth_error src (k - off)
      else nth_error dst k.
Proof.
  induction dst as [|d dst IH]; intros off src k.
  - simpl. rewrite andb_comm. simpl. destruct k; reflexivity.
  - destruct off as [|off].
    + destruct src as [|s src].
      * simpl. destruct (k <? 0)%nat eqn:E; [apply Nat.ltb_lt in E; lia|].
        reflexivity.
      * simpl blit. destruct k as [|k]; [reflexivity|].
        simpl nth_error. rewrite IH. simpl.
        rewrite Nat.sub_0_r. reflexivity.
    + simpl blit. destruct k as [|k]; [reflexivity|].
      simpl nth_error. rewrite IH. reflexivity.
Qed.

Lemma blit_comm (dst src1 src2 : list byte) (o1 o2 : nat) :
  (o1 + List.length src1 <= o2 \/ o2 + List.length src2 <= o1)%nat ->
  blit (blit dst o1 src1) o2 src2 = blit (blit dst o2 src2) o1 src1.
Proof.
  intros Hdisj. apply nth_error_ext. intros k.
  rewrite !blit_nth, !blit_length.
  destruct ((o2 <=? k) && (k <? o2 + List.length src2)
            && (k <? List.length dst))%nat eqn:E2;
    destruct ((o1 <=? k) && (k <? o1 + List.length src1)
              && (k <? List.length dst))%nat eqn:E1; try reflexivity.
  exfalso.
  apply andb_prop in E1, E2. destruct E1 as [E1 _], E2 as [E2 _].
  apply andb_prop in E1, E2. destruct E1 as [A1 B1], E2 as [A2 B2].
  apply Nat.leb_le in A1, A2. apply Nat.ltb_lt in B1, B2. lia.
Qed.

Lemma memcpy_length (dst src dst' : list byte) (off : Z) :
  memcpy dst off src = Ok dst' -> mem_len dst' = mem_len dst.
Proof.
  unfold memcpy, mem_len. destruct (_ && _); [|discriminate].
  intros H. inversion H. rewrite blit_length. reflexivity.
Qed.

(** Two copies of [n] bytes each into different slots of [n] bytes give the
    same array in either order. *)
Lemma memcpy_comm (dst src1 src2 : list byte) (n e1 e2 : Z) :
  mem_len src1 = n -> mem_len src2 = n -> 0 <= e1 -> 0 <= e2 -> e1 <> e2 ->
  bind (memcpy dst (e1 * n) src1) (fun d => memcpy d (e2 * n) src2)
  = bind (memcpy dst (e2 * n) src2) (fun d => memcpy d (e1 * n) src1).
Proof.
  intros H1 H2 P1 P2 Hne.
  assert (Hn : 0 <= n) by (unfold mem_len in H1; lia).
  unfold memcpy. rewrite H1, H2.
  destruct ((0 <=? e1 * n) && (e1 * n + n <=? mem_len dst)) eqn:E1;
    destruct ((0 <=? e2 * n) && (e2 * n + n <=? mem_len dst)) eqn:E2;
    cbn [bind]; unfold mem_len; rewrite ?blit_length;
    fold (mem_len dst); rewrite ?E1, ?E2; try reflexivity.
  f_equal. apply blit_comm.
  unfold mem_len in H1, H2.
  assert (e1 * n + n <= e2 * n \/ e2 * n + n <= e1 * n) by nia.
  nia.
Qed.

(** *** The two halves of [spanned_add] *)

Lemma write_entry_nil (ds : Z) (c : vblk_head * list byte) :
  write_entry ds [] c = Fault.
Proof. reflexivity. Qed.

Lemma write_entry_cons (ds : Z) (r : _spanned_rec)
    (rest : list _spanned_rec) (c : vblk_head * list byte) :
  write_entry ds (r :: rest) c
  = if bytes_eqb (record_id r) (head_record_id (fst c)) then
      data <- memcpy (rec_data r) (be16toh (head_entry (fst c)) * ds)
                (snd c) ;;
      Ok (mkSpanned (record_id r) (entries_total r)
            (wrap 16 (entries_found r + 1)) (rec_offset r) data :: rest)
    else
      rest' <- write_entry ds rest c ;; Ok (r :: rest').
Proof.
  unfold write_entry. cbn [spanned_update].
  destruct (bytes_eqb (record_id r) (head_record_id (fst c))).
  - destruct (memcpy _ _ _); reflexivity.
  - destruct (spanned_update rest (fst c) ds (snd c)) as [[s|]| | |];
      reflexivity.
Qed.

Lemma spanned_update_absent (ds : Z) (head : vblk_head)
    (payload : list byte) :
  forall spanned,
    has_record (head_record_id head) spanned = false ->
    spanned_update spanned head ds payload = Ok None.
Proof.
  induction spanned as [|r rest IH]; intros H; [reflexivity|].
  simpl in H. apply orb_false_iff in H. destruct H as [Hr Hrest].
  cbn [spanned_update]. rewrite Hr, IH; auto.
Qed.

Lemma write_entry_app (ds : Z) (c : vblk_head * list byte)
    (tail : list _spanned_rec) :
  forall spanned,
    has_record (head_record_id (fst c)) spanned = true ->
    write_entry ds (spanned ++ tail) c
    = (s <- write_entry ds spanned c ;; Ok (s ++ tail)).
Proof.
  induction spanned as [|r rest IH]; intros H; [discriminate|].
  simpl in H. cbn [app]. rewrite !write_entry_cons.
  destruct (bytes_eqb (record_id r) (head_record_id (fst c))).
  - destruct (memcpy _ _ _); reflexivity.
  - simpl in H. rewrite IH by assumption.
    destruct (write_entry ds rest c); reflexivity.
Qed.

Lemma write_entry_absent_app (ds : Z) (c : vblk_head * list byte)
    (r0 : _spanned_rec) :
  forall spanned,
    has_record (head_record_id (fst c)) spanned = false ->
    write_entry ds (spanned ++ [r0]) c
    = (s <- write_entry ds [r0] c ;; Ok (spanned ++ s)).
Proof.
  induction spanned as [|r rest IH]; intros H.
  - cbn [app]. rewrite bind_ret. reflexivity.
  - simpl in H. apply orb_false_iff in H. destruct H as [Hr Hrest].
    cbn [app]. rewrite write_entry_cons, Hr, IH by assumption.
    destruct (write_entry ds [r0] c); reflexivity.
Qed.

(** [spanned_add] makes sure the record exists, then writes the entry. *)
Lemma spanned_add_split (host : byte_order) (ds : Z)
    (spanned : list _spanned_rec) (e : vblk_entry) :
  spanned_add host spanned (e_head e) ds (e_offset e) (e_payload e)
  = (s <- ensure_record host ds spanned (entry_key e) ;;
     write_entry ds s (content e)).
Proof.
  unfold spanned_add, ensure_record, entry_key.
  destruct (has_record (head_record_id (e_head e)) spanned) eqn:Hhas.
  - cbn [bind]. unfold write_entry, content. cbn [fst snd].
    destruct (spanned_update spanned (e_head e) ds (e_payload e))
      as [[s|]| | |] eqn:Hu; try reflexivity.
    exfalso. clear -Hhas Hu. revert Hu.
    induction spanned as [|r rest IH]; [discriminate|].
    cbn [spanned_update]. simpl in Hhas.
    destruct (bytes_eqb (record_id r) (head_record_id (e_head e))).
    + destruct (memcpy _ _ _); discriminate.
    + simpl in Hhas.
      destruct (spanned_update rest (e_head e) ds (e_payload e))
        as [[s|]| | |]; try discriminate. auto.
  - rewrite spanned_update_absent by assumption. cbn [bind].
    unfold spanned_new.
    destruct (host_value host (head_entries_total (e_head e)) * ds
              >? INT_MAX); [reflexivity|].
    cbn [bind]. rewrite write_entry_absent_app by assumption.
    rewrite write_entry_cons. unfold content.
    cbn [fst snd record_id rec_data entries_total entries_found rec_offset].
    assert (Hrefl : bytes_eqb (head_record_id (e_head e))
                      (head_record_id (e_head e)) = true)
      by (apply bytes_eqb_eq; reflexivity).
    rewrite Hrefl.
    destruct (memcpy _ _ _); reflexivity.
Qed.

Lemma run_all_app {X : Type}
    (step : list _spanned_rec -> X -> result (list _spanned_rec))
    (l1 l2 : list X) :
  forall spanned,
    run_all step (l1 ++ l2) spanned
    = (s <- run_all step l1 spanned ;; run_all step l2 s).
Proof.
  induction l1 as [|x l1 IH]; intros spanned; [reflexivity|].
  cbn [app run_all]. rewrite bind_assoc. apply bind_ext. auto.
Qed.

Lemma reassemble_run (host : byte_order) (ds : Z) :
  forall es spanned,
    reassemble host ds es spanned
    = run_all (fun s e => s' <- ensure_record host ds s (entry_key e) ;;
                          write_entry ds s' (content e))
        (filter is_spanned_entry es) spanned.
Proof.
  induction es as [|e es IH]; intros spanned; [reflexivity|].
  cbn [reassemble filter]. destruct (is_spanned_entry e); [|apply IH].
  cbn [run_all]. rewrite spanned_add_split. apply bind_ext. auto.
Qed.

(** *** Writes commute with what does not touch their record *)

Lemma write_entry_ids (ds : Z) (c : vblk_head * list byte) :
  forall spanned spanned',
    write_entry ds spanned c = Ok spanned' ->
    map record_id spanned' = map record_id spanned.
Proof.
  induction spanned as [|r rest IH]; intros spanned' H; [discriminate|].
  rewrite write_entry_cons in H.
  destruct (bytes_eqb (record_id r) (head_record_id (fst c))).
  - bind_inv H. inversion H. reflexivity.
  - bind_inv H. inversion H. simpl. f_equal. auto.
Qed.

Lemma has_record_ids (rid : list byte) (s s' : list _spanned_rec) :
  map record_id s' = map record_id s ->
  has_record rid s' = has_record rid s.
Proof.
  unfold has_record. revert s'.
  induction s as [|r s IH]; intros [|r' s'] H; try discriminate;
    [reflexivity|].
  simpl in H. inversion H. simpl. rewrite H1. f_equal. auto.
Qed.

Lemma has_record_app (rid : list byte) (s t : list _spanned_rec) :
  has_record rid (s ++ t) = has_record rid s || has_record rid t.
Proof. apply existsb_app. Qed.

Lemma ensure_record_has (host : byte_order) (ds : Z)
    (spanned spanned' : list _spanned_rec) (key : Z * list byte * list byte)
    (rid : list byte) :
  ensure_record host ds spanned key = Ok spanned' ->
  (has_record rid spanned = true -> has_record rid spanned' = true)
  /\ has_record (snd (fst key)) spanned' = true.
Proof.
  destruct key as [[offset rid'] total]. unfold ensure_record. cbn [fst snd].
  destruct (has_record rid' spanned) eqn:Hhas.
  - intros H. inversion H; subst. auto.
  - destruct (_ >? INT_MAX); [discriminate|]. intros H. inversion H; subst.
    rewrite !has_record_app. split.
    + intros ->. reflexivity.
    + simpl.
      assert (Hrefl : bytes_eqb rid' rid' = true)
        by (apply bytes_eqb_eq; reflexivity).
      rewrite Hrefl. apply orb_true_r.
Qed.

Lemma write_entry_outcome (ds : Z) (c : vblk_head * list byte) :
  forall spanned,
    (exists s, write_entry ds spanned c = Ok s)
    \/ write_entry ds spanned c = Fault.
Proof.
  induction spanned as [|r rest IH]; [right; reflexivity|].
  rewrite write_entry_cons.
  destruct (bytes_eqb (record_id r) (head_record_id (fst c))).
  - unfold memcpy. destruct (_ && _); cbn [bind]; eauto.
  - destruct IH as [(s & ->) | ->]; cbn [bind]; eauto.
Qed.

(** A write to a record that exists commutes with making sure of a
    record. *)
Lemma write_ensure_comm (host : byte_order) (ds : Z)
    (c : vblk_head * list byte) (key : Z * list byte * list byte)
    (spanned : list _spanned_rec) :
  has_record (head_record_id (fst c)) spanned = true ->
  (s <- write_entry ds spanned c ;; ensure_record host ds s key)
  = (s <- ensure_record host ds spanned key ;; write_entry ds s c).
Proof.
  intros Hhas. destruct key as [[offset rid] total].
  unfold ensure_record.
  destruct (write_entry_outcome ds c spanned) as [(s & Hw) | Hw].
  - pose proof (write_entry_ids _ _ _ _ Hw) as Hids.
    rewrite Hw. cbn [bind]. rewrite (has_record_ids rid _ _ Hids).
    destruct (has_record rid spanned) eqn:Hrid.
    + cbn [bind]. auto.
    + destruct (host_value host total * ds >? INT_MAX); [reflexivity|].
      cbn [bind]. rewrite write_entry_app by assumption.
      rewrite Hw. reflexivity.
  - rewrite Hw. cbn [bind].
    destruct (has_record rid spanned) eqn:Hrid.
    + cbn [bind]. auto.
    + destruct (host_value host total * ds >? INT_MAX); [reflexivity|].
      cbn [bind]. rewrite write_entry_app by assumption.
      rewrite Hw. reflexivity.
Qed.

Lemma bind_comm_plain {A B C : Type} (a : result A) (b : result B)
    (k : A -> B -> result C) :
  plain a -> plain b ->
  (x <- a ;; y <- b ;; k x y) = (y <- b ;; x <- a ;; k x y).
Proof. intros [(x & ->) | ->] [(y & ->) | ->]; reflexivity. Qed.

Lemma memcpy_plain (dst : list byte) (off : Z) (src : list byte) :
  plain (memcpy dst off src).
Proof. unfold plain, memcpy. destruct (_ && _); eauto. Qed.

Lemma write_entry_plain (ds : Z) (c : vblk_head * list byte)
    (spanned : list _spanned_rec) :
  plain (write_entry ds spanned c).
Proof. apply write_entry_outcome. Qed.

(** Writes to different records commute. *)
Lemma write_write_diff (ds : Z) (c1 c2 : vblk_head * list byte) :
  head_record_id (fst c1) <> head_record_id (fst c2) ->
  forall spanned,
    (s <- write_entry ds spanned c1 ;; write_entry ds s c2)
    = (s <- write_entry ds spanned c2 ;; write_entry ds s c1).
Proof.
  intros Hne. induction spanned as [|r rest IH]; [reflexivity|].
  rewrite !write_entry_cons.
  destruct (bytes_eqb (record_id r) (head_record_id (fst c1))) eqn:E1;
    destruct (bytes_eqb (record_id r) (head_record_id (fst c2))) eqn:E2.
  - apply bytes_eqb_eq in E1, E2. congruence.
  - rewrite !bind_assoc. cbn [bind].
    etransitivity.
    { apply bind_ext. intros d _. rewrite write_entry_cons.
      cbn [record_id]. rewrite E2. reflexivity. }
    etransitivity.
    { apply bind_comm_plain;
        [apply memcpy_plain | apply write_entry_plain]. }
    apply bind_ext. intros s _. rewrite write_entry_cons, E1. reflexivity.
  - rewrite !bind_assoc. cbn [bind]. symmetry.
    etransitivity.
    { apply bind_ext. intros d _. rewrite write_entry_cons.
      cbn [record_id]. rewrite E1. reflexivity. }
    etransitivity.
    { apply bind_comm_plain;
        [apply memcpy_plain | apply write_entry_plain]. }
    apply bind_ext. intros s _. rewrite write_entry_cons, E2. reflexivity.
  - rewrite !bind_assoc. cbn [bind].
    transitivity (s <- (s <- write_entry ds rest c1 ;; write_entry ds s c2) ;;
                  Ok (r :: s)).
    { rewrite bind_assoc. apply bind_ext. intros s _.
      rewrite write_entry_cons, E2. reflexivity. }
    rewrite IH, bind_assoc. apply bind_ext. intros s _.
    rewrite write_entry_cons, E1. reflexivity.
Qed.

Lemma be_value_nonneg (bs : list byte) :
  forall acc, 0 <= acc -> 0 <= be_value acc bs.
Proof.
  induction bs as [|b bs IH]; intros acc Hacc; [assumption|].
  cbn [be_value]. apply IH. apply Z.lor_nonneg. split.
  - apply Z.shiftl_nonneg. assumption.
  - unfold u8. lia.
Qed.

Lemma entry_number_nonneg (c : vblk_head * list byte) : 0 <= entry_number c.
Proof. apply be_value_nonneg. lia. Qed.

(** Writes of different entries of one record commute. *)
Lemma write_write_same (ds : Z) (c1 c2 : vblk_head * list byte) :
  head_record_id (fst c1) = head_record_id (fst c2) ->
  entry_number c1 <> entry_number c2 ->
  mem_len (snd c1) = ds -> mem_len (snd c2) = ds ->
  forall spanned,
    (s <- write_entry ds spanned c1 ;; write_entry ds s c2)
    = (s <- write_entry ds spanned c2 ;; write_entry ds s c1).
Proof.
  intros Hid Hne L1 L2. induction spanned as [|r rest IH]; [reflexivity|].
  rewrite !write_entry_cons. rewrite <- Hid.
  destruct (bytes_eqb (record_id r) (head_record_id (fst c1))) eqn:E1.
  - rewrite !bind_assoc. cbn [bind].
    pose (final := fun d : list byte =>
            @Ok (list _spanned_rec)
              (mkSpanned (record_id r) (entries_total r)
                 (wrap 16 (wrap 16 (entries_found r + 1) + 1))
                 (rec_offset r) d :: rest)).
    transitivity
      (d <- (d <- memcpy (rec_data r) (entry_number c1 * ds) (snd c1) ;;
             memcpy d (entry_number c2 * ds) (snd c2)) ;; final d).
    { rewrite bind_assoc. apply bind_ext. intros d _.
      rewrite write_entry_cons. cbn [record_id rec_data entries_total
                                       entries_found rec_offset].
      rewrite <- Hid, E1. reflexivity. }
    rewrite (memcpy_comm (rec_data r) (snd c1) (snd c2) ds
               (entry_number c1) (entry_number c2) L1 L2
               (entry_number_nonneg c1) (entry_number_nonneg c2) Hne).
    rewrite bind_assoc. apply bind_ext. intros d _.
    rewrite write_entry_cons. cbn [record_id rec_data entries_total
                                     entries_found rec_offset].
    rewrite E1. reflexivity.
  - rewrite !bind_assoc. cbn [bind].
    transitivity (s <- (s <- write_entry ds rest c1 ;; write_entry ds s c2) ;;
                  Ok (r :: s)).
    { rewrite bind_assoc. apply bind_ext. intros s _.
      rewrite write_entry_cons, <- Hid, E1. reflexivity. }
    rewrite IH, bind_assoc. apply bind_ext. intros s _.
    rewrite write_entry_cons, E1. reflexivity.
Qed.

(** *** Writes after all the records exist *)

Lemma run_ensure_has (host : byte_order) (ds : Z) (rid : list byte) :
  forall keys spanned spanned',
    run_all (ensure_record host ds) keys spanned = Ok spanned' ->
    has_record rid spanned = true -> has_record rid spanned' = true.
Proof.
  induction keys as [|key keys IH]; intros spanned spanned' H Hhas;
    cbn [run_all] in H.
  - inversion H; subst. assumption.
  - bind_inv H. eapply IH; [eassumption|].
    eapply ensure_record_has; eassumption.
Qed.

Lemma write_run_ensure_comm (host : byte_order) (ds : Z)
    (c : vblk_head * list byte) :
  forall keys spanned,
    has_record (head_record_id (fst c)) spanned = true ->
    (s <- write_entry ds spanned c ;; run_all (ensure_record host ds) keys s)
    = (s <- run_all (ensure_record host ds) keys spanned ;;
       write_entry ds s c).
Proof.
  induction keys as [|key keys IH]; intros spanned Hhas; cbn [run_all].
  - rewrite bind_ret. reflexivity.
  - rewrite <- bind_assoc, write_ensure_comm by assumption.
    rewrite !bind_assoc. apply bind_ext. intros s Hs.
    apply IH. eapply ensure_record_has; eassumption.
Qed.

(** The loop amounts to creating every record first and writing every entry
    afterwards. *)
Lemma run_split (host : byte_order) (ds : Z) :
  forall l spanned,
    run_all (fun s e => s' <- ensure_record host ds s (entry_key e) ;;
                        write_entry ds s' (content e)) l spanned
    = (s <- run_all (ensure_record host ds) (map entry_key l) spanned ;;
       run_all (write_entry ds) (map content l) s).
Proof.
  induction l as [|e l IH]; intros spanned; [reflexivity|].
  cbn [run_all map]. rewrite !bind_assoc. apply bind_ext. intros s Hs.
  transitivity
    (s2 <- (s1 <- write_entry ds s (content e) ;;
            run_all (ensure_record host ds) (map entry_key l) s1) ;;
     run_all (write_entry ds) (map content l) s2).
  { rewrite bind_assoc. apply bind_ext. intros s1 _. apply IH. }
  rewrite write_run_ensure_comm.
  - rewrite bind_assoc. reflexivity.
  - apply (ensure_record_has host ds spanned s (entry_key e) []) in Hs.
    exact (proj2 Hs).
Qed.

Lemma write_run_comm (ds : Z) (c : vblk_head * list byte) :
  forall cs spanned,
    Forall (fun c' => head_record_id (fst c) <> head_record_id (fst c')) cs ->
    (s <- write_entry ds spanned c ;; run_all (write_entry ds) cs s)
    = (s <- run_all (write_entry ds) cs spanned ;; write_entry ds s c).
Proof.
  induction cs as [|c' cs IH]; intros spanned Hall; cbn [run_all].
  - rewrite bind_ret. reflexivity.
  - inversion Hall; subst.
    rewrite <- bind_assoc, write_write_diff by assumption.
    rewrite !bind_assoc. apply bind_ext. intros s _. auto.
Qed.

(** The writes of one record can be moved behind those of the others. *)
Lemma writes_split (ds : Z) (rid : list byte) :
  forall cs spanned,
    run_all (write_entry ds) cs spanned
    = (s <- run_all (write_entry ds)
              (filter (fun c => negb (is_rid rid c)) cs) spanned ;;
       run_all (write_entry ds) (filter (is_rid rid) cs) s).
Proof.
  induction cs as [|c cs IH]; intros spanned; [reflexivity|].
  cbn [run_all filter]. destruct (is_rid rid c) eqn:Hc; cbn [negb run_all].
  - transitivity
      (s2 <- (s1 <- write_entry ds spanned c ;;
              run_all (write_entry ds)
                (filter (fun c => negb (is_rid rid c)) cs) s1) ;;
       run_all (write_entry ds) (filter (is_rid rid) cs) s2).
    { rewrite bind_assoc. apply bind_ext. intros s _. apply IH. }
    rewrite write_run_comm.
    + rewrite bind_assoc. reflexivity.
    + apply Forall_forall. intros c' Hin. apply filter_In in Hin.
      destruct Hin as [_ Hn]. unfold is_rid in *.
      apply bytes_eqb_eq in Hc. intros Heq.
      rewrite <- Heq, Hc in Hn.
      assert (bytes_eqb rid rid = true) as Hr
        by (apply bytes_eqb_eq; reflexivity).
      rewrite Hr in Hn. discriminate.
  - rewrite bind_assoc. apply bind_ext. intros s _. apply IH.
Qed.

(** The writes of the entries of one record give the same array in any
    order, when the entries have different numbers. *)
Lemma writes_perm (ds : Z) (rid : list byte)
    (cs cs' : list (vblk_head * list byte)) :
  Permutation cs cs' ->
  Forall (fun c => head_record_id (fst c) = rid /\ mem_len (snd c) = ds) cs ->
  NoDup (map entry_number cs) ->
  forall spanned,
    run_all (write_entry ds) cs spanned
    = run_all (write_entry ds) cs' spanned.
Proof.
  induction 1 as [|c cs cs' Hp IH|c1 c2 cs|cs cs' cs'' Hp1 IH1 Hp2 IH2];
    intros Hall Hnd spanned.
  - reflexivity.
  - cbn [run_all]. inversion Hall; subst. inversion Hnd; subst.
    apply bind_ext. intros s _. auto.
  - cbn [run_all]. rewrite <- !bind_assoc. f_equal.
    pose proof (Forall_inv Hall) as [I2 L2].
    pose proof (Forall_inv (Forall_inv_tail Hall)) as [I1 L1].
    cbv beta in I1, I2, L1, L2.
    apply write_write_same.
    + etransitivity; [exact I2 | symmetry; exact I1].
    + pose proof (NoDup_cons_iff (entry_number c2)
                    (map entry_number (c1 :: cs))) as [Hin _].
      specialize (Hin Hnd). destruct Hin as [Hin _].
      intros Heq. apply Hin. left. symmetry. exact Heq.
    + exact L2.
    + exact L1.
  - rewrite IH1, IH2; auto.
    + eapply Permutation_Forall; eassumption.
    + eapply Permutation_NoDup; [|eassumption]. apply Permutation_map.
      assumption.
Qed.

(** *** Entries permuted in place *)

Lemma filter_rid_content (rid : list byte) :
  forall es,
    filter (is_rid rid) (map content (filter is_spanned_entry es))
    = map content (filter (of_record rid) es).
Proof.
  induction es as [|e es IH]; [reflexivity|].
  cbn [filter]. unfold of_record at 1.
  destruct (is_spanned_entry e); cbn [map filter].
  - change (is_rid rid (content e))
      with (bytes_eqb (head_record_id (e_head e)) rid).
    destruct (bytes_eqb (head_record_id (e_head e)) rid); cbn [andb map];
      rewrite IH; reflexivity.
  - rewrite andb_false_r. exact IH.
Qed.

Lemma in_place_others (rid : list byte) (es es' : list vblk_entry) :
  Forall2 (in_place rid) es es' ->
  filter (fun c => negb (is_rid rid c))
    (map content (filter is_spanned_entry es))
  = filter (fun c => negb (is_rid rid c))
      (map content (filter is_spanned_entry es')).
Proof.
  induction 1 as [|e e' es es' [_ He] _ IH]; [reflexivity|].
  cbn [filter]. destruct (of_record rid e) eqn:Hr.
  - unfold of_record in Hr, He. apply andb_prop in Hr, He.
    destruct Hr as [Hi Hs], He as [Hi' Hs']. rewrite Hs, Hs'.
    cbn [map filter].
    assert (R : is_rid rid (content e) = true) by exact Hi.
    assert (R' : is_rid rid (content e') = true) by exact Hi'.
    rewrite R, R'. exact IH.
  - subst e'. destruct (is_spanned_entry e); [|exact IH].
    cbn [map filter]. destruct (negb (is_rid rid (content e)));
      rewrite IH; reflexivity.
Qed.

Lemma of_record_id (rid : list byte) (e : vblk_entry) :
  of_record rid e = true ->
  head_record_id (e_head e) = rid /\ is_spanned_entry e = true.
Proof.
  unfold of_record. intros H. apply andb_prop in H. destruct H as [Hi Hs].
  apply bytes_eqb_eq in Hi. auto.
Qed.

Lemma in_place_keys (rid total : list byte) (ds : Z)
    (es es' : list vblk_entry) :
  Forall2 (in_place rid) es es' ->
  Forall (record_entry rid total ds) es ->
  Forall (record_entry rid total ds) es' ->
  map entry_key (filter is_spanned_entry es)
  = map entry_key (filter is_spanned_entry es').
Proof.
  induction 1 as [|e e' es es' [Ho He] _ IH]; intros Hall Hall';
    [reflexivity|].
  inversion Hall as [|? ? Hrec Htl]; subst.
  inversion Hall' as [|? ? Hrec' Htl']; subst.
  specialize (IH Htl Htl'). cbn [filter].
  destruct (of_record rid e) eqn:Hr.
  - destruct (of_record_id _ _ Hr) as [Hi Hs].
    destruct (of_record_id _ _ He) as [Hi' Hs'].
    destruct (Hrec Hr) as [Ht _]. destruct (Hrec' He) as [Ht' _].
    rewrite Hs, Hs'. cbn [map]. unfold entry_key at 1 3.
    rewrite Ho, Hi, Hi', Ht, Ht', IH. reflexivity.
  - subst e'. destruct (is_spanned_entry e); [|exact IH].
    cbn [map]. rewrite IH. reflexivity.
Qed.

Lemma record_entry_perm (rid total : list byte) (ds : Z)
    (es es' : list vblk_entry) :
  Permutation (map content (filter (of_record rid) es))
    (map content (filter (of_record rid) es')) ->
  Forall (record_entry rid total ds) es ->
  Forall (record_entry rid total ds) es'.
Proof.
  intros Hperm Hall. apply Forall_forall. intros e' Hin' Hr'.
  assert (Hc : In (content e') (map content (filter (of_record rid) es'))).
  { apply in_map. apply filter_In. auto. }
  eapply Permutation_in in Hc; [|apply Permutation_sym; exact Hperm].
  apply in_map_iff in Hc. destruct Hc as (e & Heq & Hin).
  apply filter_In in Hin. destruct Hin as [Hin Hr].
  rewrite Forall_forall in Hall. destruct (Hall e Hin Hr) as [Ht Hl].
  unfold content in Heq. injection Heq as Hh Hp.
  rewrite <- Hh, <- Hp. split; assumption.
Qed.

(** Permuting the entries of one record among their positions does not
    change the array the loop builds. *)
Lemma reassemble_permutation (host : byte_order) (ds : Z)
    (rid total : list byte) (es es' : list vblk_entry)
    (spanned : list _spanned_rec) :
  Forall2 (in_place rid) es es' ->
  Permutation (map content (filter (of_record rid) es))
    (map content (filter (of_record rid) es')) ->
  Forall (record_entry rid total ds) es ->
  NoDup (map (fun e => entry_number (content e))
           (filter (of_record rid) es)) ->
  reassemble host ds es spanned = reassemble host ds es' spanned.
Proof.
  intros Hplace Hperm Hall Hnd.
  pose proof (record_entry_perm _ _ _ _ _ Hperm Hall) as Hall'.
  rewrite !reassemble_run, !run_split.
  rewrite (in_place_keys rid total ds es es' Hplace Hall Hall').
  apply bind_ext. intros s _.
  rewrite (writes_split ds rid (map content (filter is_spanned_entry es))).
  rewrite (writes_split ds rid (map content (filter is_spanned_entry es'))).
  rewrite (in_place_others rid es es' Hplace).
  apply bind_ext. intros s' _.
  rewrite !filter_rid_content.
  apply (writes_perm ds rid); [exact Hperm| |].
  - apply Forall_forall. intros c Hin.
    apply in_map_iff in Hin. destruct Hin as (e & <- & Hin).
    apply filter_In in Hin. destruct Hin as [Hin Hr].
    rewrite Forall_forall in Hall. destruct (Hall e Hin Hr) as [_ Hl].
    destruct (of_record_id _ _ Hr) as [Hi _]. split; assumption.
  - rewrite map_map. exact Hnd.
Qed.

(** Let the entries of the spanned record [rid] carry the same
    [entries_total], payloads of the size the loop copies, and pairwise
    different entry numbers.  If a second stream has the same entries at the
    same offsets, except that the entries of [rid] are permuted among their
    positions, the loop has the same outcome on both: the same array of
    spanned records (same buffer, same counters, same order) when it
    returns one, and then the same result of the decoding pass.  The lemma
    does not say that the loop returns. *)
Lemma spanned_permutation (host : byte_order) (ds : Z)
    (rid total : list byte) (es es' : list vblk_entry)
    (spanned : list _spanned_rec) :
  Forall2 (in_place rid) es es' ->
  Permutation (map content (filter (of_record rid) es))
    (map content (filter (of_record rid) es')) ->
  Forall (record_entry rid total ds) es ->
  NoDup (map (fun e => entry_number (content e))
           (filter (of_record rid) es)) ->
  reassemble host ds es spanned = reassemble host ds es' spanned
  /\ forall dg,
      (s <- reassemble host ds es spanned ;; spanned_finish s dg)
      = (s <- reassemble host ds es' spanned ;; spanned_finish s dg).
Proof.
  intros Hplace Hperm Hall Hnd.
  pose proof (reassemble_permutation host ds rid total es es' spanned
                Hplace Hperm Hall Hnd) as Heq.
  split; [exact Heq|]. intros dg. rewrite Heq. reflexivity.
Qed.

(** *** The loop and the stream of entries *)

Lemma vblk_loop_reassemble (host : byte_order) (config : mem) (ds : Z) :
  forall fuel vblk dg spanned dg' spanned',
    vblk_loop host fuel config ds vblk dg spanned = Ok (dg', spanned') ->
    reassemble host ds (stream fuel config ds vblk) spanned = Ok spanned'.
Proof.
  induction fuel as [|fuel IH]; intros vblk dg spanned dg' spanned' H;
    cbn [vblk_loop] in H; [discriminate|].
  cbn [stream]. bind_inv H. rewrite Ha. destruct a; cbn [negb] in H.
  - bind_inv H. rewrite Ha0. destruct (_ && _); [discriminate|].
    cbn [reassemble]. unfold is_spanned_entry. cbn [e_head e_offset e_payload].
    destruct (be16toh (head_entries_total a) >? 1).
    + bind_inv H. rewrite Ha1. bind_inv H. rewrite Ha2. cbn [bind]. eauto.
    + bind_inv H. eauto.
  - inversion H; subst. reflexivity.
Qed.

(** The same on the loop itself: two blobs whose streams differ by a
    permutation in place of the entries of one record leave the loop with
    the same array of spanned records. *)
Corollary vblk_loop_permutation (host : byte_order) (ds : Z)
    (rid total : list byte) (config config' : mem) (fuel fuel' : nat)
    (vblk vblk' : Z) (dg0 dg0' dg dg' : LDMDiskGroup)
    (spanned spanned' : list _spanned_rec) :
  let es := stream fuel config ds vblk in
  let es' := stream fuel' config' ds vblk' in
  Forall2 (in_place rid) es es' ->
  Permutation (map content (filter (of_record rid) es))
    (map content (filter (of_record rid) es')) ->
  Forall (record_entry rid total ds) es ->
  NoDup (map (fun e => entry_number (content e))
           (filter (of_record rid) es)) ->
  vblk_loop host fuel config ds vblk dg0 [] = Ok (dg, spanned) ->
  vblk_loop host fuel' config' ds vblk' dg0' [] = Ok (dg', spanned') ->
  spanned = spanned'.
Proof.
  intros es es' Hplace Hperm Hall Hnd H H'.
  apply vblk_loop_reassemble in H, H'.
  pose proof (reassemble_permutation host ds rid total es es' [] Hplace
                Hperm Hall Hnd) as Heq.
  fold es in H. fold es' in H'. congruence.
Qed.

(** The loop never runs out of the fuel [_parse_vblks] gives it: more fuel
    changes nothing once the fuel exceeds what is left of the blob. *)
Lemma vblk_loop_fuel (host : byte_order) (config : mem) (ds : Z) :
  0 <= ds ->
  forall fuel extra vblk dg spanned,
    mem_len config - vblk < 16 * Z.of_nat fuel ->
    vblk_loop host (fuel + extra) config ds vblk dg spanned
    = vblk_loop host fuel config ds vblk dg spanned.
Proof.
  intros Hds. induction fuel as [|fuel IH]; intros extra vblk dg spanned Hlt.
  - cbn [Nat.add vblk_loop]. destruct extra as [|extra]; [reflexivity|].
    cbn [vblk_loop]. unfold magic_is, member, load.
    change (offsetof _vblk_head "magic") with 0.
    change (fieldsize _vblk_head "magic") with 4.
    destruct ((0 <=? vblk + 0) && (0 <=? 4)
              && (vblk + 0 + 4 <=? mem_len config)) eqn:E; [|reflexivity].
    apply andb_prop in E. destruct E as [_ E]. apply Z.leb_le in E. lia.
  - cbn [Nat.add vblk_loop]. apply bind_ext. intros a _.
    destruct (negb a); [reflexivity|]. apply bind_ext. intros head _.
    destruct (_ && _); [reflexivity|].
    change (sizeof _vblk_head) with 16.
    destruct (_ >? 1).
    + apply bind_ext. intros payload _. apply bind_ext. intros s _.
      apply IH. lia.
    + apply bind_ext. intros dg1 _. apply IH. lia.
Qed.

(** A volume record spanning two entries, delivered in either order: the
    parser builds the same group. *)
Lemma spanned_record_either_order (host : byte_order) :
  _parse_vblks host (Sample.split_config false) Sample.vmdb_offset
    (new_disk_group (Sample.uuid_of Sample.guid_dg))
  = _parse_vblks host (Sample.split_config true) Sample.vmdb_offset
      (new_disk_group (Sample.uuid_of Sample.guid_dg))
  /\ match _parse_vblks host (Sample.split_config true) Sample.vmdb_offset
             (new_disk_group (Sample.uuid_of Sample.guid_dg)) with
     | Ok dg => map vol_name (dg_vols dg) = [Sample.long_name]
     | _ => False
     end.
Proof. destruct host; split; vm_compute; reflexivity. Qed.

Lemma spanned_permutation_witness :
  reassemble LittleEndian 2 Sample.stream_a []
  = reassemble LittleEndian 2 Sample.stream_b []
  /\ forall dg,
      (s <- reassemble LittleEndian 2 Sample.stream_a [] ;;
       spanned_finish s dg)
      = (s <- reassemble LittleEndian 2 Sample.stream_b [] ;;
         spanned_finish s dg).
Proof.
  apply (spanned_permutation LittleEndian 2 (Sample.be_bytes 4 9)
           (Sample.be_bytes 2 2)).
  - apply Forall2_cons; [split; vm_compute; reflexivity|].
    apply Forall2_cons; [split; vm_compute; reflexivity|].
    apply Forall2_cons; [split; vm_compute; reflexivity|].
    apply Forall2_nil.
  - vm_compute. apply perm_swap.
  - apply Forall_cons; [intros _; split; vm_compute; reflexivity|].
    apply Forall_cons; [intros H; vm_compute in H; discriminate|].
    apply Forall_cons; [intros _; split; vm_compute; reflexivity|].
    apply Forall_nil.
  - vm_compute. apply NoDup_cons; [|apply NoDup_cons; [|apply NoDup_nil]].
    + intros [H | []]. discriminate.
    + intros [].
Defined.

(** C5, the code at the failing input: the image [Example.wide_disk] holds
    a volume record in the 256 entries of the spanned record 9, in ascending
    or in descending order.  The buffer of the record is allocated from the
    [entries_total] field as the host reads it, which is 1 on a
    little-endian host, while the field converted with [be16toh], as line
    1937 stores it, is 256: the copy of the first entry numbered 1 or more
    runs past the end of the buffer, and no record is reassembled, in
    either order.  On a big-endian host both orders give the group with
    the volume. *)
Theorem spanned_total_unconverted :
  host_value LittleEndian (Sample.be_bytes 2 256) = 1
  /\ be16toh (Sample.be_bytes 2 256) = 256
  /\ map vol_name (dg_vols (Sample.the_group Example.wide_registry))
     = [Sample.long_name]
  /\ forall backwards : bool,
      ldm_add_fd LittleEndian ldm_new (Example.wide_disk backwards)
        Sample.secsize "/dev/sdw"
      = (Fault, ldm_new)
      /\ ldm_add_fd BigEndian ldm_new (Example.wide_disk backwards)
           Sample.secsize "/dev/sdw"
         = (Ok tt, Example.wide_registry).
Proof.
  split; [reflexivity|]. split; [reflexivity|].
  split; [vm_compute; reflexivity|].
  intros [|]; split; vm_compute; reflexivity.
Qed.

(** ** Fuel *)

Lemma wrap16_nonneg (x : Z) : 0 <= wrap 16 x.
Proof. unfold wrap. apply Z.mod_pos_bound. reflexivity. Qed.

Lemma member_be_nonneg (l : layout) (m : mem) (p : Z) (f : string) (x : Z) :
  member_be l m p f = Ok x -> 0 <= x.
Proof.
  unfold member_be. intros H. bind_inv H. inversion H; subst.
  apply be_value_nonneg. lia.
Qed.

(** The fuel [_parse_vblks] gives its loop is enough: with any more of it
    the loop returns the same. *)
Lemma _parse_vblks_fuel (host : byte_order) (config : mem)
    (vmdb size32 first : Z) (extra : nat) (dg : LDMDiskGroup)
    (spanned : list _spanned_rec) :
  0 <= vmdb ->
  member_be _vmdb config vmdb "vblk_first_offset" = Ok first ->
  let vblk_data_size := wrap 16 (wrap 16 size32 - sizeof _vblk_head) in
  vblk_loop host (S (List.length config) + extra) config vblk_data_size
    (vmdb + first) dg spanned
  = vblk_loop host (S (List.length config)) config vblk_data_size
      (vmdb + first) dg spanned.
Proof.
  intros Hvmdb Hfirst ds. apply member_be_nonneg in Hfirst.
  apply vblk_loop_fuel; [apply wrap16_nonneg|].
  unfold mem_len. lia.
Qed.

(** The read loops never run out of fuel either. *)
Lemma pread_loop_fuel (fd : Device) (start count : Z) :
  forall fuel extra buf,
    count - mem_len buf <= Z.of_nat fuel ->
    pread_loop fd (fuel + extra) start count buf
    = pread_loop fd fuel start count buf.
Proof.
  induction fuel as [|fuel IH]; intros extra buf Hle.
  - cbn [Nat.add]. destruct extra as [|extra]; [reflexivity|].
    cbn [pread_loop].
    destruct (mem_len buf <? count) eqn:E; [|reflexivity].
    apply Z.ltb_lt in E. lia.
  - cbn [Nat.add pread_loop].
    destruct (mem_len buf <? count) eqn:E; [|reflexivity]. cbn [negb].
    apply Z.ltb_lt in E.
    destruct (dev_pread fd (start + mem_len buf) (count - mem_len buf))
      as [[|b bs]|]; try reflexivity.
    apply IH. unfold mem_len in *. rewrite length_app.
    destruct (Z.to_nat (count - Z.of_nat (List.length buf))) eqn:En; [lia|].
    cbn [firstn List.length]. lia.
Qed.
(** * Further properties *)

Lemma _parse_vblk_comp_parts (revision flags : Z) (m : mem) (vblk : Z)
    (comp : LDMComponent) :
  _parse_vblk_comp revision flags m vblk = Ok comp -> comp_parts comp = [].
Proof.
  unfold _parse_vblk_comp. intros H.
  destruct (negb _); [discriminate|].
  bind_inv H. destruct a. bind_inv H. destruct a. bind_inv H. bind_inv H.
  destruct (component_type_of a0); [|discriminate].
  bind_inv H. destruct a1. bind_inv H. destruct a1.
  destruct (flag flags 16).
  - bind_inv H. destruct a1. bind_inv H. destruct a1. inversion H.
    reflexivity.
  - inversion H. reflexivity.
Qed.

Lemma _parse_vblk_no_parts (m : mem) (data : Z) (dg dg' : LDMDiskGroup) :
  no_parts dg -> _parse_vblk m data dg = Ok dg' -> no_parts dg'.
Proof.
  unfold _parse_vblk, no_parts. intros Hn H. bind_inv H.
  repeat match type of H with
         | (if ?c then _ else _) = _ => destruct c
         end; try discriminate.
  - inversion H; subst. assumption.
  - bind_inv H. bind_inv H. inversion H; subst. assumption.
  - bind_inv H. bind_inv H. inversion H; subst. simpl.
    apply Forall_app. split; [assumption|]. repeat constructor.
    eapply _parse_vblk_comp_parts; eauto.
  - bind_inv H. bind_inv H. inversion H; subst. assumption.
  - bind_inv H. bind_inv H. inversion H; subst. assumption.
  - bind_inv H. unfold _parse_vblk_disk_group in H.
    destruct (_ && _); [discriminate|].
    bind_inv H. destruct a1. bind_inv H. destruct a1.
    inversion H; subst. assumption.
Qed.

Lemma spanned_finish_no_parts :
  forall spanned dg dg',
    no_parts dg -> spanned_finish spanned dg = Ok dg' -> no_parts dg'.
Proof.
  induction spanned as [|rec rest IH]; intros dg dg' Hn H; simpl in H.
  - inversion H; subst. assumption.
  - destruct (negb _); [discriminate|]. bind_inv H.
    eapply IH; [|eassumption]. eapply _parse_vblk_no_parts; eauto.
Qed.

Lemma vblk_loop_no_parts (host : byte_order) (config : mem) (ds : Z) :
  forall fuel vblk dg spanned dg' spanned',
    no_parts dg ->
    vblk_loop host fuel config ds vblk dg spanned = Ok (dg', spanned') ->
    no_parts dg'.
Proof.
  induction fuel as [|fuel IH]; intros vblk dg spanned dg' spanned' Hn H;
    cbn [vblk_loop] in H; [discriminate|].
  bind_inv H. destruct (negb a).
  { inversion H; subst. assumption. }
  bind_inv H. destruct (_ && _); [discriminate|].
  destruct (_ >? 1).
  - bind_inv H. bind_inv H. eauto.
  - bind_inv H. eapply IH; [|eassumption].
    eapply _parse_vblk_no_parts; eauto.
Qed.

(** A group that [_parse_vblks] returns is what [resolve] makes of a draft
    in which no volume has a component and no component a partition. *)
Lemma _parse_vblks_resolve (host : byte_order) (config : mem) (vmdb : Z)
    (dg0 dg : LDMDiskGroup) :
  _parse_vblks host config vmdb dg0 = Ok dg ->
  exists draft, no_comps draft /\ no_parts draft /\ resolve draft = Ok dg.
Proof.
  unfold _parse_vblks. intros H.
  bind_inv H. bind_inv H. bind_inv H. bind_inv H. bind_inv H. bind_inv H.
  bind_inv H. bind_inv H. destruct a6 as [dg1 spanned]. bind_inv H.
  exists a6. split; [|split; [|assumption]].
  - eapply spanned_finish_no_comps; [|eassumption].
    eapply vblk_loop_no_comps; [|eassumption]. constructor.
  - eapply spanned_finish_no_parts; [|eassumption].
    eapply vblk_loop_no_parts; [|eassumption]. constructor.
Qed.

(** *** What [resolve] returns, loop by loop *)


Lemma find_disk_None (id : Z) :
  forall disks j,
    find_disk disks id j = None ->
    Forall (fun disk => disk_id disk <> id) disks.
Proof.
  induction disks as [|disk disks IH]; intros j H; simpl in H;
    [constructor|].
  destruct (disk_id disk =? id) eqn:Heq; [discriminate|].
  apply Z.eqb_neq in Heq. constructor; eauto.
Qed.

Lemma add_to_component_spec (part : LDMPartition) :
  forall comps comps',
    add_to_component comps part = Some comps' ->
    map comp_record comps' = map comp_record comps
    /\ Permutation (all_parts comps') (part :: all_parts comps)
    /\ forall Q : Z -> LDMPartition -> Prop,
        Q (part_parent_id part) part ->
        Forall (fun c => Forall (Q (comp_id c)) (comp_parts c)) comps ->
        Forall (fun c => Forall (Q (comp_id c)) (comp_parts c)) comps'.
Proof.
  induction comps as [|comp comps IH]; intros comps' H; simpl in H;
    [discriminate|].
  destruct (comp_id comp =? part_parent_id part) eqn:Heq.
  - inversion H; subst. clear H. apply Z.eqb_eq in Heq.
    split; [reflexivity|]. split.
    + unfold all_parts. simpl. rewrite <- app_assoc. simpl.
      apply Permutation_sym. apply Permutation_middle.
    + intros Q Hq Hall. inversion Hall; subst.
      constructor; [|assumption]. simpl. apply Forall_app.
      split; [assumption|]. constructor; [|constructor]. congruence.
  - destruct (add_to_component comps part) as [cs|] eqn:Hr; [|discriminate].
    inversion H; subst. clear H.
    destruct (IH cs eq_refl) as (Hrec & Hperm & Hq).
    split; [simpl; congruence|]. split.
    + unfold all_parts in *. simpl.
      eapply Permutation_trans;
        [apply Permutation_app_head; exact Hperm|].
      apply Permutation_sym. apply Permutation_middle.
    + intros Q Hp Hall. inversion Hall; subst. constructor; auto.
Qed.

Lemma add_to_component_None (part : LDMPartition) :
  forall comps,
    add_to_component comps part = None ->
    Forall (fun c => comp_id c <> part_parent_id part) comps.
Proof.
  induction comps as [|comp comps IH]; intros H; simpl in H; [constructor|].
  destruct (comp_id comp =? part_parent_id part) eqn:Heq; [discriminate|].
  apply Z.eqb_neq in Heq.
  destruct (add_to_component comps part); [discriminate|].
  constructor; auto.
Qed.

Lemma add_to_volume_spec (comp : LDMComponent) :
  forall vols vols',
    add_to_volume vols comp = Some vols' ->
    map vol_record vols' = map vol_record vols
    /\ Permutation (all_comps vols') (comp :: all_comps vols)
    /\ forall Q : Z -> LDMComponent -> Prop,
        Q (comp_parent_id comp) comp ->
        Forall (fun v => Forall (Q (vol_id v)) (vol_comps v)) vols ->
        Forall (fun v => Forall (Q (vol_id v)) (vol_comps v)) vols'.
Proof.
  induction vols as [|vol vols IH]; intros vols' H; simpl in H;
    [discriminate|].
  destruct (vol_id vol =? comp_parent_id comp) eqn:Heq.
  - inversion H; subst. clear H. apply Z.eqb_eq in Heq.
    split; [reflexivity|]. split.
    + unfold all_comps. simpl. rewrite <- app_assoc. simpl.
      apply Permutation_sym. apply Permutation_middle.
    + intros Q Hq Hall. inversion Hall; subst.
      constructor; [|assumption]. simpl. apply Forall_app.
      split; [assumption|]. constructor; [|constructor]. congruence.
  - destruct (add_to_volume vols comp) as [vs|] eqn:Hr; [|discriminate].
    inversion H; subst. clear H.
    destruct (IH vs eq_refl) as (Hrec & Hperm & Hq).
    split; [simpl; congruence|]. split.
    + unfold all_comps in *. simpl.
      eapply Permutation_trans;
        [apply Permutation_app_head; exact Hperm|].
      apply Permutation_sym. apply Permutation_middle.
    + intros Q Hp Hall. inversion Hall; subst. constructor; auto.
Qed.

Lemma add_to_volume_None (comp : LDMComponent) :
  forall vols,
    add_to_volume vols comp = None ->
    Forall (fun v => vol_id v <> comp_parent_id comp) vols.
Proof.
  induction vols as [|vol vols IH]; intros H; simpl in H; [constructor|].
  destruct (vol_id vol =? comp_parent_id comp) eqn:Heq; [discriminate|].
  apply Z.eqb_neq in Heq.
  destruct (add_to_volume vols comp); [discriminate|].
  constructor; auto.
Qed.


Lemma link_parts_spec (disks : list LDMDisk) :
  forall parts comps parts' comps',
    link_parts disks parts comps = Ok (parts', comps') ->
    Forall2 (linked_to disks) parts parts'
    /\ map comp_record comps' = map comp_record comps
    /\ Permutation (all_parts comps') (all_parts comps ++ parts')
    /\ forall Q : Z -> LDMPartition -> Prop,
        Forall (fun p => Q (part_parent_id p) p) parts' ->
        Forall (fun c => Forall (Q (comp_id c)) (comp_parts c)) comps ->
        Forall (fun c => Forall (Q (comp_id c)) (comp_parts c)) comps'.
Proof.
  induction parts as [|part parts IH]; intros comps parts' comps' H;
    cbn [link_parts] in H.
  - inversion H; subst. split; [constructor|]. split; [reflexivity|].
    split; [rewrite app_nil_r; apply Permutation_refl|]. auto.
  - destruct (find_disk disks (part_disk_id part) 0) as [j|] eqn:Hf;
      [|discriminate].
    destruct (add_to_component comps (set_part_disk part (Some j)))
      as [cs|] eqn:Hadd; [|discriminate].
    bind_inv H. destruct a as [ps cs']. inversion H; subst. clear H.
    apply add_to_component_spec in Hadd.
    destruct Hadd as (Hrec & Hperm & Hq).
    apply IH in Ha. destruct Ha as (Hl & Hrec' & Hperm' & Hq').
    split; [constructor; [exists j; auto|assumption]|].
    split; [congruence|]. split.
    + eapply Permutation_trans; [exact Hperm'|].
      eapply Permutation_trans;
        [apply Permutation_app_tail; exact Hperm|].
      simpl. apply Permutation_middle.
    + intros Q Hall Hc. inversion Hall; subst.
      apply Hq'; [assumption|]. apply Hq; assumption.
Qed.

Lemma sort_insert_perm {A : Type} (cmp : A -> A -> Z) (x : A) :
  forall l, Permutation (sort_insert cmp x l) (x :: l).
Proof.
  induction l as [|y l IH]; simpl; [apply Permutation_refl|].
  destruct (cmp x y <=? 0); [apply Permutation_refl|].
  eapply Permutation_trans; [apply perm_skip; exact IH|]. apply perm_swap.
Qed.

Lemma g_array_sort_perm {A : Type} (cmp : A -> A -> Z) (l : list A) :
  Permutation (g_array_sort cmp l) l.
Proof.
  induction l as [|x l IH]; simpl; [constructor|].
  eapply Permutation_trans; [apply sort_insert_perm|].
  apply perm_skip. exact IH.
Qed.

Lemma link_comps_spec :
  forall comps vols comps' vols',
    link_comps comps vols = Ok (comps', vols') ->
    Forall2 sorted_of comps comps'
    /\ map vol_record vols' = map vol_record vols
    /\ Permutation (all_comps vols') (all_comps vols ++ comps')
    /\ forall Q : Z -> LDMComponent -> Prop,
        Forall (fun c => Q (comp_parent_id c) c) comps' ->
        Forall (fun v => Forall (Q (vol_id v)) (vol_comps v)) vols ->
        Forall (fun v => Forall (Q (vol_id v)) (vol_comps v)) vols'.
Proof.
  induction comps as [|comp comps IH]; intros vols comps' vols' H;
    cbn [link_comps] in H.
  - inversion H; subst. split; [constructor|]. split; [reflexivity|].
    split; [rewrite app_nil_r; apply Permutation_refl|]. auto.
  - destruct (Z.of_nat (List.length (comp_parts comp)) =? comp_n_parts comp)
      eqn:Hn; [|discriminate]. cbn [negb] in H. apply Z.eqb_eq in Hn.
    match type of H with
    | match add_to_volume _ ?c with _ => _ end = _ =>
        destruct (add_to_volume vols c) as [vs|] eqn:Hadd; [|discriminate]
    end.
    bind_inv H. destruct a as [cs vs']. inversion H; subst. clear H.
    apply add_to_volume_spec in Hadd.
    destruct Hadd as (Hrec & Hperm & Hq).
    apply IH in Ha. destruct Ha as (Hl & Hrec' & Hperm' & Hq').
    split; [constructor; [split; auto|assumption]|].
    split; [congruence|]. split.
    + eapply Permutation_trans; [exact Hperm'|].
      eapply Permutation_trans;
        [apply Permutation_app_tail; exact Hperm|].
      simpl. apply Permutation_middle.
    + intros Q Hall Hc. inversion Hall; subst.
      apply Hq'; [assumption|]. apply Hq; assumption.
Qed.

Lemma check_vols_spec (name : option string) :
  forall vols vols',
    check_vols name vols = Ok vols' ->
    Forall2 (fun vol vol' =>
               Z.of_nat (List.length (vol_comps vol)) = vol_n_comps vol
               /\ vol' = set_vol_dgname vol name) vols vols'.
Proof.
  induction vols as [|vol vols IH]; intros vols' H; simpl in H.
  - inversion H. constructor.
  - destruct (Z.of_nat (List.length (vol_comps vol)) =? vol_n_comps vol)
      eqn:Hn; [|discriminate]. cbn [negb] in H. apply Z.eqb_eq in Hn.
    bind_inv H. inversion H; subst. constructor; auto.
Qed.

Lemma resolve_resolved (dg dg' : LDMDiskGroup) :
  resolve dg = Ok dg' -> resolved dg dg'.
Proof.
  unfold resolve. intros H.
  destruct (Z.of_nat (List.length (dg_disks dg)) =? dg_n_disks dg) eqn:Hd;
    [|discriminate].
  destruct (Z.of_nat (List.length (dg_comps dg)) =? dg_n_comps dg) eqn:Hc;
    [|discriminate].
  destruct (Z.of_nat (List.length (dg_parts dg)) =? dg_n_parts dg) eqn:Hp;
    [|discriminate].
  destruct (Z.of_nat (List.length (dg_vols dg)) =? dg_n_vols dg) eqn:Hv;
    [|discriminate].
  cbn [negb] in H. apply Z.eqb_eq in Hd, Hc, Hp, Hv.
  bind_inv H. destruct a as [parts comps]. bind_inv H.
  destruct a as [comps' vols]. bind_inv H. inversion H; subst. clear H.
  pose proof (link_parts_spec _ _ _ _ _ Ha) as (Hl & _).
  pose proof (link_comps_spec _ _ _ _ Ha0) as (Hs & _).
  constructor; simpl; auto.
  - unfold same_header. simpl. auto 10.
  - eauto.
  - eauto 6.
Qed.

(** ** The resolved topology *)

Lemma Forall2_length_eq {A B : Type} (R : A -> B -> Prop) (l : list A)
    (l' : list B) :
  Forall2 R l l' -> List.length l' = List.length l.
Proof. induction 1; simpl; congruence. Qed.

Lemma Forall2_Forall_r {A B : Type} (R : A -> B -> Prop) (P : B -> Prop) :
  (forall a b, R a b -> P b) ->
  forall l l', Forall2 R l l' -> Forall P l'.
Proof. intros HR l l'. induction 1; constructor; eauto. Qed.

Lemma sorted_of_id (comp comp' : LDMComponent) :
  sorted_of comp comp' ->
  comp_id comp' = comp_id comp
  /\ comp_parent_id comp' = comp_parent_id comp
  /\ comp_n_parts comp' = comp_n_parts comp
  /\ Permutation (comp_parts comp') (comp_parts comp)
  /\ Z.of_nat (List.length (comp_parts comp')) = comp_n_parts comp'.
Proof.
  intros (Hn & ->). simpl. repeat split; auto.
  - apply g_array_sort_perm.
  - rewrite (Permutation_length (g_array_sort_perm _ _)). exact Hn.
Qed.

Lemma sorted_of_all_parts :
  forall comps comps',
    Forall2 sorted_of comps comps' ->
    Permutation (all_parts comps') (all_parts comps).
Proof.
  induction 1 as [|c c' cs cs' Hs _ IH]; [constructor|].
  unfold all_parts in *. simpl. apply Permutation_app; [|exact IH].
  apply sorted_of_id in Hs. tauto.
Qed.

Lemma no_parts_all_parts (comps : list LDMComponent) :
  Forall (fun comp => comp_parts comp = []) comps -> all_parts comps = [].
Proof.
  induction 1 as [|c cs Hc _ IH]; [reflexivity|].
  unfold all_parts in *. simpl. rewrite Hc, IH. reflexivity.
Qed.

Lemma no_comps_all_comps (vols : list LDMVolume) :
  Forall (fun vol => vol_comps vol = []) vols -> all_comps vols = [].
Proof.
  induction 1 as [|c cs Hc _ IH]; [reflexivity|].
  unfold all_comps in *. simpl. rewrite Hc, IH. reflexivity.
Qed.

Lemma Forall_nil_children {A B : Type} (f : A -> list B)
    (Q : A -> B -> Prop) (l : list A) :
  Forall (fun a => f a = []) l -> Forall (fun a => Forall (Q a) (f a)) l.
Proof.
  intros H. eapply Forall_impl; [|exact H]. simpl. intros a ->. constructor.
Qed.

(** The children of the components of a resolved group satisfy [Q] when the
    linked partitions do. *)
Lemma resolved_parts (draft dg : LDMDiskGroup)
    (Q : Z -> LDMPartition -> Prop) :
  no_parts draft -> resolved draft dg ->
  Forall (fun p => Q (part_parent_id p) p) (dg_parts dg) ->
  Forall (fun c => Forall (Q (comp_id c)) (comp_parts c)) (dg_comps dg).
Proof.
  intros Hnp Hr Hq. destruct (res_comps _ _ Hr) as (comps & Hlp & Hs).
  apply link_parts_spec in Hlp. destruct Hlp as (_ & _ & _ & Hall).
  specialize (Hall Q Hq (Forall_nil_children _ _ _ Hnp)).
  clear - Hall Hs. induction Hs as [|c c' cs cs' Hc _ IH]; [constructor|].
  inversion Hall; subst. constructor; [|auto].
  apply sorted_of_id in Hc. destruct Hc as (Hid & _ & _ & Hperm & _).
  rewrite Hid. eapply Permutation_Forall; [|eassumption].
  apply Permutation_sym. exact Hperm.
Qed.

(** The children of the volumes of a resolved group satisfy [Q] when the
    sorted components do. *)
Lemma resolved_comps (draft dg : LDMDiskGroup)
    (Q : Z -> LDMComponent -> Prop) :
  no_comps draft -> resolved draft dg ->
  Forall (fun c => Q (comp_parent_id c) c) (dg_comps dg) ->
  Forall (fun v => Forall (Q (vol_id v)) (vol_comps v)) (dg_vols dg).
Proof.
  intros Hnc Hr Hq.
  destruct (res_vols _ _ Hr) as (comps & vols & _ & Hlc & Hcv).
  apply link_comps_spec in Hlc. destruct Hlc as (_ & _ & _ & Hall).
  specialize (Hall Q Hq (Forall_nil_children _ _ _ Hnc)).
  apply check_vols_spec in Hcv.
  clear - Hall Hcv. induction Hcv as [|v v' vs vs' Hv _ IH]; [constructor|].
  inversion Hall; subst. constructor; [|auto].
  destruct Hv as (_ & ->). simpl. assumption.
Qed.

Lemma resolved_vol_counts (draft dg : LDMDiskGroup) :
  resolved draft dg ->
  Forall (fun v => Z.of_nat (List.length (vol_comps v)) = vol_n_comps v)
    (dg_vols dg).
Proof.
  intros Hr. destruct (res_vols _ _ Hr) as (comps & vols & _ & _ & Hcv).
  apply check_vols_spec in Hcv.
  eapply Forall2_Forall_r; [|exact Hcv]. simpl.
  intros v v' (Hn & ->). simpl. exact Hn.
Qed.

Lemma resolved_comp_counts (draft dg : LDMDiskGroup) :
  resolved draft dg ->
  Forall (fun c => Z.of_nat (List.length (comp_parts c)) = comp_n_parts c)
    (dg_comps dg).
Proof.
  intros Hr. destruct (res_comps _ _ Hr) as (comps & _ & Hs).
  eapply Forall2_Forall_r; [|exact Hs]. simpl.
  intros c c' Hc. apply sorted_of_id in Hc. tauto.
Qed.


(** X1: in every group that [_parse_vblks] returns, the counts the VMDB
    declares are the lengths of the four arrays, every volume has as many
    components as its record declares and every component as many
    partitions as its record declares. *)
Theorem parsed_counts_match (host : byte_order) (config : mem) (vmdb : Z)
    (dg0 dg : LDMDiskGroup) :
  _parse_vblks host config vmdb dg0 = Ok dg ->
  Z.of_nat (List.length (dg_disks dg)) = dg_n_disks dg
  /\ Z.of_nat (List.length (dg_comps dg)) = dg_n_comps dg
  /\ Z.of_nat (List.length (dg_parts dg)) = dg_n_parts dg
  /\ Z.of_nat (List.length (ldm_disk_group_get_volumes dg)) = dg_n_vols dg
  /\ forall vol,
      In vol (ldm_disk_group_get_volumes dg) ->
      Z.of_nat (List.length (ldm_volume_get_components vol))
      = vol_n_comps vol
      /\ forall comp,
          In comp (ldm_volume_get_components vol) ->
          Z.of_nat (List.length (ldm_component_get_partitions comp))
          = comp_n_parts comp.
Proof.
  intros H. apply _parse_vblks_resolve in H.
  destruct H as (draft & Hnc & Hnp & H). apply resolve_resolved in H.
  destruct (res_header _ _ H) as ((_ & _ & Hd & Hc & Hp & Hv) & _).
  unfold ldm_disk_group_get_volumes, ldm_volume_get_components,
    ldm_component_get_partitions.
  destruct (res_comps _ _ H) as (comps & Hlp & Hs).
  destruct (res_vols _ _ H) as (comps' & vols & Hlp' & Hlc & Hcv).
  pose proof (link_parts_spec _ _ _ _ _ Hlp) as (_ & Hrec & _).
  pose proof (link_comps_spec _ _ _ _ Hlc) as (_ & Hrecv & _).
  split.
  { rewrite (res_disks _ _ H), length_map, Hd. apply (res_n_disks _ _ H). }
  split.
  { rewrite (Forall2_length_eq _ _ _ Hs), Hc.
    rewrite <- (length_map comp_record comps), Hrec, length_map.
    apply (res_n_comps _ _ H). }
  split.
  { rewrite (Forall2_length_eq _ _ _ (res_parts _ _ H)), Hp.
    apply (res_n_parts _ _ H). }
  split.
  { rewrite (Forall2_length_eq _ _ _ (check_vols_spec _ _ _ Hcv)), Hv.
    rewrite <- (length_map vol_record vols), Hrecv, length_map.
    apply (res_n_vols _ _ H). }
  intros vol Hin. split.
  - pose proof (resolved_vol_counts _ _ H) as Hall.
    rewrite Forall_forall in Hall. auto.
  - intros comp Hinc.
    pose proof (resolved_comps draft dg
                  (fun _ c => Z.of_nat (List.length (comp_parts c))
                              = comp_n_parts c) Hnc H
                  (resolved_comp_counts _ _ H)) as Hall.
    rewrite Forall_forall in Hall. specialize (Hall vol Hin).
    rewrite Forall_forall in Hall. auto.
Qed.

Lemma parsed_counts_match_witness :
  Z.of_nat (List.length (dg_disks Sample.mirror_group))
  = dg_n_disks Sample.mirror_group
  /\ Z.of_nat (List.length (dg_comps Sample.mirror_group))
     = dg_n_comps Sample.mirror_group
  /\ Z.of_nat (List.length (dg_parts Sample.mirror_group))
     = dg_n_parts Sample.mirror_group
  /\ Z.of_nat (List.length (ldm_disk_group_get_volumes Sample.mirror_group))
     = dg_n_vols Sample.mirror_group
  /\ forall vol,
      In vol (ldm_disk_group_get_volumes Sample.mirror_group) ->
      Z.of_nat (List.length (ldm_volume_get_components vol))
      = vol_n_comps vol
      /\ forall comp,
          In comp (ldm_volume_get_components vol) ->
          Z.of_nat (List.length (ldm_component_get_partitions comp))
          = comp_n_parts comp.
Proof.
  apply (parsed_counts_match LittleEndian (Sample.mirror_config 7)
           Sample.vmdb_offset
           (new_disk_group (Sample.uuid_of Sample.guid_dg))).
  vm_compute. reflexivity.
Defined.


(** X2: in every group that [_parse_vblks] returns, a component that a
    volume holds names this volume as its parent, and a partition that the
    component holds names this component as its parent. *)
Theorem parsed_children_name_their_parent (host : byte_order) (config : mem)
    (vmdb : Z) (dg0 dg : LDMDiskGroup) :
  _parse_vblks host config vmdb dg0 = Ok dg ->
  forall vol comp,
    In vol (ldm_disk_group_get_volumes dg) ->
    In comp (ldm_volume_get_components vol) ->
    comp_parent_id comp = vol_id vol
    /\ forall part,
        In part (ldm_component_get_partitions comp) ->
        part_parent_id part = comp_id comp.
Proof.
  intros H vol comp Hv Hc. apply _parse_vblks_resolve in H.
  destruct H as (draft & Hnc & Hnp & H). apply resolve_resolved in H.
  assert (Hparts : Forall (fun c => Forall (fun p => part_parent_id p
                                                     = comp_id c)
                                      (comp_parts c)) (dg_comps dg)).
  { apply (resolved_parts draft dg (fun id p => part_parent_id p = id) Hnp H).
    apply Forall_forall. reflexivity. }
  split.
  - assert (Hall : Forall (fun v => Forall (fun c => comp_parent_id c
                                                      = vol_id v)
                                    (vol_comps v)) (dg_vols dg)).
    { apply (resolved_comps draft dg (fun id c => comp_parent_id c = id)
               Hnc H).
      apply Forall_forall. reflexivity. }
    rewrite Forall_forall in Hall. specialize (Hall vol Hv).
    rewrite Forall_forall in Hall. exact (Hall comp Hc).
  - pose proof (resolved_comps draft dg
                  (fun _ c => Forall (fun p => part_parent_id p = comp_id c)
                                (comp_parts c)) Hnc H Hparts) as Hall.
    rewrite Forall_forall in Hall. specialize (Hall vol Hv).
    rewrite Forall_forall in Hall. specialize (Hall comp Hc).
    rewrite Forall_forall in Hall. exact Hall.
Qed.

Lemma parsed_children_name_their_parent_witness :
  comp_parent_id (Example.s3_leg 1) = vol_id Sample.s3_volume
  /\ forall part,
      In part (ldm_component_get_partitions (Example.s3_leg 1)) ->
      part_parent_id part = comp_id (Example.s3_leg 1).
Proof.
  apply (parsed_children_name_their_parent LittleEndian
           (Sample.mirror_config 7) Sample.vmdb_offset
           (new_disk_group (Sample.uuid_of Sample.guid_dg))
           Sample.mirror_group).
  - vm_compute. reflexivity.
  - left. reflexivity.
  - right. left. reflexivity.
Defined.


(** X3: in every group that [_parse_vblks] returns, the partitions held by
    the components are the partitions of the group, each once, and the
    components held by the volumes are the components of the group, each
    once. *)
Theorem parsed_objects_have_one_parent (host : byte_order) (config : mem)
    (vmdb : Z) (dg0 dg : LDMDiskGroup) :
  _parse_vblks host config vmdb dg0 = Ok dg ->
  Permutation
    (List.concat (map ldm_component_get_partitions (dg_comps dg)))
    (dg_parts dg)
  /\ Permutation
       (List.concat
          (map ldm_volume_get_components (ldm_disk_group_get_volumes dg)))
       (dg_comps dg).
Proof.
  intros H. apply _parse_vblks_resolve in H.
  destruct H as (draft & Hnc & Hnp & H). apply resolve_resolved in H.
  destruct (res_vols _ _ H) as (comps & vols & Hlp & Hlc & Hcv).
  destruct (res_comps _ _ H) as (comps' & Hlp' & Hs).
  rewrite Hlp in Hlp'. inversion Hlp'; subst comps'. clear Hlp'.
  apply link_parts_spec in Hlp. destruct Hlp as (_ & _ & Hperm & _).
  apply link_comps_spec in Hlc. destruct Hlc as (_ & _ & Hpermv & _).
  rewrite (no_parts_all_parts _ Hnp) in Hperm.
  rewrite (no_comps_all_comps _ Hnc) in Hpermv. simpl in Hperm, Hpermv.
  split.
  - eapply Permutation_trans; [|exact Hperm].
    apply (sorted_of_all_parts _ _ Hs).
  - apply check_vols_comps in Hcv.
    change (List.concat (map ldm_volume_get_components
                           (ldm_disk_group_get_volumes dg)))
      with (List.concat (map vol_comps (dg_vols dg))).
    rewrite Hcv. exact Hpermv.
Qed.

Lemma parsed_objects_have_one_parent_witness :
  Permutation
    (List.concat
       (map ldm_component_get_partitions (dg_comps Sample.mirror_group)))
    (dg_parts Sample.mirror_group)
  /\ Permutation
       (List.concat
          (map ldm_volume_get_components
             (ldm_disk_group_get_volumes Sample.mirror_group)))
       (dg_comps Sample.mirror_group).
Proof.
  apply (parsed_objects_have_one_parent LittleEndian (Sample.mirror_config 7)
           Sample.vmdb_offset
           (new_disk_group (Sample.uuid_of Sample.guid_dg))).
  vm_compute. reflexivity.
Defined.


(** ** Failures of the resolver *)

Lemma link_parts_outcome (disks : list LDMDisk) :
  forall parts comps, ok_or_invalid (link_parts disks parts comps).
Proof.
  unfold ok_or_invalid.
  induction parts as [|part parts IH]; intros comps; cbn [link_parts].
  - eauto.
  - destruct (find_disk disks (part_disk_id part) 0); [|auto].
    destruct (add_to_component comps _) as [cs|]; [|auto].
    destruct (IH cs) as [([ps cs'] & ->) | ->]; simpl; eauto.
Qed.

Lemma link_comps_outcome :
  forall comps vols, ok_or_invalid (link_comps comps vols).
Proof.
  unfold ok_or_invalid.
  induction comps as [|comp comps IH]; intros vols; cbn [link_comps].
  - eauto.
  - destruct (negb _); [auto|].
    destruct (add_to_volume vols _) as [vs|]; [|auto].
    destruct (IH vs) as [([cs vs'] & ->) | ->]; simpl; eauto.
Qed.

Lemma check_vols_outcome (name : option string) :
  forall vols, ok_or_invalid (check_vols name vols).
Proof.
  unfold ok_or_invalid.
  induction vols as [|vol vols IH]; simpl.
  - eauto.
  - destruct (negb _); [auto|].
    destruct IH as [(vs & ->) | ->]; simpl; eauto.
Qed.

Lemma resolve_outcome (dg : LDMDiskGroup) : ok_or_invalid (resolve dg).
Proof.
  unfold resolve.
  repeat match goal with
         | |- ok_or_invalid (if ?c then _ else _) =>
             destruct c; [right; reflexivity|]
         end.
  destruct (link_parts_outcome (dg_disks dg) (dg_parts dg) (dg_comps dg))
    as [([ps cs] & ->) | ->]; [|right; reflexivity]. simpl.
  destruct (link_comps_outcome cs (dg_vols dg)) as [([cs' vs] & ->) | ->];
    [|right; reflexivity]. simpl.
  destruct (check_vols_outcome (dg_name dg) vs) as [(vs' & ->) | ->];
    [|right; reflexivity]. simpl.
  left. eauto.
Qed.

Lemma comp_ids_kept (id : Z) (comps comps' : list LDMComponent) :
  map comp_record comps' = map comp_record comps ->
  Forall (fun c => comp_id c <> id) comps ->
  Forall (fun c => comp_id c <> id) comps'.
Proof.
  intros Hrec Hall.
  apply (Forall_map comp_record (fun c => comp_id c <> id)) in Hall.
  rewrite <- Hrec in Hall.
  apply (Forall_map comp_record (fun c => comp_id c <> id)). exact Hall.
Qed.

Lemma vol_ids_kept (id : Z) (vols vols' : list LDMVolume) :
  map vol_record vols' = map vol_record vols ->
  Forall (fun v => vol_id v <> id) vols ->
  Forall (fun v => vol_id v <> id) vols'.
Proof.
  intros Hrec Hall.
  apply (Forall_map vol_record (fun v => vol_id v <> id)) in Hall.
  rewrite <- Hrec in Hall.
  apply (Forall_map vol_record (fun v => vol_id v <> id)). exact Hall.
Qed.

Lemma add_to_component_absent (part : LDMPartition) :
  forall comps,
    Forall (fun c => comp_id c <> part_parent_id part) comps ->
    add_to_component comps part = None.
Proof.
  induction 1 as [|c cs Hc _ IH]; simpl; [reflexivity|].
  apply Z.eqb_neq in Hc. rewrite Hc, IH. reflexivity.
Qed.

Lemma add_to_volume_absent (comp : LDMComponent) :
  forall vols,
    Forall (fun v => vol_id v <> comp_parent_id comp) vols ->
    add_to_volume vols comp = None.
Proof.
  induction 1 as [|v vs Hv _ IH]; simpl; [reflexivity|].
  apply Z.eqb_neq in Hv. rewrite Hv, IH. reflexivity.
Qed.

Lemma find_disk_absent (id : Z) :
  forall disks j,
    Forall (fun disk => disk_id disk <> id) disks ->
    find_disk disks id j = None.
Proof.
  induction disks as [|d ds IH]; intros j Hall; simpl; [reflexivity|].
  inversion Hall; subst. apply Z.eqb_neq in H1. rewrite H1. auto.
Qed.

Lemma link_parts_unknown_disk (disks : list LDMDisk) (part : LDMPartition) :
  Forall (fun disk => disk_id disk <> part_disk_id part) disks ->
  forall parts comps,
    In part parts ->
    link_parts disks parts comps = Err LDM_ERROR_INVALID.
Proof.
  intros Hall. induction parts as [|p parts IH]; intros comps Hin;
    [destruct Hin|]. cbn [link_parts].
  destruct (find_disk disks (part_disk_id p) 0) as [j|] eqn:Hf; [|reflexivity].
  destruct (add_to_component comps _) as [cs|]; [|reflexivity].
  destruct Hin as [-> | Hin].
  - rewrite (find_disk_absent _ _ _ Hall) in Hf. discriminate.
  - rewrite (IH cs Hin). reflexivity.
Qed.

Lemma link_parts_unknown_component (disks : list LDMDisk)
    (part : LDMPartition) :
  forall parts comps,
    In part parts ->
    Forall (fun c => comp_id c <> part_parent_id part) comps ->
    link_parts disks parts comps = Err LDM_ERROR_INVALID.
Proof.
  induction parts as [|p parts IH]; intros comps Hin Hall;
    [destruct Hin|]. cbn [link_parts].
  destruct (find_disk disks (part_disk_id p) 0) as [j|] eqn:Hf; [|reflexivity].
  destruct (add_to_component comps _) as [cs|] eqn:Hadd; [|reflexivity].
  destruct Hin as [-> | Hin].
  - rewrite add_to_component_absent in Hadd; [discriminate|exact Hall].
  - apply add_to_component_spec in Hadd. destruct Hadd as (Hrec & _).
    rewrite (IH cs Hin (comp_ids_kept _ _ _ Hrec Hall)). reflexivity.
Qed.

Lemma link_comps_unknown_volume (comp : LDMComponent) :
  forall comps vols,
    In comp comps ->
    Forall (fun v => vol_id v <> comp_parent_id comp) vols ->
    link_comps comps vols = Err LDM_ERROR_INVALID.
Proof.
  induction comps as [|c comps IH]; intros vols Hin Hall;
    [destruct Hin|]. cbn [link_comps].
  destruct (negb _); [reflexivity|].
  destruct (add_to_volume vols _) as [vs|] eqn:Hadd; [|reflexivity].
  destruct Hin as [-> | Hin].
  - rewrite add_to_volume_absent in Hadd; [discriminate|exact Hall].
  - apply add_to_volume_spec in Hadd. destruct Hadd as (Hrec & _).
    rewrite (IH vs Hin (vol_ids_kept _ _ _ Hrec Hall)). reflexivity.
Qed.

(** X4: the resolver fails with Invalid when a partition names a disk id
    that no disk record has, when a partition names a parent that no
    component record has, and when a component names a parent that no
    volume record has. *)
Theorem resolve_dangling_reference (dg : LDMDiskGroup) :
  (exists part,
      In part (dg_parts dg)
      /\ Forall (fun disk => disk_id disk <> part_disk_id part) (dg_disks dg))
  \/ (exists part,
         In part (dg_parts dg)
         /\ Forall (fun c => comp_id c <> part_parent_id part) (dg_comps dg))
  \/ (exists comp,
         In comp (dg_comps dg)
         /\ Forall (fun v => vol_id v <> comp_parent_id comp) (dg_vols dg)) ->
  resolve dg = Err LDM_ERROR_INVALID.
Proof.
  intros H. destruct (resolve_outcome dg) as [(dg' & Hok) | Herr];
    [exfalso|exact Herr].
  apply resolve_resolved in Hok.
  destruct (res_vols _ _ Hok) as (comps & vols & Hlp & Hlc & _).
  destruct H as [(part & Hin & Hall) | [(part & Hin & Hall)
                                       | (comp & Hin & Hall)]].
  - rewrite (link_parts_unknown_disk _ _ Hall _ _ Hin) in Hlp. discriminate.
  - rewrite (link_parts_unknown_component _ _ _ _ Hin Hall) in Hlp.
    discriminate.
  - pose proof (link_parts_spec _ _ _ _ _ Hlp) as (_ & Hrec & _).
    apply (in_map comp_record) in Hin. rewrite <- Hrec in Hin.
    apply in_map_iff in Hin. destruct Hin as (comp' & Heq & Hin').
    assert (Hpid : comp_parent_id comp' = comp_parent_id comp)
      by (apply (f_equal comp_parent_id) in Heq; exact Heq).
    rewrite <- Hpid in Hall.
    rewrite (link_comps_unknown_volume _ _ _ Hin' Hall) in Hlc.
    discriminate.
Qed.

Lemma resolve_dangling_reference_witness :
  resolve Example.dangling = Err LDM_ERROR_INVALID.
Proof.
  apply resolve_dangling_reference. left.
  exists (mkPartition 30 20 "p1" 0 0 0 0 9 None).
  split; [left; reflexivity|apply Forall_nil].
Defined.


(** ** [ldm_add_fd] *)

Lemma member_be_plain (l : layout) (m : mem) (p : Z) (f : string) :
  (exists x, member_be l m p f = Ok x) \/ member_be l m p f = Fault.
Proof.
  unfold member_be, member, load.
  destruct (_ && _); simpl; eauto.
Qed.

(** The loop over the disks of the group never fails with an error. *)
Lemma set_disk_device_plain (guid : uuid_t) (path : string) (privhead : mem) :
  forall n disks,
    (exists disks', set_disk_device n disks guid path privhead = Ok disks')
    \/ set_disk_device n disks guid path privhead = Fault.
Proof.
  induction n as [|n IH]; intros disks; cbn [set_disk_device]; [eauto|].
  destruct disks as [|disk disks]; [auto|].
  destruct (uuid_equal guid (disk_guid disk)).
  - destruct (member_be_plain _privhead privhead 0 "logical_disk_start")
      as [(a & ->) | ->]; [|auto]. cbn [bind].
    destruct (member_be_plain _privhead privhead 0 "logical_disk_size")
      as [(b & ->) | ->]; [|auto]. cbn [bind].
    destruct (member_be_plain _privhead privhead 0 "ldm_config_start")
      as [(c & ->) | ->]; [|auto]. cbn [bind].
    destruct (member_be_plain _privhead privhead 0 "ldm_config_size")
      as [(d & ->) | ->]; [|auto]. cbn [bind]. eauto.
  - destruct (IH disks) as [(ds & ->) | ->]; cbn [bind]; eauto.
Qed.

Lemma find_group_app (guid : uuid_t) (x : LDMDiskGroup) :
  forall l i acc,
    find_group (l ++ [x]) guid i acc
    = if uuid_equal guid (dg_guid x) then Some (i + List.length l)%nat
      else find_group l guid i acc.
Proof.
  induction l as [|c l IH]; intros i acc; simpl.
  - rewrite Nat.add_0_r. reflexivity.
  - rewrite IH. replace (S i + List.length l)%nat
      with (i + S (List.length l))%nat by lia. reflexivity.
Qed.

Lemma find_group_guids (guid : uuid_t) :
  forall l l' i acc,
    map dg_guid l = map dg_guid l' ->
    find_group l guid i acc = find_group l' guid i acc.
Proof.
  induction l as [|c l IH]; intros l' i acc H; destruct l' as [|c' l'];
    simpl in H; try discriminate; [reflexivity|].
  injection H as Hc Hl. simpl. rewrite Hc. apply IH. exact Hl.
Qed.


Lemma nth_error_list_set {A : Type} (x : A) :
  forall l i y, nth_error l i = Some y -> nth_error (list_set l i x) i = Some x.
Proof.
  induction l as [|a l IH]; intros i y H; destruct i; simpl in *;
    try discriminate; eauto.
Qed.

Lemma nth_error_list_set_other {A : Type} (x : A) :
  forall l i j, i <> j -> nth_error (list_set l i x) j = nth_error l j.
Proof.
  induction l as [|a l IH]; intros i j H; destruct i, j; simpl;
    try reflexivity; try congruence.
  apply IH. congruence.
Qed.

Lemma list_set_length {A : Type} (x : A) :
  forall l i, List.length (list_set l i x) = List.length l.
Proof.
  induction l as [|a l IH]; intros i; destruct i; simpl; auto.
Qed.

Lemma map_list_set {A B : Type} (f : A -> B) (x : A) :
  forall l i y,
    nth_error l i = Some y -> f x = f y -> map f (list_set l i x) = map f l.
Proof.
  induction l as [|a l IH]; intros i y H Hf; destruct i; simpl in *;
    try discriminate.
  - inversion H; subst. congruence.
  - f_equal. eauto.
Qed.

Lemma list_set_twice {A : Type} (x y : A) :
  forall l i, list_set (list_set l i x) i y = list_set l i y.
Proof.
  induction l as [|a l IH]; intros i; destruct i; simpl; congruence.
Qed.

Lemma nth_error_app_last {A : Type} (l : list A) (x : A) :
  nth_error (l ++ [x]) (List.length l) = Some x.
Proof. induction l; simpl; auto. Qed.

(** A successful call, taken apart: [base] is the registry once the group
    of the disk is in it, at position [i]. *)
Lemma ldm_add_fd_Ok (host : byte_order) (gs : list LDMDiskGroup)
    (fd : Device) (secsize : Z) (path : string) (o' : LDM) :
  ldm_add_fd host (Some gs) fd secsize path = (Ok tt, o') ->
  exists privhead config vmdb guid gg base i dg disks',
    reads_as fd secsize privhead config vmdb guid gg
    /\ find_group base gg O None = Some i
    /\ nth_error base i = Some dg
    /\ dg_guid dg = gg
    /\ member_be _vmdb config vmdb "committed_seq" = Ok (dg_sequence dg)
    /\ set_disk_device (Z.to_nat (dg_n_disks dg)) (dg_disks dg) guid path
         privhead = Ok disks'
    /\ o' = Some (list_set base i (set_dg_disks dg disks'))
    /\ (base = gs
        \/ (base = gs ++ [dg]
            /\ find_group gs gg O None = None
            /\ _parse_vblks host config vmdb (new_disk_group gg) = Ok dg)).
Proof.
  unfold ldm_add_fd. intros H.
  destruct (_read_privhead fd secsize) as [privhead| | |] eqn:Hph;
    cbn [try] in H; try discriminate.
  destruct (_read_config fd secsize privhead) as [config| | |] eqn:Hcfg;
    cbn [try] in H; try discriminate.
  destruct (_find_vmdb config secsize) as [vmdb| | |] eqn:Hvmdb;
    cbn [try] in H; try discriminate.
  destruct (privhead_guid privhead "disk_guid") as [guid| | |] eqn:Hguid;
    cbn [try] in H; try discriminate.
  destruct (privhead_guid privhead "disk_group_guid") as [gg| | |] eqn:Hgg;
    cbn [try] in H; try discriminate.
  exists privhead, config, vmdb, guid, gg.
  destruct (find_group gs gg 0 None) as [i|] eqn:Hfind.
  - destruct (nth_error gs i) as [dg|] eqn:Hnth; [|discriminate].
    destruct (member_be _vmdb config vmdb "committed_seq") as [c| | |] eqn:Hc;
      cbn [try] in H; try discriminate.
    destruct (c =? dg_sequence dg) eqn:Hseq; cbn [negb] in H;
      [|discriminate]. apply Z.eqb_eq in Hseq. subst c.
    destruct (set_disk_device _ _ _ _ _) as [disks'| | |] eqn:Hs;
      cbn [try] in H; try discriminate.
    inversion H; subst o'. exists gs, i, dg, disks'.
    pose proof (find_group_Some _ _ _ Hfind) as (dg1 & Hnth1 & Hg).
    rewrite Hnth in Hnth1. inversion Hnth1; subst dg1.
    unfold reads_as. auto 15.
  - destruct (_parse_vblks host config vmdb (new_disk_group gg))
      as [dg| | |] eqn:Hp; cbn [try] in H; try discriminate.
    destruct (set_disk_device _ _ _ _ _) as [disks'| | |] eqn:Hs;
      cbn [try] in H; try discriminate.
    inversion H; subst o'. exists (gs ++ [dg]), (List.length gs), dg, disks'.
    pose proof (_parse_vblks_header _ _ _ _ _ Hp) as (Hg & Hseq & _).
    simpl in Hg.
    split; [unfold reads_as; auto|].
    split; [rewrite find_group_app, Hg, uuid_equal_refl; reflexivity|].
    split; [apply nth_error_app_last|]. auto 10.
Qed.

(** X5: whenever [ldm_add_fd] fails with a [GError], whatever the error,
    the registry is what it was before the call. *)
Theorem add_error_keeps_registry (host : byte_order) (o : LDM) (fd : Device)
    (secsize : Z) (path : string) (e : LDMError) (o' : LDM) :
  ldm_add_fd host o fd secsize path = (Err e, o') -> o' = o.
Proof.
  unfold ldm_add_fd. destruct o as [gs|]; [|intros H; inversion H].
  intros H.
  destruct (_read_privhead fd secsize) as [privhead| | |];
    cbn [try] in H; try (inversion H; reflexivity).
  destruct (_read_config fd secsize privhead) as [config| | |];
    cbn [try] in H; try (inversion H; reflexivity).
  destruct (_find_vmdb config secsize) as [vmdb| | |];
    cbn [try] in H; try (inversion H; reflexivity).
  destruct (privhead_guid privhead "disk_guid") as [guid| | |];
    cbn [try] in H; try (inversion H; reflexivity).
  destruct (privhead_guid privhead "disk_group_guid") as [gg| | |];
    cbn [try] in H; try (inversion H; reflexivity).
  destruct (find_group gs gg 0 None) as [i|].
  - destruct (nth_error gs i) as [dg|]; [|inversion H].
    destruct (member_be _vmdb config vmdb "committed_seq") as [c| | |];
      cbn [try] in H; try (inversion H; reflexivity).
    destruct (negb _); [inversion H; reflexivity|].
    destruct (set_disk_device_plain guid path privhead
                (Z.to_nat (dg_n_disks dg)) (dg_disks dg))
      as [(ds & Hs) | Hs]; rewrite Hs in H; cbn [try] in H; inversion H.
  - destruct (_parse_vblks host config vmdb (new_disk_group gg))
      as [dg| | |]; cbn [try] in H; try (inversion H; reflexivity).
    destruct (set_disk_device_plain guid path privhead
                (Z.to_nat (dg_n_disks dg)) (dg_disks dg))
      as [(ds & Hs) | Hs]; rewrite Hs in H; cbn [try] in H; inversion H.
Qed.

Lemma add_error_keeps_registry_witness :
  snd (ldm_add_fd LittleEndian (Some [Sample.sdb_group]) Sample.sdc_stale
         Sample.secsize "/dev/sdc")
  = Some [Sample.sdb_group].
Proof.
  apply (add_error_keeps_registry LittleEndian (Some [Sample.sdb_group])
           Sample.sdc_stale Sample.secsize "/dev/sdc"
           LDM_ERROR_INCONSISTENT).
  vm_compute. reflexivity.
Defined.


(** What the disk loop does to the records. *)
Lemma set_disk_device_spec (guid : uuid_t) (path : string) (privhead : mem) :
  forall n disks disks',
    set_disk_device n disks guid path privhead = Ok disks' ->
    map disk_record disks' = map disk_record disks
    /\ Forall2 (fun d d' => has_device d = true -> has_device d' = true)
         disks disks'
    /\ set_disk_device n disks' guid path privhead = Ok disks'
    /\ forall disk,
        disk_with_guid guid (firstn n disks') = Some disk ->
        disk_device disk = Some path
        /\ member_be _privhead privhead 0 "logical_disk_start"
           = Ok (disk_data_start disk)
        /\ member_be _privhead privhead 0 "logical_disk_size"
           = Ok (disk_data_size disk)
        /\ member_be _privhead privhead 0 "ldm_config_start"
           = Ok (disk_metadata_start disk)
        /\ member_be _privhead privhead 0 "ldm_config_size"
           = Ok (disk_metadata_size disk).
Proof.
  unfold disk_with_guid.
  induction n as [|n IH]; intros disks disks' H; cbn [set_disk_device] in H.
  - inversion H; subst. split; [reflexivity|]. split.
    + clear. induction disks'; constructor; auto.
    + split; [reflexivity|]. simpl. discriminate.
  - destruct disks as [|disk disks]; [discriminate|].
    destruct (uuid_equal guid (disk_guid disk)) eqn:Hg.
    + bind_inv H. bind_inv H. bind_inv H. bind_inv H. inversion H; subst.
      clear H. split; [reflexivity|]. split.
      * constructor; [reflexivity|]. clear. induction disks; constructor; auto.
      * split.
        -- cbn [set_disk_device disk_guid]. rewrite Hg, Ha, Ha0, Ha1, Ha2.
           reflexivity.
        -- cbn [firstn find disk_guid]. rewrite Hg. intros d Hd.
           inversion Hd; subst. simpl. auto.
    + bind_inv H. inversion H; subst. clear H.
      apply IH in Ha. destruct Ha as (Hrec & Hdev & Hid & Hfirst).
      split; [simpl; congruence|]. split; [constructor; auto|]. split.
      * cbn [set_disk_device]. rewrite Hg, Hid. reflexivity.
      * cbn [firstn find]. rewrite Hg. exact Hfirst.
Qed.

(** X6: after a successful [ldm_add_fd], adding the same device under the
    same path once more succeeds and leaves the registry as it is. *)
Theorem add_again (host : byte_order) (o : LDM) (fd : Device) (secsize : Z)
    (path : string) (o' : LDM) :
  ldm_add_fd host o fd secsize path = (Ok tt, o') ->
  ldm_add_fd host o' fd secsize path = (Ok tt, o').
Proof.
  destruct o as [gs|]; [|intros H; inversion H; reflexivity].
  intros H. apply ldm_add_fd_Ok in H.
  destruct H as (privhead & config & vmdb & guid & gg & base & i & dg
                 & disks' & (Hph & Hcfg & Hvmdb & Hguid & Hgg) & Hfind
                 & Hnth & Hg & Hseq & Hs & -> & _).
  unfold ldm_add_fd. rewrite Hph. cbn [try]. rewrite Hcfg. cbn [try].
  rewrite Hvmdb. cbn [try]. rewrite Hguid. cbn [try]. rewrite Hgg.
  cbn [try].
  rewrite (find_group_guids gg _ base 0%nat None), Hfind
    by (apply (map_list_set dg_guid _ _ _ dg Hnth); reflexivity).
  rewrite (nth_error_list_set _ _ _ _ Hnth), Hseq. cbn [try].
  cbn [dg_sequence set_dg_disks set_dg_lists]. rewrite Z.eqb_refl.
  cbn [negb dg_n_disks dg_disks set_dg_disks set_dg_lists].
  apply set_disk_device_spec in Hs. destruct Hs as (_ & _ & Hid & _).
  rewrite Hid. cbn [try]. rewrite list_set_twice. reflexivity.
Qed.

Lemma add_again_witness :
  ldm_add_fd LittleEndian (Some [Sample.sdb_group]) Sample.sdb
    Sample.secsize "/dev/sdb"
  = (Ok tt, Some [Sample.sdb_group]).
Proof.
  apply (add_again LittleEndian ldm_new Sample.sdb Sample.secsize "/dev/sdb").
  vm_compute. reflexivity.
Defined.


(** X7: a successful [ldm_add_fd] adds at most one group at the end of the
    registry, and of a group that was there it changes at most the disk
    array: the volumes, components, partitions and header stay, the disk
    records keep their id, name, group name and GUID, and a disk that had
    a device still has one. *)
Theorem add_changes_disks_only (host : byte_order) (gs : list LDMDiskGroup)
    (fd : Device) (secsize : Z) (path : string) (gs' : list LDMDiskGroup) :
  ldm_add_fd host (Some gs) fd secsize path = (Ok tt, Some gs') ->
  (List.length gs' = List.length gs \/ List.length gs' = S (List.length gs))
  /\ forall i dg,
      nth_error gs i = Some dg ->
      exists dg',
        nth_error gs' i = Some dg'
        /\ dg' = set_dg_disks dg (dg_disks dg')
        /\ map disk_record (dg_disks dg') = map disk_record (dg_disks dg)
        /\ Forall2 (fun d d' => has_device d = true -> has_device d' = true)
             (dg_disks dg) (dg_disks dg').
Proof.
  intros H. apply ldm_add_fd_Ok in H.
  destruct H as (privhead & config & vmdb & guid & gg & base & i & dg
                 & disks' & _ & Hfind & Hnth & Hg & Hseq & Hs & Heq & Hbase).
  inversion Heq; subst gs'. clear Heq. rewrite list_set_length.
  apply set_disk_device_spec in Hs. destruct Hs as (Hrec & Hdev & _ & _).
  assert (Hsame : forall d : LDMDiskGroup,
             Forall2 (fun d d' => has_device d = true -> has_device d' = true)
               (dg_disks d) (dg_disks d)).
  { intros d. induction (dg_disks d); constructor; auto. }
  assert (Hkeep : forall k d,
             nth_error base k = Some d ->
             exists d',
               nth_error (list_set base i (set_dg_disks dg disks')) k
               = Some d'
               /\ d' = set_dg_disks d (dg_disks d')
               /\ map disk_record (dg_disks d') = map disk_record (dg_disks d)
               /\ Forall2 (fun d d' => has_device d = true
                                       -> has_device d' = true)
                    (dg_disks d) (dg_disks d')).
  { intros k d Hk. destruct (Nat.eq_dec i k) as [<- | Hne].
    - rewrite Hnth in Hk. inversion Hk; subst d.
      exists (set_dg_disks dg disks').
      rewrite (nth_error_list_set _ _ _ _ Hnth). auto.
    - exists d. rewrite (nth_error_list_set_other _ _ _ _ Hne), Hk.
      rewrite set_dg_disks_same. auto. }
  destruct Hbase as [-> | (-> & _ & _)].
  - split; [left; reflexivity|]. exact Hkeep.
  - split; [right; rewrite length_app; simpl; lia|].
    intros k d Hk. apply Hkeep. rewrite nth_error_app1; [exact Hk|].
    apply nth_error_Some. congruence.
Qed.

Lemma add_changes_disks_only_witness :
  (List.length [Sample.the_group Sample.s3_registry]
   = List.length [Sample.sdb_group]
   \/ List.length [Sample.the_group Sample.s3_registry]
      = S (List.length [Sample.sdb_group]))
  /\ forall i dg,
      nth_error [Sample.sdb_group] i = Some dg ->
      exists dg',
        nth_error [Sample.the_group Sample.s3_registry] i = Some dg'
        /\ dg' = set_dg_disks dg (dg_disks dg')
        /\ map disk_record (dg_disks dg') = map disk_record (dg_disks dg)
        /\ Forall2 (fun d d' => has_device d = true -> has_device d' = true)
             (dg_disks dg) (dg_disks dg').
Proof.
  apply (add_changes_disks_only LittleEndian [Sample.sdb_group] Sample.sdc
           Sample.secsize "/dev/sdc").
  vm_compute. reflexivity.
Defined.


(** X8: after a successful [ldm_add_fd] on a registry whose groups hold as
    many disks as they declare, the group with the disk-group GUID of the
    PRIVHEAD is in the registry, and the first of its disk records with the
    disk GUID of the PRIVHEAD, if there is one, carries the path and the
    four extents of the PRIVHEAD. *)
Theorem add_sets_device (host : byte_order) (gs : list LDMDiskGroup)
    (fd : Device) (secsize : Z) (path : string) (o' : LDM) :
  registry_wf (Some gs) ->
  ldm_add_fd host (Some gs) fd secsize path = (Ok tt, o') ->
  exists privhead guid gg dg,
    _read_privhead fd secsize = Ok privhead
    /\ privhead_guid privhead "disk_guid" = Ok guid
    /\ privhead_guid privhead "disk_group_guid" = Ok gg
    /\ group_with_guid o' gg = Some dg
    /\ forall disk,
        disk_with_guid guid (dg_disks dg) = Some disk ->
        disk_device disk = Some path
        /\ member_be _privhead privhead 0 "logical_disk_start"
           = Ok (disk_data_start disk)
        /\ member_be _privhead privhead 0 "logical_disk_size"
           = Ok (disk_data_size disk)
        /\ member_be _privhead privhead 0 "ldm_config_start"
           = Ok (disk_metadata_start disk)
        /\ member_be _privhead privhead 0 "ldm_config_size"
           = Ok (disk_metadata_size disk).
Proof.
  intros Hwf H. pose proof (ldm_add_fd_wf host _ fd secsize path Hwf) as Hwf'.
  rewrite H in Hwf'. cbn [snd] in Hwf'.
  apply ldm_add_fd_Ok in H.
  destruct H as (privhead & config & vmdb & guid & gg & base & i & dg
                 & disks' & (Hph & Hcfg & Hvmdb & Hguid & Hgg) & Hfind
                 & Hnth & Hg & Hseq & Hs & -> & _).
  exists privhead, guid, gg, (set_dg_disks dg disks').
  do 3 (split; [assumption|]). split.
  - unfold group_with_guid, ldm_get_disk_groups.
    rewrite (find_group_guids gg _ base 0%nat None), Hfind
      by (apply (map_list_set dg_guid _ _ _ dg Hnth); reflexivity).
    apply (nth_error_list_set _ _ _ _ Hnth).
  - cbn [dg_disks set_dg_disks set_dg_lists].
    pose proof (set_disk_device_length _ _ _ _ _ _ Hs) as Hlen.
    apply set_disk_device_spec in Hs. destruct Hs as (_ & _ & _ & Hfirst).
    simpl in Hwf'. rewrite Forall_forall in Hwf'.
    specialize (Hwf' (set_dg_disks dg disks')
                  (nth_error_In _ _ (nth_error_list_set _ _ _ _ Hnth))).
    cbn [dg_n_disks dg_disks set_dg_disks set_dg_lists] in Hwf'.
    rewrite Hwf', Nat2Z.id, firstn_all in Hfirst. exact Hfirst.
Qed.

Lemma add_sets_device_witness :
  exists privhead guid gg dg,
    _read_privhead Sample.sdc Sample.secsize = Ok privhead
    /\ privhead_guid privhead "disk_guid" = Ok guid
    /\ privhead_guid privhead "disk_group_guid" = Ok gg
    /\ group_with_guid Sample.s3_registry gg = Some dg
    /\ forall disk,
        disk_with_guid guid (dg_disks dg) = Some disk ->
        disk_device disk = Some "/dev/sdc"%string
        /\ member_be _privhead privhead 0 "logical_disk_start"
           = Ok (disk_data_start disk)
        /\ member_be _privhead privhead 0 "logical_disk_size"
           = Ok (disk_data_size disk)
        /\ member_be _privhead privhead 0 "ldm_config_start"
           = Ok (disk_metadata_start disk)
        /\ member_be _privhead privhead 0 "ldm_config_size"
           = Ok (disk_metadata_size disk).
Proof.
  apply (add_sets_device LittleEndian [Sample.sdb_group] Sample.sdc
           Sample.secsize "/dev/sdc").
  - apply Forall_cons; [reflexivity|apply Forall_nil].
  - vm_compute. reflexivity.
Defined.




(** ** Generators *)

Lemma part_disk_priv_get (disks : list LDMDisk) (part : LDMPartition) :
  part_disk_priv disks part
  = match ldm_partition_get_disk disks part with
    | Some disk => Ok disk
    | None => Fault
    end.
Proof.
  unfold part_disk_priv, ldm_partition_get_disk.
  destruct (part_disk part); reflexivity.
Qed.







Ltac linked_parts :=
  repeat (apply Forall_cons;
          [eexists; split; [reflexivity|reflexivity]|]);
  apply Forall_nil.






(** *** Striped volumes *)

Lemma striped_loop_linked (disks : list LDMDisk) :
  forall parts table,
    Forall (part_linked disks) parts ->
    striped_loop disks parts table
    = if Nat.eqb (List.length (missing disks parts)) 0
      then Ok (table +++ cat (map (stripe_arg disks) parts))
      else Err LDM_ERROR_MISSING_DISK.
Proof.
  unfold missing.
  induction parts as [|part parts IH]; intros table Hall.
  - cbn. rewrite append_nil_r. reflexivity.
  - inversion Hall as [|? ? Hp Hps]; subst. cbn [striped_loop].
    destruct Hp as (disk & Hget & _).
    cbn [filter map]. unfold stripe_arg, disk_present.
    rewrite part_disk_priv_get, Hget. cbn [bind].
    destruct (disk_device disk) as [device|]; cbn [negb List.length Nat.eqb];
      [|reflexivity].
    rewrite (IH _ Hps). destruct (Nat.eqb _ 0); [|reflexivity].
    cbn [cat fold_right fmt_s]. rewrite !append_assoc. reflexivity.
Qed.

(** X14: for a GEN volume with one striped component the generator returns
    a single table, "0 size striped columns stripe-size" followed by the
    device and start sector of every partition in the order of the
    component, when every partition is on a disk with a device; with any
    disk missing it fails with MissingDisk. *)
Theorem striped_needs_every_disk (err : bool) (disks : list LDMDisk)
    (vol : LDMVolume) (comp : LDMComponent) :
  vol_type vol = LDM_VOLUME_TYPE_GEN ->
  ldm_volume_get_components vol = [comp] ->
  comp_type comp = LDM_COMPONENT_TYPE_STRIPED ->
  Forall (part_linked disks) (comp_parts comp) ->
  ldm_volume_generate_dm_tables err disks vol
  = if Nat.eqb (List.length (missing disks (comp_parts comp))) 0
    then Ok [mkTable (volume_table_name vol) (striped_text disks vol comp)]
    else Err LDM_ERROR_MISSING_DISK.
Proof.
  unfold ldm_volume_get_components.
  intros Hty Hcomps Hst Hall.
  unfold ldm_volume_generate_dm_tables, _generate_dm_tables_striped.
  rewrite Hty, Hcomps. cbn [List.length Nat.ltb Nat.leb nth_error].
  rewrite Hst, (striped_loop_linked disks _ _ Hall).
  destruct (Nat.eqb _ 0); [|reflexivity]. cbn [bind].
  unfold striped_text. rewrite !append_assoc. reflexivity.
Qed.

Lemma striped_needs_every_disk_witness :
  ldm_volume_generate_dm_tables true Example.striped_disks
    Example.striped_volume
  = Ok [mkTable "ldm_dg1_v3"
          ("0 2048 striped 2 128 /dev/s1 384 /dev/s2 384" +++ nl)].
Proof.
  rewrite (striped_needs_every_disk true Example.striped_disks
             Example.striped_volume
             (Sample.first_comp Example.striped_volume)).
  - vm_compute. reflexivity.
  - reflexivity.
  - reflexivity.
  - reflexivity.
  - simpl. linked_parts.
Defined.


(** *** Mirrored volumes *)







(** *** No dangling pointer *)







(** ** Registries that [ldm_add_fd] builds, continued *)













(** ** Variable-length integers *)

Lemma u8_range (b : byte) : 0 <= u8 b < 256.
Proof.
  unfold u8. pose proof (Byte.to_N_bounded b). lia.
Qed.

Lemma u8_byte_of_Z (x : Z) : 0 <= x < 256 -> u8 (byte_of_Z x) = x.
Proof.
  intros Hx. unfold u8, byte_of_Z, wrap.
  rewrite Z.mod_small by (change (2 ^ 8) with 256; lia).
  destruct (Byte.of_N (Z.to_N x)) as [b|] eqn:Hb.
  - apply Byte.to_of_N in Hb. rewrite Hb. lia.
  - pose proof (Byte.to_of_N_option_map (Z.to_N x)) as H.
    rewrite Hb in H. simpl in H.
    destruct (N.leb_spec (Z.to_N x) 255); [discriminate|lia].
Qed.

Lemma lor_shiftl8 (a b : Z) :
  0 <= b < 256 -> Z.lor (Z.shiftl a 8) b = a * 256 + b.
Proof.
  intros Hb.
  assert (Hland : Z.land (Z.shiftl a 8) b = 0).
  { apply Z.bits_inj'. intros n Hn. rewrite Z.land_spec, Z.bits_0.
    destruct (Z.lt_ge_cases n 8) as [Hlt | Hge].
    - rewrite Z.shiftl_spec_low by lia. reflexivity.
    - replace b with (b mod 2 ^ 8)
        by (apply Z.mod_small; change (2 ^ 8) with 256; lia).
      rewrite Z.mod_pow2_bits_high by lia. apply andb_false_r. }
  pose proof (Z.add_lor_land (Z.shiftl a 8) b) as H.
  rewrite Hland, Z.add_0_r in H. rewrite H, Z.shiftl_mul_pow2 by lia.
  reflexivity.
Qed.

Lemma load_at (pre bs post : list byte) :
  load (pre ++ bs ++ post) (mem_len pre) (mem_len bs) = Ok bs.
Proof.
  unfold load, mem_len. rewrite !length_app.
  destruct (Z.leb_spec 0 (Z.of_nat (List.length pre))); [|lia].
  destruct (Z.leb_spec 0 (Z.of_nat (List.length bs))); [|lia].
  destruct (Z.leb_spec (Z.of_nat (List.length pre)
                        + Z.of_nat (List.length bs))
              (Z.of_nat (List.length pre + (List.length bs
                                            + List.length post))));
    [|lia].
  cbn [andb]. rewrite !Nat2Z.id, skipn_app, skipn_all, Nat.sub_diag.
  cbn [app skipn]. rewrite firstn_app, firstn_all, Nat.sub_diag.
  cbn [firstn]. rewrite app_nil_r. reflexivity.
Qed.

Lemma load_byte_at (pre : list byte) (b : byte) (post : list byte) :
  load_be (pre ++ b :: post) (mem_len pre) 1 = Ok (u8 b).
Proof.
  unfold load_be.
  change (pre ++ b :: post) with (pre ++ [b] ++ post).
  change 1 with (mem_len [b]). rewrite load_at. cbn [bind be_value].
  reflexivity.
Qed.

Lemma be_value_bound :
  forall bs acc k,
    0 <= k -> 0 <= acc < 2 ^ (8 * k) ->
    0 <= be_value acc bs < 2 ^ (8 * (k + Z.of_nat (List.length bs))).
Proof.
  induction bs as [|b bs IH]; intros acc k Hk Hacc; cbn [be_value List.length].
  - rewrite Z.add_0_r. exact Hacc.
  - pose proof (u8_range b) as Hb. rewrite lor_shiftl8 by exact Hb.
    replace (k + Z.of_nat (S (List.length bs)))
      with ((k + 1) + Z.of_nat (List.length bs)) by lia.
    apply IH; [lia|].
    replace (8 * (k + 1)) with (8 * k + 8) by lia.
    rewrite Z.pow_add_r by lia. change (2 ^ 8) with 256. nia.
Qed.

(** The loop of [PARSE_VAR_INT] over bytes that fit the output type. *)
Lemma var_int_loop_value (w : Z) (post : list byte) :
  forall bs pre out k,
    0 <= k -> 0 <= out < 2 ^ (8 * k) ->
    8 * (k + Z.of_nat (List.length bs)) <= w ->
    var_int_loop w (pre ++ bs ++ post) (List.length bs) out (mem_len pre)
    = Ok (be_value out bs, mem_len pre + Z.of_nat (List.length bs)).
Proof.
  induction bs as [|b bs IH]; intros pre out k Hk Hout Hw;
    cbn [var_int_loop List.length be_value].
  - rewrite Z.add_0_r. reflexivity.
  - cbn [app]. rewrite load_byte_at. cbn [bind]. cbn [List.length] in Hw.
    pose proof (u8_range b) as Hb.
    assert (Hpow : 2 ^ (8 * (k + 1)) <= 2 ^ w).
    { apply Z.pow_le_mono_r; lia. }
    assert (Hk1 : 2 ^ (8 * (k + 1)) = 2 ^ (8 * k) * 256).
    { replace (8 * (k + 1)) with (8 * k + 8) by lia.
      rewrite Z.pow_add_r by lia. reflexivity. }
    assert (Hsh : Z.shiftl out 8 = out * 256)
      by (rewrite Z.shiftl_mul_pow2 by lia; reflexivity).
    rewrite lor_shiftl8 by exact Hb. unfold wrap. rewrite Hsh.
    rewrite (Z.mod_small (out * 256)) by nia.
    rewrite (Z.mod_small (out * 256 + u8 b)) by nia.
    replace (pre ++ b :: bs ++ post) with ((pre ++ [b]) ++ bs ++ post)
      by (rewrite <- app_assoc; reflexivity).
    replace (mem_len pre + 1) with (mem_len (pre ++ [b]))
      by (unfold mem_len; rewrite length_app; simpl; lia).
    rewrite (IH (pre ++ [b]) (out * 256 + u8 b) (k + 1)); [|lia|nia|lia].
    f_equal. f_equal. unfold mem_len. rewrite length_app. simpl. lia.
Qed.

(** X16: [_parse_var_int32] and [_parse_var_int64] read a length byte [n]
    of at most 4, respectively 8, and [n] bytes after it as a big-endian
    number, and leave the cursor behind them. *)
Theorem _parse_var_int_value (w : Z) (pre bs post : list byte) :
  w = 32 \/ w = 64 ->
  Z.of_nat (List.length bs) <= w / 8 ->
  _parse_var_int w
    (pre ++ byte_of_Z (Z.of_nat (List.length bs)) :: bs ++ post)
    (mem_len pre)
  = Ok (be_value 0 bs, mem_len pre + 1 + Z.of_nat (List.length bs)).
Proof.
  intros Hw Hlen. unfold _parse_var_int.
  assert (Hw8 : w / 8 <= 8) by (destruct Hw; subst; cbv; discriminate).
  assert (Hdiv : 8 * (w / 8) = w) by (destruct Hw; subst; reflexivity).
  rewrite load_byte_at, u8_byte_of_Z by lia. cbn [bind].
  destruct (Z.gtb_spec (Z.of_nat (List.length bs)) (w / 8)); [lia|].
  rewrite Nat2Z.id.
  replace (pre ++ byte_of_Z (Z.of_nat (List.length bs)) :: bs ++ post)
    with ((pre ++ [byte_of_Z (Z.of_nat (List.length bs))]) ++ bs ++ post)
    by (rewrite <- app_assoc; reflexivity).
  replace (mem_len pre + 1)
    with (mem_len (pre ++ [byte_of_Z (Z.of_nat (List.length bs))]))
    by (unfold mem_len; rewrite length_app; simpl; lia).
  rewrite (var_int_loop_value w post bs _ 0 0); [|lia|simpl; lia|lia].
  reflexivity.
Qed.

Lemma _parse_var_int_value_witness :
  _parse_var_int 32 [x09; x02; x01; x02; xff] 1 = Ok (258, 4).
Proof.
  apply (_parse_var_int_value 32 [x09] [x01; x02] [xff]).
  - left. reflexivity.
  - vm_compute. discriminate.
Defined.


Lemma var_int_loop_no_error (w : Z) (m : mem) (e : LDMError) :
  forall n out var, var_int_loop w m n out var = Err e -> False.
Proof.
  induction n as [|n IH]; intros out var H; cbn [var_int_loop] in H;
    [discriminate|].
  unfold load_be, load in H.
  destruct (_ && _); cbn [bind] in H; [|discriminate].
  eapply IH. exact H.
Qed.

(** X17: the only [GError] of [_parse_var_int32] and [_parse_var_int64] is
    Internal, and it is raised only for a length byte above the size of the
    output type. *)
Theorem _parse_var_int_too_long (w : Z) (m : mem) (var : Z) (e : LDMError) :
  _parse_var_int w m var = Err e ->
  e = LDM_ERROR_INTERNAL
  /\ exists i, load_be m var 1 = Ok i /\ w / 8 < i.
Proof.
  unfold _parse_var_int. intros H.
  destruct (load_be m var 1) as [i|e'| |] eqn:Hi; cbn [bind] in H;
    try discriminate.
  2: { unfold load_be, load in Hi. destruct (_ && _); discriminate. }
  destruct (i >? w / 8) eqn:Hgt.
  - apply Z.gtb_lt in Hgt. inversion H. split; [reflexivity|].
    exists i. split; [reflexivity|lia].
  - exfalso. eapply var_int_loop_no_error. exact H.
Qed.

Lemma _parse_var_int_too_long_witness :
  LDM_ERROR_INTERNAL = LDM_ERROR_INTERNAL
  /\ exists i, load_be [x05; x00; x00; x00; x00; x01] 0 1 = Ok i /\ 32 / 8 < i.
Proof.
  apply (_parse_var_int_too_long 32 [x05; x00; x00; x00; x00; x01] 0).
  reflexivity.
Defined.


(** ** Reading from the device *)

Lemma firstn_add {A : Type} (a b : nat) (l : list A) :
  firstn (a + b) l = firstn a l ++ firstn b (skipn a l).
Proof.
  revert l. induction a as [|a IH]; intros l; [reflexivity|].
  destruct l as [|x l]; simpl.
  - rewrite firstn_nil. reflexivity.
  - f_equal. apply IH.
Qed.

(** The read loop on a device that reads like a file. *)
Lemma pread_loop_file (fd : Device) (img : list byte) (start count : Z) :
  reads_file fd img -> 0 <= start -> 0 <= count ->
  forall fuel r,
    (r <= Z.to_nat count)%nat ->
    (Z.to_nat start + r <= List.length img)%nat ->
    (Z.to_nat count - r <= fuel)%nat ->
    pread_loop fd fuel start count
      (firstn r (skipn (Z.to_nat start) img))
    = if start + count <=? mem_len img
      then Ok (slice img start count)
      else Err LDM_ERROR_INVALID.
Proof.
  intros Hfile Hstart Hcount. unfold mem_len, slice.
  induction fuel as [|fuel IH]; intros r Hr Himg Hfuel.
  - assert (r = Z.to_nat count) by lia. subst r.
    cbn [pread_loop]. unfold mem_len.
    rewrite length_firstn, length_skipn.
    destruct (Z.ltb_spec
                (Z.of_nat (Nat.min (Z.to_nat count)
                             (List.length img - Z.to_nat start))) count);
      [lia|]. cbn [negb].
    destruct (Z.leb_spec (start + count) (Z.of_nat (List.length img)));
      [reflexivity|lia].
  - cbn [pread_loop]. unfold mem_len.
    rewrite length_firstn, length_skipn.
    replace (Nat.min r (List.length img - Z.to_nat start)) with r by lia.
    destruct (Z.ltb_spec (Z.of_nat r) count) as [Hlt | Hge]; cbn [negb].
    + destruct (Hfile (start + Z.of_nat r) (count - Z.of_nat r))
        as (k & Hk & Hpos & ->); [lia|lia|].
      replace (Z.to_nat (start + Z.of_nat r)) with (Z.to_nat start + r)%nat
        in * by lia.
      destruct (Nat.eq_dec (Z.to_nat start + r) (List.length img))
        as [Heq | Hne].
      * rewrite skipn_all2 by lia. rewrite firstn_nil.
        destruct (Z.leb_spec (start + count) (Z.of_nat (List.length img)));
          [lia|reflexivity].
      * specialize (Hpos ltac:(lia)).
        set (avail := (List.length img - (Z.to_nat start + r))%nat).
        set (k' := Nat.min (Z.to_nat (count - Z.of_nat r)) (Nat.min k avail)).
        assert (Hchunk :
                 firstn (Z.to_nat (count - Z.of_nat r))
                   (firstn k (skipn (Z.to_nat start + r) img))
                 = firstn k' (skipn r (skipn (Z.to_nat start) img))).
        { rewrite firstn_firstn, skipn_skipn.
          replace (r + Z.to_nat start)%nat with (Z.to_nat start + r)%nat
            by lia.
          subst k' avail.
          rewrite <- (firstn_all (skipn (Z.to_nat start + r) img)) at 1.
          rewrite firstn_firstn, length_skipn. f_equal. lia. }
        destruct (firstn k (skipn (Z.to_nat start + r) img)) as [|b bs] eqn:Hf.
        { apply (f_equal (@List.length byte)) in Hf.
          rewrite length_firstn, length_skipn in Hf. simpl in Hf. lia. }
        rewrite Hchunk, <- firstn_add. apply IH; subst k' avail; lia.
    + assert (r = Z.to_nat count) by lia. subst r.
      destruct (Z.leb_spec (start + count) (Z.of_nat (List.length img)));
        [reflexivity|lia].
Qed.

(** The outcome of the read loop on a file-like device. *)
Lemma pread_loop_outcome (fd : Device) (img : list byte)
    (start count : Z) :
  reads_file fd img -> 0 <= start -> 0 <= count ->
  pread_loop fd (Z.to_nat count) start count []
  = if (count =? 0) || (start + count <=? mem_len img)
    then Ok (slice img start count)
    else Err LDM_ERROR_INVALID.
Proof.
  intros Hfile Hstart Hcount.
  destruct (Z.eqb_spec count 0) as [-> | Hpos]; [reflexivity|].
  cbn [orb].
  destruct (Z.leb_spec start (mem_len img)) as [Hin | Hout].
  - apply (pread_loop_file fd img start count Hfile Hstart Hcount
             (Z.to_nat count) 0%nat); unfold mem_len in *; lia.
  - (* the first read is already past the end *)
    destruct (Z.leb_spec (start + count) (mem_len img)); [lia|].
    destruct (Z.to_nat count) as [|fuel] eqn:Hfuel; [lia|].
    cbn [pread_loop]. change (mem_len []) with 0.
    destruct (Z.ltb_spec 0 count); [|lia]. cbn [negb].
    destruct (Hfile (start + 0) (count - 0)) as (k & _ & _ & ->);
      [lia|lia|].
    rewrite skipn_all2 by (unfold mem_len in *; lia).
    rewrite firstn_nil. reflexivity.
Qed.

(** X19: the read loop of [_read_privhead_off] and [_read_config], on a
    device that may return fewer bytes than asked for: it returns exactly
    the [count] bytes at [start] when the file holds them (or none are
    asked for), and fails with Invalid when the file ends before. *)
Theorem pread_loop_short_reads (fd : Device) (img : list byte)
    (start count : Z) :
  reads_file fd img -> 0 <= start -> 0 <= count ->
  pread_loop fd (Z.to_nat count) start count []
  = if (count =? 0) || (start + count <=? mem_len img)
    then Ok (slice img start count)
    else Err LDM_ERROR_INVALID.
Proof.
  intros Hfile Hstart Hcount.
  exact (pread_loop_outcome fd img start count Hfile Hstart Hcount).
Qed.

Lemma trickle_reads_file (data : list byte) :
  reads_file (Example.trickle data) data.
Proof.
  intros off n Hoff Hn. exists 1%nat.
  split; [lia|]. split; [lia|reflexivity].
Qed.

Lemma file_reads_file (data : list byte) :
  reads_file (Sample.file data) data.
Proof.
  intros off n Hoff Hn. exists (Z.to_nat n).
  split; [lia|]. split; [lia|reflexivity].
Qed.

Lemma pread_loop_short_reads_witness :
  pread_loop (Example.trickle Example.short_file) 4 3 4 []
  = Ok (Sample.str "3456")
  /\ pread_loop (Example.trickle Example.short_file) 4 8 4 []
     = Err LDM_ERROR_INVALID.
Proof.
  split.
  - apply (pread_loop_short_reads (Example.trickle Example.short_file)
             Example.short_file 3 4 (trickle_reads_file _)); lia.
  - apply (pread_loop_short_reads (Example.trickle Example.short_file)
             Example.short_file 8 4 (trickle_reads_file _)); lia.
Defined.


(** The buffer the read loop returns is full. *)
Lemma pread_loop_length (fd : Device) (start count : Z) :
  forall fuel buf r,
    mem_len buf <= count ->
    pread_loop fd fuel start count buf = Ok r -> mem_len r = count.
Proof.
  induction fuel as [|fuel IH]; intros buf r Hlen H; cbn [pread_loop] in H.
  - destruct (Z.ltb_spec (mem_len buf) count); cbn [negb] in H;
      [discriminate|]. inversion H; subst. lia.
  - destruct (Z.ltb_spec (mem_len buf) count); cbn [negb] in H;
      [|inversion H; subst; lia].
    destruct (dev_pread fd (start + mem_len buf) (count - mem_len buf))
      as [[|b bs]|]; try discriminate.
    apply IH in H; [exact H|].
    unfold mem_len in *. rewrite length_app, length_firstn. lia.
Qed.

(** X20: a PRIVHEAD that [_read_privhead] returns has the size of the
    structure and starts with the PRIVHEAD magic, and a config blob that
    [_read_config] returns for it has the number of bytes the PRIVHEAD
    gives as config size, in sectors, times the sector size. *)
Theorem read_structures_are_whole (fd : Device) (secsize : Z)
    (privhead config : mem) :
  _read_privhead fd secsize = Ok privhead ->
  _read_config fd secsize privhead = Ok config ->
  mem_len privhead = sizeof _privhead
  /\ magic_is _privhead privhead 0 "PRIVHEAD" = Ok true
  /\ exists start len,
      member_be _privhead privhead 0 "ldm_config_start" = Ok start
      /\ member_be _privhead privhead 0 "ldm_config_size" = Ok len
      /\ mem_len config = wrap 64 (len * secsize).
Proof.
  intros Hph Hcfg.
  assert (Hoff : forall off, _read_privhead_off fd off = Ok privhead ->
                             mem_len privhead = sizeof _privhead
                             /\ magic_is _privhead privhead 0 "PRIVHEAD"
                                = Ok true).
  { intros off H. unfold _read_privhead_off in H. bind_inv H. bind_inv H.
    destruct a0; cbn [negb] in H; [|discriminate]. inversion H; subst.
    split; [|assumption].
    eapply pread_loop_length; [|exact Ha]. cbv. discriminate. }
  assert (Hwhole : mem_len privhead = sizeof _privhead
                   /\ magic_is _privhead privhead 0 "PRIVHEAD" = Ok true).
  { unfold _read_privhead in Hph.
    destruct (dev_mbr_read fd) as [[]|[]]; try discriminate.
    - eapply Hoff. exact Hph.
    - unfold _read_privhead_gpt in Hph.
      destruct (dev_gpt_open fd secsize) as [[]|h]; try discriminate.
      induction (Z.to_nat (pte_array_len h)) as [|n IH];
        cbn [gpt_loop] in Hph; [discriminate|].
      destruct (gpt_get_pte h 0) as [[]|pte]; try discriminate.
      destruct (uuid_equal (pte_type pte) LDM_METADATA); [|auto].
      eapply Hoff. exact Hph. }
  destruct Hwhole as (Hlen & Hmagic). split; [exact Hlen|].
  split; [exact Hmagic|].
  unfold _read_config in Hcfg. destruct (dev_size fd); [|discriminate].
  bind_inv Hcfg. bind_inv Hcfg. exists a, a0.
  split; [assumption|]. split; [assumption|].
  destruct (_ >? _); [discriminate|]. destruct (_ >? _); [discriminate|].
  eapply pread_loop_length; [|exact Hcfg].
  unfold wrap, mem_len. simpl List.length.
  pose proof (Z.mod_pos_bound (a0 * secsize) (2 ^ 64) eq_refl). lia.
Qed.

Lemma read_structures_are_whole_witness :
  mem_len (Sample.privhead Sample.guid_d1 Sample.guid_dg 128)
  = sizeof _privhead
  /\ magic_is _privhead (Sample.privhead Sample.guid_d1 Sample.guid_dg 128) 0
       "PRIVHEAD" = Ok true
  /\ exists start len,
      member_be _privhead (Sample.privhead Sample.guid_d1 Sample.guid_dg 128)
        0 "ldm_config_start" = Ok start
      /\ member_be _privhead
           (Sample.privhead Sample.guid_d1 Sample.guid_dg 128) 0
           "ldm_config_size" = Ok len
      /\ mem_len (Sample.mirror_config 7) = wrap 64 (len * Sample.secsize).
Proof.
  apply (read_structures_are_whole Sample.sdb Sample.secsize).
  - vm_compute. reflexivity.
  - vm_compute. reflexivity.
Defined.


(** ** The device behind the reads *)

Lemma _read_privhead_off_file (fd1 fd2 : Device) (img : list byte)
    (off : Z) :
  reads_file fd1 img -> reads_file fd2 img -> 0 <= off ->
  _read_privhead_off fd1 off = _read_privhead_off fd2 off.
Proof.
  intros H1 H2 Hoff. unfold _read_privhead_off.
  rewrite (pread_loop_outcome fd1 img off (sizeof _privhead) H1 Hoff)
    by (cbv; discriminate).
  rewrite (pread_loop_outcome fd2 img off (sizeof _privhead) H2 Hoff)
    by (cbv; discriminate).
  reflexivity.
Qed.

Lemma wrap_nonneg (w x : Z) : 0 <= w -> 0 <= wrap w x.
Proof.
  intros Hw. unfold wrap.
  apply Z.mod_pos_bound. apply Z.pow_pos_nonneg; lia.
Qed.

(** X21: [ldm_add_fd] gives the same outcome and the same registry for two
    devices that hold the same bytes and agree on partition table and
    size, however each of them splits its reads. *)
Theorem add_independent_of_read_sizes (host : byte_order) (o : LDM)
    (fd1 fd2 : Device) (img : list byte) (secsize : Z) (path : string) :
  reads_file fd1 img -> reads_file fd2 img ->
  dev_mbr_read fd1 = dev_mbr_read fd2 ->
  dev_gpt_open fd1 secsize = dev_gpt_open fd2 secsize ->
  dev_size fd1 = dev_size fd2 ->
  ldm_add_fd host o fd1 secsize path = ldm_add_fd host o fd2 secsize path.
Proof.
  intros H1 H2 Hmbr Hgpt Hsize.
  assert (Hph : _read_privhead fd1 secsize = _read_privhead fd2 secsize).
  { unfold _read_privhead. rewrite Hmbr.
    destruct (dev_mbr_read fd2) as [[]|[]]; try reflexivity.
    - unfold _read_privhead_mbr.
      apply (_read_privhead_off_file fd1 fd2 img); auto.
      apply wrap_nonneg. lia.
    - unfold _read_privhead_gpt. rewrite Hgpt.
      destruct (dev_gpt_open fd2 secsize) as [e|h]; [reflexivity|].
      induction (Z.to_nat (pte_array_len h)) as [|n IH]; [reflexivity|].
      cbn [gpt_loop]. destruct (gpt_get_pte h 0) as [e|pte]; [reflexivity|].
      rewrite IH. destruct (uuid_equal _ _); [|reflexivity].
      apply (_read_privhead_off_file fd1 fd2 img); auto.
      apply wrap_nonneg. lia. }
  assert (Hcfg : forall privhead,
             _read_config fd1 secsize privhead
             = _read_config fd2 secsize privhead).
  { intros privhead. unfold _read_config. rewrite Hsize.
    destruct (dev_size fd2) as [size|]; [|reflexivity].
    destruct (member_be _privhead privhead 0 "ldm_config_start")
      as [start| | |]; try reflexivity. cbn [bind].
    destruct (member_be _privhead privhead 0 "ldm_config_size")
      as [len| | |]; try reflexivity. cbn [bind].
    destruct (_ >? size); [reflexivity|].
    destruct (_ >? size); [reflexivity|].
    rewrite (pread_loop_outcome fd1 img _ _ H1)
      by (apply wrap_nonneg; lia).
    rewrite (pread_loop_outcome fd2 img _ _ H2)
      by (apply wrap_nonneg; lia).
    reflexivity. }
  unfold ldm_add_fd. destruct o as [gs|]; [|reflexivity].
  rewrite Hph. destruct (_read_privhead fd2 secsize) as [privhead| | |];
    try reflexivity. cbn [try].
  rewrite Hcfg. reflexivity.
Qed.

Lemma add_independent_of_read_sizes_witness :
  ldm_add_fd LittleEndian ldm_new Sample.sdb Sample.secsize "/dev/sdb"
  = ldm_add_fd LittleEndian ldm_new (Example.trickle Example.sdb_image)
      Sample.secsize "/dev/sdb".
Proof.
  apply (add_independent_of_read_sizes LittleEndian ldm_new Sample.sdb
           (Example.trickle Example.sdb_image) Example.sdb_image).
  - exact (file_reads_file Example.sdb_image).
  - exact (trickle_reads_file Example.sdb_image).
  - reflexivity.
  - reflexivity.
  - reflexivity.
Defined.


(** ** A database without records *)

Lemma read_vmdb_header_Ok (config : mem) (vmdb : Z) (h : vmdb_header) :
  read_vmdb_header config vmdb = Ok h ->
  member_be _vmdb config vmdb "committed_seq" = Ok (h_committed_seq h)
  /\ member_be _vmdb config vmdb "n_committed_vblks_vol" = Ok (h_n_vols h)
  /\ member_be _vmdb config vmdb "n_committed_vblks_comp" = Ok (h_n_comps h)
  /\ member_be _vmdb config vmdb "n_committed_vblks_part" = Ok (h_n_parts h)
  /\ member_be _vmdb config vmdb "n_committed_vblks_disk" = Ok (h_n_disks h)
  /\ member_be _vmdb config vmdb "vblk_size" = Ok (h_vblk_size h)
  /\ member_be _vmdb config vmdb "vblk_first_offset"
     = Ok (h_vblk_first_offset h).
Proof.
  unfold read_vmdb_header. intros H.
  bind_inv H. bind_inv H. bind_inv H. bind_inv H. bind_inv H. bind_inv H.
  bind_inv H. inversion H; subst. simpl. auto 10.
Qed.

(** X22: when no VBLK is found at the first offset the VMDB gives,
    [_parse_vblks] returns a group without objects if the VMDB declares
    none, and fails with Invalid if it declares any. *)
Theorem _parse_vblks_without_vblk (host : byte_order) (config : mem)
    (vmdb : Z) (dg0 : LDMDiskGroup) (h : vmdb_header) :
  read_vmdb_header config vmdb = Ok h ->
  magic_is _vblk_head config (vmdb + h_vblk_first_offset h) "VBLK"
  = Ok false ->
  _parse_vblks host config vmdb dg0
  = if declares_nothing h
    then Ok (mkDiskGroup (dg_guid dg0) (dg_id dg0) (dg_name dg0)
               (h_committed_seq h) 0 0 0 0 [] [] [] [])
    else Err LDM_ERROR_INVALID.
Proof.
  intros Hh Hmagic. apply read_vmdb_header_Ok in Hh.
  destruct Hh as (Hseq & Hv & Hc & Hp & Hd & Hsize & Hfirst).
  unfold _parse_vblks. rewrite Hseq, Hd, Hc, Hp, Hv, Hsize, Hfirst.
  cbn [bind vblk_loop]. rewrite Hmagic. cbn [bind negb spanned_finish].
  unfold resolve, declares_nothing.
  cbn [dg_disks dg_comps dg_parts dg_vols dg_n_disks dg_n_comps dg_n_parts
       dg_n_vols List.length Z.of_nat].
  rewrite !(Z.eqb_sym 0).
  destruct (h_n_disks h =? 0) eqn:Ed; cbn [negb];
    [|rewrite !andb_false_r; reflexivity].
  destruct (h_n_comps h =? 0) eqn:Ec; cbn [negb];
    [|rewrite !andb_false_r; reflexivity].
  destruct (h_n_parts h =? 0) eqn:Ep; cbn [negb];
    [|rewrite !andb_false_r; reflexivity].
  destruct (h_n_vols h =? 0) eqn:Ev; cbn [negb andb]; [|reflexivity].
  apply Z.eqb_eq in Ed, Ec, Ep, Ev. rewrite Ed, Ec, Ep, Ev. reflexivity.
Qed.

Lemma _parse_vblks_without_vblk_witness :
  _parse_vblks LittleEndian Example.blank_config Sample.vmdb_offset
    (new_disk_group (Sample.uuid_of Sample.guid_dg))
  = Ok (mkDiskGroup (Sample.uuid_of Sample.guid_dg) 0 None 7 0 0 0 0
          [] [] [] []).
Proof.
  apply (_parse_vblks_without_vblk LittleEndian Example.blank_config
           Sample.vmdb_offset
           (new_disk_group (Sample.uuid_of Sample.guid_dg))
           (mkVmdbHeader 7 0 0 0 0 128 512)).
  - vm_compute. reflexivity.
  - vm_compute. reflexivity.
Defined.


(** ** Variable-length strings *)

Lemma var_string_bytes (pre bs post : list byte) :
  Z.of_nat (List.length bs) < 256 ->
  _parse_var_string
    (pre ++ byte_of_Z (Z.of_nat (List.length bs)) :: bs ++ post) (mem_len pre)
  = Ok (string_of_list_byte bs, mem_len pre + 1 + Z.of_nat (List.length bs))
  /\ _parse_var_skip
       (pre ++ byte_of_Z (Z.of_nat (List.length bs)) :: bs ++ post)
       (mem_len pre)
     = Ok (mem_len pre + 1 + Z.of_nat (List.length bs)).
Proof.
  intros Hlen. unfold _parse_var_string, _parse_var_skip.
  rewrite load_byte_at, u8_byte_of_Z by lia. cbn [bind]. split; [|reflexivity].
  replace (pre ++ byte_of_Z (Z.of_nat (List.length bs)) :: bs ++ post)
    with ((pre ++ [byte_of_Z (Z.of_nat (List.length bs))]) ++ bs ++ post)
    by (rewrite <- app_assoc; reflexivity).
  replace (mem_len pre + 1)
    with (mem_len (pre ++ [byte_of_Z (Z.of_nat (List.length bs))]))
    by (unfold mem_len; rewrite length_app; simpl; lia).
  change (Z.of_nat (List.length bs)) with (mem_len bs).
  rewrite load_at. reflexivity.
Qed.

(** X18: [_parse_var_string] returns the bytes that follow the length byte
    and leaves the cursor behind them; [_parse_var_skip] leaves the cursor
    at the same place. *)
Theorem _parse_var_string_value (pre bs post : list byte) :
  Z.of_nat (List.length bs) < 256 ->
  let m := pre ++ byte_of_Z (Z.of_nat (List.length bs)) :: bs ++ post in
  _parse_var_string m (mem_len pre)
  = Ok (string_of_list_byte bs, mem_len pre + 1 + Z.of_nat (List.length bs))
  /\ _parse_var_skip m (mem_len pre)
     = Ok (mem_len pre + 1 + Z.of_nat (List.length bs)).
Proof. intros Hlen m. exact (var_string_bytes pre bs post Hlen). Qed.

(** ** Records as they lie on disk *)

Lemma byte_of_Z_wrap (x : Z) : byte_of_Z (wrap 8 x) = byte_of_Z x.
Proof.
  unfold byte_of_Z, wrap. rewrite Z.mod_mod by discriminate. reflexivity.
Qed.

Lemma _parse_var_string_value_witness :
  _parse_var_string (x09 :: x02 :: Sample.str "d1" ++ [xff]) 1
  = Ok ("d1"%string, 4)
  /\ _parse_var_skip (x09 :: x02 :: Sample.str "d1" ++ [xff]) 1 = Ok 4.
Proof.
  apply (_parse_var_string_value [x09] (Sample.str "d1") [xff]).
  vm_compute. reflexivity.
Defined.


Lemma u8_byte_of_Z_wrap (x : Z) : u8 (byte_of_Z x) = x mod 256.
Proof.
  rewrite <- byte_of_Z_wrap. unfold wrap. change (2 ^ 8) with 256.
  apply u8_byte_of_Z. apply Z.mod_pos_bound. lia.
Qed.

Lemma be_bytes_length (x : Z) :
  forall n, List.length (Sample.be_bytes n x) = n.
Proof. induction n as [|n IH]; simpl; congruence. Qed.

Lemma be_value_be_bytes (x : Z) :
  forall n acc,
    0 <= acc ->
    be_value acc (Sample.be_bytes n x)
    = acc * 2 ^ (8 * Z.of_nat n) + x mod 2 ^ (8 * Z.of_nat n).
Proof.
  induction n as [|n IH]; intros acc Hacc.
  - cbn [Sample.be_bytes be_value]. change (2 ^ (8 * Z.of_nat 0)) with 1.
    rewrite Z.mod_1_r. lia.
  - cbn [Sample.be_bytes be_value].
    rewrite lor_shiftl8 by apply u8_range. rewrite u8_byte_of_Z_wrap.
    assert (Hpos : 0 < 2 ^ (8 * Z.of_nat n))
      by (apply Z.pow_pos_nonneg; lia).
    rewrite IH
      by (pose proof (Z.mod_pos_bound
                        (Z.shiftr x (8 * Z.of_nat n)) 256 eq_refl); nia).
    rewrite Z.shiftr_div_pow2 by lia.
    replace (8 * Z.of_nat (S n)) with (8 * Z.of_nat n + 8) by lia.
    rewrite Z.pow_add_r by lia. change (2 ^ 8) with 256.
    rewrite (Z.rem_mul_r x (2 ^ (8 * Z.of_nat n)) 256) by lia.
    ring.
Qed.

Lemma be_value_be_bytes_small (n : nat) (x : Z) :
  0 <= x < 2 ^ (8 * Z.of_nat n) -> be_value 0 (Sample.be_bytes n x) = x.
Proof.
  intros Hx. rewrite be_value_be_bytes by lia.
  rewrite Z.mod_small by exact Hx. lia.
Qed.

Lemma mem_len_app (a b : list byte) : mem_len (a ++ b) = mem_len a + mem_len b.
Proof. unfold mem_len. rewrite length_app. lia. Qed.

(** The decoders at the end of a prefix [pre], on the encoding of a field
    followed by [rest]: each returns the value and the cursor behind the
    field. *)
Lemma at_var_int (w : Z) (n : nat) (x : Z) (pre rest : list byte) :
  w = 32 \/ w = 64 -> Z.of_nat n <= w / 8 -> 0 <= x < 2 ^ (8 * Z.of_nat n) ->
  _parse_var_int w (pre ++ Sample.var_int n x ++ rest) (mem_len pre)
  = Ok (x, mem_len (pre ++ Sample.var_int n x)).
Proof.
  intros Hw Hn Hx. unfold Sample.var_int, _parse_var_int. cbn [app].
  assert (Hw8 : w / 8 <= 8) by (destruct Hw; subst; cbv; discriminate).
  rewrite load_byte_at, u8_byte_of_Z by lia. cbn [bind].
  destruct (Z.gtb_spec (Z.of_nat n) (w / 8)); [lia|]. rewrite Nat2Z.id.
  assert (Hdiv : 8 * (w / 8) = w) by (destruct Hw; subst; reflexivity).
  replace (pre ++ byte_of_Z (Z.of_nat n) :: Sample.be_bytes n x ++ rest)
    with ((pre ++ [byte_of_Z (Z.of_nat n)]) ++ Sample.be_bytes n x ++ rest)
    by (rewrite <- app_assoc; reflexivity).
  replace (mem_len pre + 1) with (mem_len (pre ++ [byte_of_Z (Z.of_nat n)]))
    by (rewrite mem_len_app; reflexivity).
  pose proof (var_int_loop_value w rest (Sample.be_bytes n x)
                (pre ++ [byte_of_Z (Z.of_nat n)]) 0 0) as Hloop.
  rewrite be_bytes_length in Hloop.
  rewrite Hloop; [|lia|simpl; lia|lia].
  rewrite be_value_be_bytes_small by exact Hx.
  f_equal. f_equal.
  change (byte_of_Z (Z.of_nat n) :: Sample.be_bytes n x)
    with ([byte_of_Z (Z.of_nat n)] ++ Sample.be_bytes n x).
  rewrite app_assoc, (mem_len_app (pre ++ _) (Sample.be_bytes n x)).
  unfold mem_len at 3. rewrite be_bytes_length. reflexivity.
Qed.

Lemma at_var_string (s : string) (pre rest : list byte) :
  Z.of_nat (String.length s) < 256 ->
  _parse_var_string (pre ++ Sample.var_string s ++ rest) (mem_len pre)
  = Ok (s, mem_len (pre ++ Sample.var_string s))
  /\ _parse_var_skip (pre ++ Sample.var_string s ++ rest) (mem_len pre)
     = Ok (mem_len (pre ++ Sample.var_string s)).
Proof.
  intros Hlen. unfold Sample.var_string, Sample.str.
  assert (Hl : List.length (list_byte_of_string s) = String.length s).
  { clear. unfold list_byte_of_string. rewrite length_map.
    induction s as [|c s IH]; simpl; congruence. }
  rewrite <- Hl in *. cbn [app].
  destruct (var_string_bytes pre (list_byte_of_string s) rest Hlen)
    as (H1 & H2).
  rewrite H1, H2, string_of_list_byte_of_string.
  change (byte_of_Z (Z.of_nat (List.length (list_byte_of_string s)))
          :: list_byte_of_string s)
    with ([byte_of_Z (Z.of_nat (List.length (list_byte_of_string s)))]
          ++ list_byte_of_string s).
  split; [apply f_equal, f_equal2; [reflexivity|]|apply f_equal];
    unfold mem_len; rewrite !length_app; simpl List.length; lia.
Qed.

Lemma at_be8 (x : Z) (pre rest : list byte) :
  0 <= x < 2 ^ 64 ->
  load_be (pre ++ Sample.be_bytes 8 x ++ rest) (mem_len pre) 8 = Ok x.
Proof.
  intros Hx. unfold load_be.
  assert (H8 : mem_len (Sample.be_bytes 8 x) = 8)
    by (unfold mem_len; rewrite be_bytes_length; reflexivity).
  rewrite <- H8, load_at. cbn [bind].
  rewrite be_value_be_bytes_small; [reflexivity|].
  exact Hx.
Qed.

Lemma rec_head_bytes (flags type : Z) :
  Sample.rec_head flags type
  = [x00; x00; byte_of_Z flags; byte_of_Z type; x00; x00; x00; x00].
Proof. reflexivity. Qed.

Lemma at_rec_head (flags type : Z) (pre rest : list byte) :
  0 <= flags < 256 -> 0 <= type < 256 ->
  member_be _vblk_rec_head (pre ++ Sample.rec_head flags type ++ rest)
    (mem_len pre) "type" = Ok type
  /\ member_be _vblk_rec_head (pre ++ Sample.rec_head flags type ++ rest)
       (mem_len pre) "flags" = Ok flags
  /\ mem_len pre + sizeof _vblk_rec_head
     = mem_len (pre ++ Sample.rec_head flags type).
Proof.
  intros Hf Ht. rewrite rec_head_bytes. unfold member_be, member.
  change (offsetof _vblk_rec_head "type") with 3.
  change (offsetof _vblk_rec_head "flags") with 2.
  change (fieldsize _vblk_rec_head "type") with 1.
  change (fieldsize _vblk_rec_head "flags") with 1.
  split; [|split].
  - change (pre ++ [x00; x00; byte_of_Z flags; byte_of_Z type;
                    x00; x00; x00; x00] ++ rest)
      with (pre ++ [x00; x00; byte_of_Z flags]
                ++ byte_of_Z type :: [x00; x00; x00; x00] ++ rest).
    rewrite app_assoc.
    replace (mem_len pre + 3)
      with (mem_len (pre ++ [x00; x00; byte_of_Z flags]))
      by (rewrite mem_len_app; reflexivity).
    fold (load_be ((pre ++ [x00; x00; byte_of_Z flags])
                   ++ byte_of_Z type :: [x00; x00; x00; x00] ++ rest)
            (mem_len (pre ++ [x00; x00; byte_of_Z flags])) 1).
    rewrite load_byte_at, u8_byte_of_Z by exact Ht. reflexivity.
  - change (pre ++ [x00; x00; byte_of_Z flags; byte_of_Z type;
                    x00; x00; x00; x00] ++ rest)
      with (pre ++ [x00; x00]
                ++ byte_of_Z flags
                   :: [byte_of_Z type; x00; x00; x00; x00] ++ rest).
    rewrite app_assoc.
    replace (mem_len pre + 2) with (mem_len (pre ++ [x00; x00]))
      by (rewrite mem_len_app; reflexivity).
    fold (load_be ((pre ++ [x00; x00])
                   ++ byte_of_Z flags
                      :: [byte_of_Z type; x00; x00; x00; x00] ++ rest)
            (mem_len (pre ++ [x00; x00])) 1).
    rewrite load_byte_at, u8_byte_of_Z by exact Hf. reflexivity.
  - rewrite mem_len_app. reflexivity.
Qed.

(** Move the field [e] that follows the prefix into the prefix. *)
Ltac into_prefix P e :=
  rewrite (app_assoc P e).

Lemma skip_zeros (P : list byte) (n k : Z) :
  0 <= n -> k = mem_len P + n -> k = mem_len (P ++ Sample.zeros n).
Proof.
  intros Hn ->. rewrite mem_len_app. unfold mem_len at 3, Sample.zeros.
  rewrite repeat_length. lia.
Qed.

(** X23: a partition record of revision 3 as it lies on disk (record
    header, id, name, 12 bytes that are skipped, start and volume offset
    as 8-byte big-endian numbers, size, parent id, disk id and, with flag
    0x08, the index) is decoded into a partition with these fields, the
    index being 0 without the flag, and appended to the partitions of the
    group. *)
Theorem partition_record (id parent_id disk_id start vol_offset size : Z)
    (name : string) (index : option Z) (pre post : list byte)
    (dg : LDMDiskGroup) :
  0 <= id < 2 ^ 32 -> 0 <= parent_id < 2 ^ 32 -> 0 <= disk_id < 2 ^ 32 ->
  0 <= start < 2 ^ 64 -> 0 <= vol_offset < 2 ^ 64 -> 0 <= size < 2 ^ 64 ->
  Z.of_nat (String.length name) < 256 ->
  match index with Some i => 0 <= i < 2 ^ 32 | None => True end ->
  _parse_vblk
    (pre ++ Sample.rec_partition id name start vol_offset size parent_id
              disk_id index ++ post)
    (mem_len pre) dg
  = Ok (set_dg_parts dg
          (dg_parts dg
           ++ [mkPartition id parent_id name start vol_offset size
                 (match index with Some i => i | None => 0 end) disk_id
                 None])).
Proof.
  intros Hid Hpid Hdid Hstart Hoff Hsize Hname Hindex.
  unfold Sample.rec_partition. rewrite <- !app_assoc.
  set (flags := match index with Some _ => 8 | None => 0 end).
  assert (Hflags : 0 <= flags < 256) by (subst flags; destruct index; lia).
  unfold _parse_vblk.
  match goal with
  | |- context [pre ++ Sample.rec_head flags ?t ++ ?rest] =>
      destruct (at_rec_head flags t pre rest Hflags
                  ltac:(cbv; split; congruence))
        as (Hty & Hfl & Hnext); rewrite Hty, Hfl, Hnext;
      rewrite (app_assoc pre (Sample.rec_head flags t))
  end.
  cbn [bind].
  change (Z.land (3 * 16 + 3) 15) with 3.
  change (Z.shiftr (Z.land (3 * 16 + 3) 240) 4) with 3.
  cbn [Z.eqb Pos.eqb bind]. unfold _parse_vblk_part. cbn [Z.eqb Pos.eqb negb].
  unfold _parse_var_int32, _parse_var_int64.
  (* id *)
  match goal with
  | |- context [_parse_var_int 32 (?P ++ Sample.var_int 4 id ++ ?rest)
                  (mem_len ?P)] =>
      rewrite (at_var_int 32 4 id P rest) by (auto; cbv; congruence);
      rewrite (app_assoc P (Sample.var_int 4 id))
  end.
  cbn [bind].
  (* name *)
  match goal with
  | |- context [_parse_var_string (?P ++ Sample.var_string name ++ ?rest)
                  (mem_len ?P)] =>
      rewrite (proj1 (at_var_string name P rest Hname));
      rewrite (app_assoc P (Sample.var_string name))
  end.
  cbn [bind].
  (* zeroes, log commit id *)
  match goal with
  | |- context [load_be (?P ++ Sample.zeros 12 ++ ?rest) ?k 8] =>
      rewrite (skip_zeros P 12 k ltac:(lia) ltac:(lia));
      rewrite (app_assoc P (Sample.zeros 12))
  end.
  (* start *)
  match goal with
  | |- context [load_be (?P ++ Sample.be_bytes 8 start ++ ?rest)
                  (mem_len ?P) 8] =>
      rewrite (at_be8 start P rest Hstart)
  end.
  cbn [bind].
  match goal with
  | |- context [load_be (?P ++ Sample.be_bytes 8 start ++ ?rest) ?k 8] =>
      replace k with (mem_len (P ++ Sample.be_bytes 8 start))
        by (rewrite (mem_len_app P); unfold mem_len at 2;
            rewrite be_bytes_length; reflexivity);
      rewrite (app_assoc P (Sample.be_bytes 8 start))
  end.
  (* vol_offset *)
  match goal with
  | |- context [load_be (?P ++ Sample.be_bytes 8 vol_offset ++ ?rest)
                  (mem_len ?P) 8] =>
      rewrite (at_be8 vol_offset P rest Hoff)
  end.
  cbn [bind].
  match goal with
  | |- context [_parse_var_int 64
                  (?P ++ Sample.be_bytes 8 vol_offset ++ ?rest) ?k] =>
      replace k with (mem_len (P ++ Sample.be_bytes 8 vol_offset))
        by (rewrite (mem_len_app P); unfold mem_len at 2;
            rewrite be_bytes_length; reflexivity);
      rewrite (app_assoc P (Sample.be_bytes 8 vol_offset))
  end.
  (* size *)
  match goal with
  | |- context [_parse_var_int 64 (?P ++ Sample.var_int 8 size ++ ?rest)
                  (mem_len ?P)] =>
      rewrite (at_var_int 64 8 size P rest) by (auto; cbv; congruence);
      rewrite (app_assoc P (Sample.var_int 8 size))
  end.
  cbn [bind].
  (* parent_id *)
  match goal with
  | |- context [_parse_var_int 32 (?P ++ Sample.var_int 4 parent_id ++ ?rest)
                  (mem_len ?P)] =>
      rewrite (at_var_int 32 4 parent_id P rest) by (auto; cbv; congruence);
      rewrite (app_assoc P (Sample.var_int 4 parent_id))
  end.
  cbn [bind].
  (* disk_id *)
  match goal with
  | |- context [_parse_var_int 32 (?P ++ Sample.var_int 4 disk_id ++ ?rest)
                  (mem_len ?P)] =>
      rewrite (at_var_int 32 4 disk_id P rest) by (auto; cbv; congruence);
      rewrite (app_assoc P (Sample.var_int 4 disk_id))
  end.
  cbn [bind].
  (* index *)
  subst flags. destruct index as [i|].
  - change (flag 8 8) with true. cbn iota.
    match goal with
    | |- context [_parse_var_int 32 (?P ++ Sample.var_int 4 i ++ ?rest)
                    (mem_len ?P)] =>
        rewrite (at_var_int 32 4 i P rest) by (auto; cbv; congruence)
    end.
    reflexivity.
  - change (flag 0 8) with false. reflexivity.
Qed.

Lemma partition_record_witness :
  _parse_vblk
    (Sample.rec_partition 30 "pa" 256 0 1024 20 1 (Some 2) ++ [xff]) 0
    (new_disk_group [])
  = Ok (set_dg_parts (new_disk_group [])
          [mkPartition 30 20 "pa" 256 0 1024 2 1 None]).
Proof.
  apply (partition_record 30 20 1 256 0 1024 "pa" (Some 2) [] [xff]
           (new_disk_group [])); cbv; try split; congruence.
Defined.


Lemma zeros_len (n : Z) : 0 <= n -> mem_len (Sample.zeros n) = n.
Proof.
  intros Hn. unfold mem_len, Sample.zeros. rewrite repeat_length. lia.
Qed.

Lemma be_bytes_len (n : nat) (x : Z) :
  mem_len (Sample.be_bytes n x) = Z.of_nat n.
Proof. unfold mem_len. rewrite be_bytes_length. reflexivity. Qed.

Lemma at_byte (b : byte) (pre rest : list byte) :
  load_be (pre ++ [b] ++ rest) (mem_len pre) 1 = Ok (u8 b).
Proof. apply load_byte_at. Qed.

(** The cursor of the next read, written from the end of the prefix [P], is
    behind the field [e]. *)
Ltac cursor_behind P e k :=
  replace k with (mem_len (P ++ e))
    by (rewrite (mem_len_app P);
        rewrite ?zeros_len, ?be_bytes_len by lia;
        try (change (mem_len e) with 1); lia).

Ltac skip_field e :=
  match goal with
  | |- context [?P ++ e ++ ?rest] =>
      first
        [ match goal with
          | |- context [mem_len P + ?a + ?b + ?c] =>
              cursor_behind P e (mem_len P + a + b + c)
          end
        | match goal with
          | |- context [mem_len P + ?a + ?b] =>
              cursor_behind P e (mem_len P + a + b)
          end
        | match goal with
          | |- context [mem_len P + ?a] => cursor_behind P e (mem_len P + a)
          end ];
      rewrite (app_assoc P e)
  end.

Ltac read_int w n x :=
  match goal with
  | |- context [_parse_var_int w (?P ++ Sample.var_int n x ++ ?rest)
                  (mem_len ?P)] =>
      rewrite (at_var_int w n x P rest) by (auto; cbv; congruence);
      try rewrite (app_assoc P (Sample.var_int n x))
  end;
  cbn [bind].

Ltac read_string s H :=
  match goal with
  | |- context [_parse_var_string (?P ++ Sample.var_string s ++ ?rest)
                  (mem_len ?P)] =>
      rewrite (proj1 (at_var_string s P rest H));
      try rewrite (app_assoc P (Sample.var_string s))
  end;
  cbn [bind].

Ltac skip_string s H :=
  match goal with
  | |- context [_parse_var_skip (?P ++ Sample.var_string s ++ ?rest)
                  (mem_len ?P)] =>
      rewrite (proj2 (at_var_string s P rest H));
      try rewrite (app_assoc P (Sample.var_string s))
  end;
  cbn [bind].

Ltac read_byte b :=
  match goal with
  | |- context [load_be (?P ++ [b] ++ ?rest) (mem_len ?P) 1] =>
      rewrite (at_byte b P rest)
  end;
  cbn [bind].

Ltac read_head flags :=
  match goal with
  | |- context [?pre ++ Sample.rec_head flags ?t ++ ?rest] =>
      let Hty := fresh "Hty" in
      let Hfl := fresh "Hfl" in
      let Hnext := fresh "Hnext" in
      destruct (at_rec_head flags t pre rest ltac:(assumption)
                  ltac:(cbv; split; congruence))
        as (Hty & Hfl & Hnext);
      rewrite Hty, Hfl, Hnext;
      rewrite (app_assoc pre (Sample.rec_head flags t))
  end;
  cbn [bind].

(** X24: a component record of revision 3 as it lies on disk (record
    header, id, name, a state string, the type byte, 4 bytes skipped, the
    number of partitions, 16 bytes skipped, the parent id, a byte skipped
    and, with flag 0x10, stripe size and columns) is decoded into a
    component with these fields and no children, stripe size and columns
    being 0 without the flag, and appended to the components of the
    group. *)
Theorem component_record (id parent_id n_parts : Z) (name : string)
    (type : LDMComponentType) (stripe : option (Z * Z))
    (pre post : list byte) (dg : LDMDiskGroup) :
  0 <= id < 2 ^ 32 -> 0 <= parent_id < 2 ^ 32 -> 0 <= n_parts < 2 ^ 32 ->
  Z.of_nat (String.length name) < 256 ->
  match stripe with
  | Some (stripe_size, n_columns) =>
      0 <= stripe_size < 2 ^ 64 /\ 0 <= n_columns < 2 ^ 32
  | None => True
  end ->
  _parse_vblk
    (pre ++ Sample.rec_component id name (component_type_code type) n_parts
              parent_id stripe ++ post)
    (mem_len pre) dg
  = Ok (set_dg_comps dg
          (dg_comps dg
           ++ [mkComponent id parent_id name type n_parts []
                 (match stripe with Some (s, _) => s | None => 0 end)
                 (match stripe with Some (_, c) => c | None => 0 end)])).
Proof.
  intros Hid Hpid Hn Hname Hstripe.
  unfold Sample.rec_component. rewrite <- !app_assoc.
  set (flags := match stripe with Some _ => 16 | None => 0 end).
  assert (Hflags : 0 <= flags < 256) by (subst flags; destruct stripe; lia).
  unfold _parse_vblk. read_head flags.
  change (Z.land (3 * 16 + 2) 15) with 2.
  change (Z.shiftr (Z.land (3 * 16 + 2) 240) 4) with 3.
  cbn [Z.eqb Pos.eqb bind]. unfold _parse_vblk_comp. cbn [Z.eqb Pos.eqb negb].
  unfold _parse_var_int32, _parse_var_int64.
  read_int 32 4%nat id. read_string name Hname.
  assert (Hactive : Z.of_nat (String.length "ACTIVE") < 256)
    by (cbv; reflexivity).
  skip_string "ACTIVE"%string Hactive.
  read_byte (byte_of_Z (component_type_code type)).
  rewrite u8_byte_of_Z by (destruct type; cbv; split; congruence).
  assert (Hcode : component_type_of (component_type_code type) = Some type)
    by (destruct type; reflexivity).
  rewrite Hcode.
  skip_field [byte_of_Z (component_type_code type)].
  skip_field (Sample.zeros 4).
  read_int 32 4%nat n_parts.
  skip_field (Sample.zeros 16).
  read_int 32 4%nat parent_id.
  subst flags. destruct stripe as [[stripe_size n_columns]|].
  - change (flag 16 16) with true. cbn iota. destruct Hstripe as (Hs & Hc).
    rewrite <- (app_assoc (Sample.var_int 8 stripe_size)).
    skip_field [x00].
    read_int 64 8%nat stripe_size. read_int 32 4%nat n_columns.
    reflexivity.
  - change (flag 0 16) with false. reflexivity.
Qed.




(** X26: a disk record of revision 3 as it lies on disk (record header,
    id, name, the GUID as a string) is decoded into a disk with these
    fields, the GUID being what [uuid_parse] makes of the string, without
    device and extents, and appended to the disks of the group. *)
Theorem disk_record_v3 (id : Z) (name guid : string) (uu : uuid_t)
    (pre post : list byte) (dg : LDMDiskGroup) :
  0 <= id < 2 ^ 32 ->
  Z.of_nat (String.length name) < 256 ->
  Z.of_nat (String.length guid) < 256 ->
  uuid_parse (c_bytes (list_byte_of_string guid)) = Some uu ->
  _parse_vblk (pre ++ Sample.rec_disk id name guid ++ post) (mem_len pre) dg
  = Ok (set_dg_disks dg
          (dg_disks dg ++ [mkDisk id name None 0 0 0 0 uu None])).
Proof.
  intros Hid Hname Hguid Huu.
  unfold Sample.rec_disk. rewrite <- !app_assoc.
  assert (Hflags : 0 <= 0 < 256) by lia.
  unfold _parse_vblk. read_head 0.
  change (Z.land (3 * 16 + 4) 15) with 4.
  change (Z.shiftr (Z.land (3 * 16 + 4) 240) 4) with 3.
  cbn [Z.eqb Pos.eqb bind]. unfold _parse_vblk_disk. cbn [Z.eqb Pos.eqb].
  unfold _parse_var_int32.
  read_int 32 4%nat id. read_string name Hname. read_string guid Hguid.
  rewrite Huu. reflexivity.
Qed.

(** X27: a disk group record as it lies on disk (record header, id, name)
    sets the id and the name of the group and nothing else. *)
Theorem disk_group_record (id : Z) (name : string) (pre post : list byte)
    (dg : LDMDiskGroup) :
  0 <= id < 2 ^ 32 ->
  Z.of_nat (String.length name) < 256 ->
  _parse_vblk (pre ++ Sample.rec_disk_group id name ++ post) (mem_len pre) dg
  = Ok (set_dg_id_name dg id name).
Proof.
  intros Hid Hname.
  unfold Sample.rec_disk_group. rewrite <- !app_assoc.
  assert (Hflags : 0 <= 0 < 256) by lia.
  unfold _parse_vblk. read_head 0.
  change (Z.land (3 * 16 + 5) 15) with 5.
  change (Z.shiftr (Z.land (3 * 16 + 5) 240) 4) with 3.
  cbn [Z.eqb Pos.eqb bind]. unfold _parse_vblk_disk_group.
  cbn [Z.eqb Pos.eqb negb andb]. unfold _parse_var_int32.
  read_int 32 4%nat id. read_string name Hname. reflexivity.
Qed.

(** ** Counting the entries of a spanned record *)

Lemma bytes_eqb_sym (a b : list byte) : bytes_eqb a b = bytes_eqb b a.
Proof.
  destruct (bytes_eqb a b) eqn:E1; destruct (bytes_eqb b a) eqn:E2;
    try reflexivity.
  - apply bytes_eqb_eq in E1. subst.
    rewrite (proj2 (bytes_eqb_eq b b) eq_refl) in E2.
    discriminate.
  - apply bytes_eqb_eq in E2. subst.
    rewrite (proj2 (bytes_eqb_eq a a) eq_refl) in E1.
    discriminate.
Qed.

Lemma found_of_absent (rid : list byte) :
  forall spanned, has_record rid spanned = false -> found_of rid spanned = 0.
Proof.
  unfold found_of, has_record.
  induction spanned as [|r rest IH]; intros H; [reflexivity|].
  simpl in H. apply orb_false_iff in H. destruct H as [Hr Hrest].
  cbn [find]. rewrite Hr. auto.
Qed.

Lemma found_of_app (rid : list byte) (r : _spanned_rec) :
  forall spanned,
    found_of rid (spanned ++ [r])
    = if has_record rid spanned then found_of rid spanned
      else if bytes_eqb (record_id r) rid then entries_found r else 0.
Proof.
  unfold found_of, has_record.
  induction spanned as [|r0 rest IH]; cbn [app find existsb].
  - destruct (bytes_eqb (record_id r) rid); reflexivity.
  - destruct (bytes_eqb (record_id r0) rid); [reflexivity|]. cbn [orb].
    exact IH.
Qed.

Lemma spanned_update_found (ds : Z) (head : vblk_head) (payload : list byte)
    (rid : list byte) :
  forall spanned spanned',
    spanned_update spanned head ds payload = Ok (Some spanned') ->
    has_record (head_record_id head) spanned = true
    /\ map record_id spanned' = map record_id spanned
    /\ found_of rid spanned'
       = if bytes_eqb (head_record_id head) rid
         then wrap 16 (found_of rid spanned + 1)
         else found_of rid spanned.
Proof.
  unfold found_of, has_record.
  induction spanned as [|r rest IH]; intros spanned' H;
    cbn [spanned_update] in H; [discriminate|].
  cbn [existsb find].
  destruct (bytes_eqb (record_id r) (head_record_id head)) eqn:Hr.
  - bind_inv H. inversion H; subst. clear H. apply bytes_eqb_eq in Hr.
    split; [reflexivity|]. split; [reflexivity|].
    cbn [find record_id entries_found]. rewrite Hr.
    destruct (bytes_eqb (head_record_id head) rid); reflexivity.
  - bind_inv H. destruct a as [s|]; [|discriminate]. inversion H; subst.
    clear H. destruct (IH s Ha) as (Hhas & Hids & Hf).
    split; [exact Hhas|]. split; [simpl; congruence|].
    cbn [find].
    destruct (bytes_eqb (record_id r) rid) eqn:Hrr; [|exact Hf].
    destruct (bytes_eqb (head_record_id head) rid) eqn:Hh; [|reflexivity].
    apply bytes_eqb_eq in Hrr, Hh. subst rid.
    rewrite (proj2 (bytes_eqb_eq _ _) Hrr) in Hr. discriminate.
Qed.

Lemma spanned_update_None (ds : Z) (head : vblk_head) (payload : list byte) :
  forall spanned,
    spanned_update spanned head ds payload = Ok None ->
    has_record (head_record_id head) spanned = false.
Proof.
  unfold has_record.
  induction spanned as [|r rest IH]; intros H; cbn [spanned_update] in H;
    [reflexivity|]. cbn [existsb].
  destruct (bytes_eqb (record_id r) (head_record_id head)).
  - bind_inv H. discriminate.
  - bind_inv H. destruct a; [discriminate|]. cbn [orb]. auto.
Qed.

(** What one entry does to the counters. *)
Lemma spanned_add_found (host : byte_order) (ds offset : Z)
    (head : vblk_head) (payload : list byte) (rid : list byte)
    (spanned spanned' : list _spanned_rec) :
  spanned_add host spanned head ds offset payload = Ok spanned' ->
  found_of rid spanned'
  = (if bytes_eqb (head_record_id head) rid
     then if has_record rid spanned then wrap 16 (found_of rid spanned + 1)
          else 1
     else found_of rid spanned)
  /\ has_record rid spanned'
     = has_record rid spanned || bytes_eqb (head_record_id head) rid.
Proof.
  unfold spanned_add. intros H. bind_inv H. destruct a as [s|].
  - inversion H; subst. clear H.
    destruct (spanned_update_found ds head payload rid _ _ Ha)
      as (Hhas & Hids & Hf).
    rewrite Hf, (has_record_ids rid _ _ Hids).
    destruct (bytes_eqb (head_record_id head) rid) eqn:Hh.
    + apply bytes_eqb_eq in Hh. subst rid. rewrite Hhas. auto.
    + rewrite orb_false_r. auto.
  - apply spanned_update_None in Ha. bind_inv H. inversion H; subst. clear H.
    unfold spanned_new in Ha0. destruct (_ >? INT_MAX); [discriminate|].
    bind_inv Ha0. inversion Ha0; subst. clear Ha0.
    rewrite found_of_app, has_record_app.
    cbn [record_id entries_found has_record existsb].
    rewrite orb_false_r.
    destruct (bytes_eqb (head_record_id head) rid) eqn:Hh.
    + apply bytes_eqb_eq in Hh. subst rid. rewrite Ha. auto.
    + destruct (has_record rid spanned) eqn:Hr; [auto|].
      rewrite (found_of_absent rid spanned Hr). auto.
Qed.

Lemma wrap16_succ (k : Z) : wrap 16 (wrap 16 k + 1) = wrap 16 (k + 1).
Proof. unfold wrap. apply Z.add_mod_idemp_l. discriminate. Qed.

(** From a counter [k] and the presence of the record, over the rest of
    the stream. *)
Lemma reassemble_counts (host : byte_order) (ds : Z) (rid : list byte) :
  forall es spanned spanned' k,
    reassemble host ds es spanned = Ok spanned' ->
    found_of rid spanned = wrap 16 (Z.of_nat k) ->
    has_record rid spanned = negb (Nat.eqb k 0) ->
    found_of rid spanned'
    = wrap 16 (Z.of_nat (k + List.length (entries_of rid es)))
    /\ has_record rid spanned'
       = negb (Nat.eqb (k + List.length (entries_of rid es)) 0).
Proof.
  unfold entries_of.
  induction es as [|e es IH]; intros spanned spanned' k H Hf Hh;
    cbn [reassemble filter] in *.
  - inversion H; subst. rewrite Nat.add_0_r. auto.
  - destruct (of_record rid e) eqn:Hof; unfold of_record in Hof.
    + apply andb_true_iff in Hof. destruct Hof as (Hrid & Hsp).
      rewrite Hsp in H. bind_inv H.
      destruct (spanned_add_found host ds (e_offset e) (e_head e)
                  (e_payload e) rid _ _ Ha) as (Hf' & Hh').
      rewrite Hrid in Hf', Hh'. cbn [List.length].
      replace (k + S (List.length (filter (of_record rid) es)))%nat
        with (S k + List.length (filter (of_record rid) es))%nat by lia.
      apply (IH _ _ (S k) H).
      * rewrite Hf', Hh, Hf. destruct k as [|k]; cbn [Nat.eqb negb].
        -- reflexivity.
        -- rewrite wrap16_succ. f_equal. lia.
      * rewrite Hh', orb_true_r. reflexivity.
    + destruct (is_spanned_entry e) eqn:Hsp; [|apply (IH _ _ k H); assumption].
      rewrite andb_true_r in Hof. bind_inv H.
      destruct (spanned_add_found host ds (e_offset e) (e_head e)
                  (e_payload e) rid _ _ Ha) as (Hf' & Hh').
      rewrite Hof in Hf', Hh'. apply (IH _ _ k H).
      * rewrite Hf'. exact Hf.
      * rewrite Hh', orb_false_r. exact Hh.
Qed.

Lemma spanned_add_ids (host : byte_order) (ds offset : Z) (head : vblk_head)
    (payload : list byte) (spanned spanned' : list _spanned_rec) :
  spanned_add host spanned head ds offset payload = Ok spanned' ->
  NoDup (map record_id spanned) -> NoDup (map record_id spanned').
Proof.
  unfold spanned_add. intros H Hnd. bind_inv H. destruct a as [s|].
  - inversion H; subst.
    destruct (spanned_update_found ds head payload [] _ _ Ha) as (_ & -> & _).
    exact Hnd.
  - apply spanned_update_None in Ha. bind_inv H. inversion H; subst.
    unfold spanned_new in Ha0. destruct (_ >? INT_MAX); [discriminate|].
    bind_inv Ha0. inversion Ha0; subst. rewrite map_app. cbn [map record_id].
    apply NoDup_app; [exact Hnd|repeat constructor; intros []|].
    intros rid Hin [<- | []]. apply in_map_iff in Hin.
    destruct Hin as (r & Hr & Hin).
    assert (Hn : has_record (head_record_id head) spanned = true).
    { unfold has_record. apply existsb_exists. exists r.
      split; [exact Hin|]. apply bytes_eqb_eq. exact Hr. }
    congruence.
Qed.

Lemma reassemble_ids (host : byte_order) (ds : Z) :
  forall es spanned spanned',
    reassemble host ds es spanned = Ok spanned' ->
    NoDup (map record_id spanned) -> NoDup (map record_id spanned').
Proof.
  induction es as [|e es IH]; intros spanned spanned' H Hnd;
    cbn [reassemble] in H.
  - inversion H; subst. exact Hnd.
  - destruct (is_spanned_entry e); [|eauto].
    bind_inv H. eapply IH; [exact H|]. eapply spanned_add_ids; eauto.
Qed.

Lemma found_of_In (r : _spanned_rec) :
  forall spanned,
    NoDup (map record_id spanned) -> In r spanned ->
    found_of (record_id r) spanned = entries_found r.
Proof.
  unfold found_of.
  induction spanned as [|r0 rest IH]; intros Hnd Hin; [destruct Hin|].
  cbn [find]. inversion Hnd as [|? ? Hnot Hnd']; subst.
  destruct Hin as [-> | Hin].
  - rewrite (proj2 (bytes_eqb_eq _ _) eq_refl). reflexivity.
  - destruct (bytes_eqb (record_id r0) (record_id r)) eqn:Heq; [|auto].
    apply bytes_eqb_eq in Heq. exfalso. apply Hnot. rewrite Heq.
    apply in_map. exact Hin.
Qed.

(** X28: [entries_found] of a spanned record is the number of entries of
    the stream that carry its record id, in 16 bits: the loop counts the
    entries of a record, whichever their entry numbers. *)
Theorem spanned_entries_are_counted (host : byte_order) (ds : Z)
    (es : list vblk_entry) (spanned : list _spanned_rec) (r : _spanned_rec) :
  reassemble host ds es [] = Ok spanned ->
  In r spanned ->
  entries_found r
  = wrap 16 (Z.of_nat (List.length (entries_of (record_id r) es))).
Proof.
  intros H Hin.
  pose proof (reassemble_ids host ds es [] spanned H (NoDup_nil _)) as Hnd.
  rewrite <- (found_of_In r spanned Hnd Hin).
  destruct (reassemble_counts host ds (record_id r) es [] spanned 0%nat H
              eq_refl eq_refl) as (Hf & _).
  exact Hf.
Qed.

Lemma spanned_entries_are_counted_witness :
  entries_found
    (mkSpanned (Sample.be_bytes 4 9) 2 2 0 (Sample.str "abef"))
  = wrap 16
      (Z.of_nat (List.length (entries_of (Sample.be_bytes 4 9)
                                Sample.stream_a))).
Proof.
  apply (spanned_entries_are_counted BigEndian 2 Sample.stream_a
           [mkSpanned (Sample.be_bytes 4 9) 2 2 0 (Sample.str "abef");
            mkSpanned (Sample.be_bytes 4 7) 3 1 18
              (Sample.str "cd" ++ Sample.zeros 4)]
           (mkSpanned (Sample.be_bytes 4 9) 2 2 0 (Sample.str "abef"))).
  - vm_compute. reflexivity.
  - left. reflexivity.
Defined.


(** X29: [_parse_vblk] only returns normally for a blank record, a volume
    of revision 5, a component or partition of revision 3, or a disk or
    disk group of revision 3 or 4; a blank record leaves the group as it
    is. *)
Theorem _parse_vblk_supported (m : mem) (data : Z) (dg dg' : LDMDiskGroup) :
  _parse_vblk m data dg = Ok dg' ->
  exists ty,
    member_be _vblk_rec_head m data "type" = Ok ty
    /\ supported_record (Z.land ty 15) (Z.shiftr (Z.land ty 240) 4) = true
    /\ (Z.land ty 15 = 0 -> dg' = dg).
Proof.
  unfold _parse_vblk, supported_record. intros H. bind_inv H. exists a.
  split; [exact Ha|].
  set (type := Z.land a 15) in *.
  set (revision := Z.shiftr (Z.land a 240) 4) in *.
  destruct (type =? 0) eqn:E0.
  { inversion H. split; [reflexivity|]. reflexivity. }
  apply Z.eqb_neq in E0. split; [|intros; contradiction]. cbn [orb].
  destruct (type =? 1) eqn:E1.
  { bind_inv H. bind_inv H. unfold _parse_vblk_vol in Ha1.
    destruct (revision =? 5); [reflexivity|discriminate]. }
  destruct (type =? 2) eqn:E2.
  { bind_inv H. bind_inv H. unfold _parse_vblk_comp in Ha1.
    destruct (revision =? 3); [reflexivity|discriminate]. }
  destruct (type =? 3) eqn:E3.
  { bind_inv H. bind_inv H. unfold _parse_vblk_part in Ha1.
    destruct (revision =? 3); [reflexivity|discriminate]. }
  destruct (type =? 4) eqn:E4.
  { bind_inv H. bind_inv H. unfold _parse_vblk_disk in Ha1.
    bind_inv Ha1. destruct a2. bind_inv Ha1. destruct a2.
    destruct (revision =? 3); [reflexivity|].
    destruct (revision =? 4); [reflexivity|discriminate]. }
  destruct (type =? 5) eqn:E5; [|discriminate].
  bind_inv H. unfold _parse_vblk_disk_group in H.
  destruct (revision =? 3); [reflexivity|].
  destruct (revision =? 4); [reflexivity|discriminate].
Qed.


Lemma component_record_witness :
  _parse_vblk
    (Sample.rec_component 20 "c1" (component_type_code LDM_COMPONENT_TYPE_RAID)
       3 10 (Some (128, 3)) ++ [xff]) 0 (new_disk_group [])
  = Ok (set_dg_comps (new_disk_group [])
          [mkComponent 20 10 "c1" LDM_COMPONENT_TYPE_RAID 3 [] 128 3]).
Proof.
  apply (component_record 20 10 3 "c1" LDM_COMPONENT_TYPE_RAID
           (Some (128, 3)) [] [xff] (new_disk_group []));
    cbv; repeat split; congruence.
Defined.


Lemma disk_record_v3_witness :
  _parse_vblk (Sample.rec_disk 1 "d1" Sample.guid_d1 ++ [xff]) 0
    (new_disk_group [])
  = Ok (set_dg_disks (new_disk_group [])
          [mkDisk 1 "d1" None 0 0 0 0 (Sample.uuid_of Sample.guid_d1) None]).
Proof.
  apply (disk_record_v3 1 "d1" Sample.guid_d1
           (Sample.uuid_of Sample.guid_d1) [] [xff] (new_disk_group []));
    cbv; repeat split; congruence.
Defined.

Lemma disk_group_record_witness :
  _parse_vblk (Sample.rec_disk_group 1 "dg1" ++ [xff]) 0 (new_disk_group [])
  = Ok (set_dg_id_name (new_disk_group []) 1 "dg1").
Proof.
  apply (disk_group_record 1 "dg1" [] [xff] (new_disk_group []));
    cbv; repeat split; congruence.
Defined.

Lemma _parse_vblk_supported_witness :
  exists ty,
    member_be _vblk_rec_head (Sample.rec_disk_group 1 "dg1") 0 "type" = Ok ty
    /\ supported_record (Z.land ty 15) (Z.shiftr (Z.land ty 240) 4) = true
    /\ (Z.land ty 15 = 0 ->
        set_dg_id_name (new_disk_group []) 1 "dg1" = new_disk_group []).
Proof.
  apply (_parse_vblk_supported (Sample.rec_disk_group 1 "dg1") 0
           (new_disk_group [])).
  vm_compute. reflexivity.
Defined.
